(** * Radar layout engine: a shallow embedding of the four layout variants

    The repository holds four implementations of the point layout of the
    technology radar:

    - [Seeded]  : [calculateTechnologyPositions] with [calculateOptimizedPosition]
                  (seeded sampling, ten re-seeded retries);
    - [Grid]    : [calculateTechnologyPositions] with [generateGridPositions],
                  [findForceBasedPosition] and [findEmergencyPosition]
                  (spiral sampling drawn from [Math.random], force relaxation);
    - [TechRadar] : [calculatePosition] / [processedData] of [tech-radar.tsx]
                  (seeded sampling, fifty retries, best candidate kept);
    - [V8]      : [calculatePosition] / [processedData] of [radar V8.tsx]
                  (seeded jitter, no collision test).

    Numbers.  JavaScript numbers are IEEE doubles; here they are idealised as
    real numbers ([R]), so rounding is not modelled.  Character codes and
    seeds are natural numbers (sums of character codes are exact in doubles).
    Where the source can produce [NaN] (arithmetic on [undefined] fields in
    [Seeded]), the value type is [R] extended with [NaN].  The theorems
    about regions are therefore strict containments that keep a margin
    (several units, several degrees) which the rounding of the last bit
    cannot use up; the lemmas with closed bounds behind them hold in exact
    arithmetic and say so.  Nothing is stated about the points that the
    clamps of the two relaxations of [Grid] put exactly on a circle.

    Objects.  The grouping object of [Grid] is a plain object, so its
    lookups go through the prototype chain.  [Grid.Heap] holds the
    properties that calls leave on [Object.prototype] and on the function
    [Object]; the layout takes the heap it starts on and returns the heap
    it leaves.

    Strings.  A JavaScript string is modelled as a [string] of code units
    below 256 (Latin-1); [toLowerCase] and the [\s] class are exact on that
    range. *)

From Stdlib Require Import Reals Lra Lia List String Ascii Bool Arith ZArith.
From Stdlib Require Import Permutation Factorial Machin.
Import ListNotations.

Local Open Scope R_scope.

(** ** JavaScript strings *)

Module JsString.

Definition charCodeAt (c : ascii) : nat := nat_of_ascii c.

(** [name.split("")]: the code units of the string, in order. *)
Fixpoint split (s : string) : list ascii :=
  match s with
  | EmptyString => []
  | String c rest => c :: split rest
  end.

Definition lower_char (c : ascii) : ascii :=
  let n := nat_of_ascii c in
  if ((65 <=? n) && (n <=? 90))%nat then ascii_of_nat (n + 32)
  else if ((192 <=? n) && (n <=? 222) && negb (n =? 215))%nat
       then ascii_of_nat (n + 32)
  else c.

(** [s.toLowerCase()] on Latin-1 code units. *)
Fixpoint toLowerCase (s : string) : string :=
  match s with
  | EmptyString => EmptyString
  | String c rest => String (lower_char c) (toLowerCase rest)
  end.

(** The regular expression class [\s] restricted to Latin-1. *)
Definition is_space (c : ascii) : bool :=
  let n := nat_of_ascii c in
  ((9 <=? n) && (n <=? 13) || (n =? 32) || (n =? 160))%nat.

(** [s.replace(/\s+/g, "")]: every run of white space is deleted. *)
Fixpoint stripSpaces (s : string) : string :=
  match s with
  | EmptyString => EmptyString
  | String c rest =>
      if is_space c then stripSpaces rest else String c (stripSpaces rest)
  end.

(** [s.replace("&", "")]: only the first ampersand is deleted. *)
Fixpoint dropFirstAmp (s : string) : string :=
  match s with
  | EmptyString => EmptyString
  | String c rest =>
      if Ascii.eqb c "&"%char then rest else String c (dropFirstAmp rest)
  end.

(** [q.toLowerCase().replace(/\s+/g, "").replace("&", "")] *)
Definition normalizeKey (q : string) : string :=
  dropFirstAmp (stripSpaces (toLowerCase q)).

End JsString.

(** ** The seed generator and the trigonometric hash *)

(** [generateSeed]: [name.split("").reduce((acc, char) => acc + char.charCodeAt(0), 0)].
    The same expression is inlined in [tech-radar.tsx] and [radar V8.tsx]. *)
Definition generateSeed (name : string) : nat :=
  fold_left (fun acc char => (acc + JsString.charCodeAt char)%nat)
            (JsString.split name) 0%nat.

(** [Math.floor] on reals. *)
Definition floor (x : R) : R := IZR (Int_part x).

(** [seededRandom]: [const x = Math.sin(seed) * 10000; return x - Math.floor(x)] *)
Definition seededRandom (seed : R) : R :=
  let x := sin seed * 10000 in
  x - floor x.

(** ** Shared data ([radar-data.ts]) and array helpers *)

(** [RadarTechnology]: one classified item. *)
Record RadarTechnology := mkTech {
  name : string;
  description : string;
  quadrant : string;
  ring : string;
  score : R;
  rationale : string;
  source_url : string
}.

(** A point [{ x, y }]. *)
Record Position := mkPosition { x : R; y : R }.

Module JsArray.

(** [arr.find(p)] together with the position of the element found, which
    is what a later [arr.indexOf(found)] returns for arrays of distinct
    objects. *)
Fixpoint find_from {A} (p : A -> bool) (arr : list A) (i : nat) : option (nat * A) :=
  match arr with
  | [] => None
  | a :: rest => if p a then Some (i, a) else find_from p rest (S i)
  end.

Definition find {A} (p : A -> bool) (arr : list A) : option (nat * A) :=
  find_from p arr 0.

(** [arr.findIndex(p)]: the first index whose element satisfies [p], or -1. *)
Definition findIndex {A} (p : A -> bool) (arr : list A) : Z :=
  match find p arr with
  | Some (i, _) => Z.of_nat i
  | None => (-1)%Z
  end.

(** [arr.map((a, i) => f(a, i))] *)
Fixpoint map_from {A B} (f : A -> nat -> B) (arr : list A) (i : nat) : list B :=
  match arr with
  | [] => []
  | a :: rest => f a i :: map_from f rest (S i)
  end.

Definition mapi {A B} (f : A -> nat -> B) (arr : list A) : list B :=
  map_from f arr 0.

End JsArray.

(** ** Variant [V8]: seeded jitter ([radar V8.tsx]) *)

Module V8.

(** [getResponsiveConfig().size]; the dot sizes do not enter the layout. *)
Definition size : R := 600.
Definition center : R := size / 2.
Definition maxRadius : R := center - 40.

Record Ring := mkRing { ring_name : string; altName : string; radius : R }.

Definition rings : list Ring :=
  [ mkRing "Adopt" "ADOPT" (maxRadius * 0.25);
    mkRing "Trial" "TRIAL" (maxRadius * 0.45);
    mkRing "Assess" "ASSESS" (maxRadius * 0.7);
    mkRing "Hold" "HOLD" (maxRadius * 0.95) ].

(** The colours of a quadrant only feed the rendering and are left out. *)
Record Quadrant := mkQuadrant {
  quadrant_name : string;
  key : string;
  startAngle : R;
  endAngle : R
}.

Definition quadrants : list Quadrant :=
  [ mkQuadrant "Techniques" "techniques" 180 270;
    mkQuadrant "Tools" "tools" 270 360;
    mkQuadrant "Platforms" "platforms" 90 180;
    mkQuadrant "Languages & Frameworks" "languagesframeworks" 0 90 ].

(** [quadrants.find((q) => q.name === item.quadrant || q.key === normalised)] *)
Definition findQuadrant (item : RadarTechnology) : option (nat * Quadrant) :=
  JsArray.find
    (fun q => String.eqb (quadrant_name q) (quadrant item)
              || String.eqb (key q) (JsString.normalizeKey (quadrant item)))
    quadrants.

(** [rings.find((r) => r.name === item.ring || r.altName === item.ring)] *)
Definition findRing (item : RadarTechnology) : option (nat * Ring) :=
  JsArray.find
    (fun r => String.eqb (ring_name r) (ring item)
              || String.eqb (altName r) (ring item))
    rings.

(** [ring === rings[0] ? 25 : rings[rings.indexOf(ring) - 1].radius + 15] *)
Definition ringMinRadius (ringIndex : nat) : R :=
  match ringIndex with
  | O => 25
  | S i => radius (nth i rings (mkRing "" "" 0)) + 15
  end.

(** The polar sample of [calculatePosition] before it is turned into
    coordinates: the three hashes, the angle and the clamped radius. *)
Record Sample := mkSample {
  random1 : R; random2 : R; random3 : R;
  angle : R;
  sample_radius : R
}.

Definition sample (item : RadarTechnology)
           (itemsInSameRingQuadrant : list RadarTechnology)
           (q : Quadrant) (ringIndex : nat) (r : Ring) : Sample :=
  let seed := INR (generateSeed (name item)) in
  let random1 := sin (seed * 0.1) * 0.5 + 0.5 in
  let random2 := sin (seed * 0.2) * 0.5 + 0.5 in
  let random3 := sin (seed * 0.3) * 0.5 + 0.5 in
  let itemIndex :=
    JsArray.findIndex (fun i => String.eqb (name i) (name item))
                      itemsInSameRingQuadrant in
  let totalItems := List.length itemsInSameRingQuadrant in
  let startAngleRad := startAngle q * PI / 180 in
  let endAngleRad := endAngle q * PI / 180 in
  let angleRange0 := endAngleRad - startAngleRad in
  let angleRange :=
    if Rle_dec angleRange0 0 then angleRange0 + 2 * PI else angleRange0 in
  let usableAngleRange := angleRange * 0.7 in
  let angleMargin := angleRange * 0.15 in
  let angle :=
    if Nat.eqb totalItems 1 then
      startAngleRad + angleRange * 0.5 + (random1 - 0.5) * angleRange * 0.3
    else
      let baseAngleStep := usableAngleRange / INR totalItems in
      let baseAngle :=
        startAngleRad + angleMargin + (IZR itemIndex + 0.5) * baseAngleStep in
      let randomOffset := (random1 - 0.5) * baseAngleStep * 0.6 in
      baseAngle + randomOffset in
  let minRadius := ringMinRadius ringIndex in
  let maxRadius := radius r - 15 in
  let radiusRange := maxRadius - minRadius in
  let baseRadius := minRadius + radiusRange * 0.1 + radiusRange * 0.7 * random2 in
  let radiusJitter := radiusRange * 0.3 * (random3 - 0.5) in
  let radius := Rmax (minRadius + 3) (Rmin (maxRadius - 3) (baseRadius + radiusJitter)) in
  mkSample random1 random2 random3 angle radius.

(** [calculatePosition(item, itemsInSameRingQuadrant)] *)
Definition calculatePosition (item : RadarTechnology)
           (itemsInSameRingQuadrant : list RadarTechnology) : Position :=
  match findQuadrant item, findRing item with
  | Some (_, q), Some (ringIndex, r) =>
      let s := sample item itemsInSameRingQuadrant q ringIndex r in
      let baseX := center + sample_radius s * cos (angle s) in
      let baseY := center + sample_radius s * sin (angle s) in
      let jitterAmount := 8 in
      mkPosition (baseX + (random2 s - 0.5) * jitterAmount)
                 (baseY + (random3 s - 0.5) * jitterAmount)
  | _, _ => mkPosition center center
  end.

(** A processed item: the spread [...item] is the field [item], and
    [x: position.x, y: position.y] is the field [position]; the colours
    are left to the rendering. *)
Record RadarItem := mkRadarItem {
  item : RadarTechnology;
  position : Position;
  id : nat
}.

(** [radarData.radar_data.filter(other => other.ring === item.ring &&
    other.quadrant === item.quadrant)] *)
Definition sameRingQuadrant (item : RadarTechnology)
           (radar_data : list RadarTechnology) : list RadarTechnology :=
  filter (fun other => String.eqb (ring other) (ring item)
                       && String.eqb (quadrant other) (quadrant item))
         radar_data.

(** [processedData]: one output entry per input entry, by [map]. *)
Definition processedData (radar_data : list RadarTechnology) : list RadarItem :=
  JsArray.mapi
    (fun item globalIndex =>
       let itemsInSameRingQuadrant := sameRingQuadrant item radar_data in
       mkRadarItem item (calculatePosition item itemsInSameRingQuadrant) globalIndex)
    radar_data.

End V8.

(** ** Distances *)

(** A distance that may be [Infinity]. *)
Inductive Dist := Finite (d : R) | Infinity.

Definition dist_ge (a : Dist) (b : R) : bool :=
  match a with
  | Finite d => if Rge_dec d b then true else false
  | Infinity => true
  end.

Definition dist_gt (a b : Dist) : bool :=
  match a, b with
  | Finite d, Finite e => if Rgt_dec d e then true else false
  | Finite _, Infinity => false
  | Infinity, Finite _ => true
  | Infinity, Infinity => false
  end.

(** ** Loops as the source writes them *)

Module While.

Section Machine.

Context {S A : Type}.

(** What one round of a loop body does: go on with a new state, or
    leave the loop ([break] or [return]) with a result. *)
Inductive Control := Continue (s : S) | Leave (a : A).

Variable cond : S -> bool.
Variable body : S -> Control.
(** The result when the loop condition fails. *)
Variable exit : S -> A.

(** [while (cond) body], run with a bound on the number of rounds that
    is independent of the loop: [None] when the bound is exhausted,
    otherwise the result and the number of rounds executed. *)
Fixpoint run (fuel : nat) (s : S) (rounds : nat) : option (A * nat) :=
  match fuel with
  | O => None
  | Datatypes.S fuel' =>
      if cond s then
        match body s with
        | Continue s' => run fuel' s' (Datatypes.S rounds)
        | Leave a => Some (a, Datatypes.S rounds)
        end
      else Some (exit s, rounds)
  end.

End Machine.

Arguments Continue {S A} s.
Arguments Leave {S A} a.

End While.

(** ** Plain objects used as dictionaries *)

Module JsObject.

(** An object built by assignments: its own properties in insertion
    order.  Property names are distinct. *)
Definition Obj (A : Type) : Type := list (string * A).

Fixpoint get {A} (o : Obj A) (k : string) : option A :=
  match o with
  | [] => None
  | (k', a) :: rest => if String.eqb k k' then Some a else get rest k
  end.

(** [o[k] = a] *)
Fixpoint set {A} (o : Obj A) (k : string) (a : A) : Obj A :=
  match o with
  | [] => [(k, a)]
  | (k', b) :: rest =>
      if String.eqb k k' then (k', a) :: rest else (k', b) :: set rest k a
  end.

Definition digit (c : ascii) : option N :=
  let n := nat_of_ascii c in
  if ((48 <=? n) && (n <=? 57))%nat then Some (N.of_nat (n - 48)) else None.

Fixpoint digits (s : string) (acc : N) : option N :=
  match s with
  | EmptyString => Some acc
  | String c rest =>
      match digit c with
      | Some d => digits rest (acc * 10 + d)%N
      | None => None
      end
  end.

(** A property name is an array index when it is the canonical decimal
    form of an integer below [2^32 - 1]. *)
Definition array_index (k : string) : option N :=
  match k with
  | EmptyString => None
  | String c rest =>
      if Ascii.eqb c "0"%char && negb (String.eqb rest "") then None
      else match digits k 0 with
           | Some n => if (n <=? 4294967294)%N then Some n else None
           | None => None
           end
  end.

Fixpoint insert_sorted {A} (n : N) (e : string * A) (l : list (N * (string * A)))
  : list (N * (string * A)) :=
  match l with
  | [] => [(n, e)]
  | (m, e') :: rest =>
      if (n <=? m)%N then (n, e) :: l else (m, e') :: insert_sorted n e rest
  end.

Fixpoint index_entries {A} (o : Obj A) : list (N * (string * A)) :=
  match o with
  | [] => []
  | (k, a) :: rest =>
      match array_index k with
      | Some n => insert_sorted n (k, a) (index_entries rest)
      | None => index_entries rest
      end
  end.

Definition is_index {A} (e : string * A) : bool :=
  match array_index (fst e) with Some _ => true | None => false end.

(** [Object.entries(o)]: array-index names in ascending order, then the
    other names in insertion order. *)
Definition entries {A} (o : Obj A) : list (string * A) :=
  map snd (index_entries o) ++ filter (fun e => negb (is_index e)) o.

(** The property names every object literal inherits from
    [Object.prototype]. *)
Definition inherited_keys : list string :=
  [ "constructor"; "__proto__"; "hasOwnProperty"; "isPrototypeOf";
    "propertyIsEnumerable"; "toString"; "toLocaleString"; "valueOf";
    "__defineGetter__"; "__defineSetter__"; "__lookupGetter__";
    "__lookupSetter__" ]%string.

Definition is_inherited (k : string) : bool :=
  existsb (String.eqb k) inherited_keys.

End JsObject.

(** ** Numbers that may be [NaN] *)

Module JsNum.

(** A JavaScript number as far as [Seeded] needs it: a real or [NaN]. *)
Inductive num := Fin (r : R) | NaN.

Definition lift1 (f : R -> R) (a : num) : num :=
  match a with Fin r => Fin (f r) | NaN => NaN end.

Definition lift2 (f : R -> R -> R) (a b : num) : num :=
  match a, b with Fin r, Fin s => Fin (f r s) | _, _ => NaN end.

Definition add := lift2 Rplus.
Definition sub := lift2 Rminus.
Definition mul := lift2 Rmult.
Definition cos := lift1 Rtrigo_def.cos.
Definition sin := lift1 Rtrigo_def.sin.

(** [Math.sqrt]: [NaN] below zero. *)
Definition sqrt (a : num) : num :=
  match a with
  | Fin r => if Rlt_dec r 0 then NaN else Fin (R_sqrt.sqrt r)
  | NaN => NaN
  end.

(** [Math.pow(a, 2)] *)
Definition pow2 (a : num) : num := mul a a.

(** [a < b] and [a <= b]: false as soon as one side is [NaN]. *)
Definition ltb (a b : num) : bool :=
  match a, b with
  | Fin r, Fin s => if Rlt_dec r s then true else false
  | _, _ => false
  end.

Definition leb (a b : num) : bool :=
  match a, b with
  | Fin r, Fin s => if Rle_dec r s then true else false
  | _, _ => false
  end.

End JsNum.

(** ** Variant [Seeded]: seeded sampling with re-seeded retries *)

Module Seeded.

Import JsNum.

(** The result of reading [obj[key]] on an object literal: an own
    property, a property inherited from [Object.prototype] (a truthy
    object or function whose configuration fields are [undefined]), or
    [undefined]. *)
Inductive Lookup (A : Type) := Own (a : A) | Inherited | Missing.
Arguments Own {A} a.
Arguments Inherited {A}.
Arguments Missing {A}.

Fixpoint own_lookup {A} (k : string) (obj : list (string * A)) : option A :=
  match obj with
  | [] => None
  | (k', a) :: rest => if String.eqb k k' then Some a else own_lookup k rest
  end.

Definition lookup {A} (obj : list (string * A)) (k : string) : Lookup A :=
  match own_lookup k obj with
  | Some a => Own a
  | None => if JsObject.is_inherited k then Inherited else Missing
  end.

Record QuadrantConfig := mkQuadrantConfig {
  startAngle : num; endAngle : num; sector : num
}.

Record RingConfig := mkRingConfig {
  minRadius : num; maxRadius : num; order : num
}.

Definition quadrantMap : list (string * QuadrantConfig) :=
  [ ("techniques", mkQuadrantConfig (Fin (PI + 0.1)) (Fin (3 * PI / 2 - 0.1)) (Fin 0));
    ("tools", mkQuadrantConfig (Fin (3 * PI / 2 + 0.1)) (Fin (2 * PI - 0.1)) (Fin 1));
    ("platforms", mkQuadrantConfig (Fin 0.1) (Fin (PI / 2 - 0.1)) (Fin 2));
    ("languagesframeworks",
      mkQuadrantConfig (Fin (PI / 2 + 0.1)) (Fin (PI - 0.1)) (Fin 3)) ]%string.

Definition ringMap : list (string * RingConfig) :=
  [ ("adopt", mkRingConfig (Fin 20) (Fin 80) (Fin 0));
    ("trial", mkRingConfig (Fin 90) (Fin 150) (Fin 1));
    ("assess", mkRingConfig (Fin 160) (Fin 220) (Fin 2));
    ("hold", mkRingConfig (Fin 230) (Fin 290) (Fin 3)) ]%string.

(** What the arithmetic sees of a truthy lookup result: the fields of an
    own entry, or [undefined] fields, which arithmetic turns into [NaN]. *)
Definition truthy {A} (undefined_fields : A) (l : Lookup A) : option A :=
  match l with
  | Own a => Some a
  | Inherited => Some undefined_fields
  | Missing => None
  end.

Definition undefinedQuadrant : QuadrantConfig := mkQuadrantConfig NaN NaN NaN.
Definition undefinedRing : RingConfig := mkRingConfig NaN NaN NaN.

(** A positioned technology: the spread [...tech] is the field [tech]. *)
Record TechnologyPosition := mkTechnologyPosition {
  tech : RadarTechnology;
  id : nat;
  x : num;
  y : num
}.

(** A polar candidate [(finalAngle, finalRadius)]. *)
Definition Polar : Type := (num * num)%type.

(** [center + finalRadius * Math.cos(finalAngle)] and its [sin] twin. *)
Definition toX (center : num) (p : Polar) : num :=
  add center (mul (snd p) (cos (fst p))).
Definition toY (center : num) (p : Polar) : num :=
  add center (mul (snd p) (sin (fst p))).

(** The distance of the test point to an already positioned item. *)
Definition distanceTo (testX testY : num) (otherTech : TechnologyPosition) : num :=
  sqrt (add (pow2 (sub testX (x otherTech))) (pow2 (sub testY (y otherTech)))).

(** The inner [for] loop: items of the same name are skipped, the scan
    stops at the first item closer than [minDistance]. *)
Definition hasCollision (techName : string) (minDistance : num)
           (itemsInSameRingQuadrant : list TechnologyPosition)
           (testX testY : num) : bool :=
  existsb
    (fun otherTech =>
       negb (String.eqb (name (tech otherTech)) techName)
       && ltb (distanceTo testX testY otherTech) minDistance)
    itemsInSameRingQuadrant.

(** The [while (attempts < maxAttempts)] loop, by recursion on
    [maxAttempts - attempts].  [adjusted attempts] is the candidate drawn
    from [adjustSeed = seed + attempts + 10]. *)
Fixpoint retry (collides : Polar -> bool) (adjusted : nat -> Polar)
         (remaining attempts : nat) (final : Polar) : Polar :=
  match remaining with
  | O => final
  | S remaining' =>
      if collides final
      then retry collides adjusted remaining' (S attempts) (adjusted attempts)
      else final
  end.

(** The same loop as written: the state is [(attempts, final)], a round
    without collision leaves by [break]. *)
Definition retryWhile (collides : Polar -> bool) (adjusted : nat -> Polar)
           (maxAttempts : nat) (fuel : nat) (first : Polar) : option (Polar * nat) :=
  While.run
    (fun st : nat * Polar => Nat.ltb (fst st) maxAttempts)
    (fun st : nat * Polar =>
       if collides (snd st)
       then While.Continue (S (fst st), adjusted (fst st))
       else While.Leave (snd st))
    (fun st : nat * Polar => snd st)
    fuel (0%nat, first) 0%nat.

(** The collision avoidance of [calculateOptimizedPosition], for any
    first candidate and any re-seeded candidates. *)
Definition avoidCollisions (techName : string)
           (itemsInSameRingQuadrant : list TechnologyPosition)
           (center minDistance : num) (maxAttempts : nat)
           (first : Polar) (adjusted : nat -> Polar) : Polar :=
  retry (fun p => hasCollision techName minDistance itemsInSameRingQuadrant
                               (toX center p) (toY center p))
        adjusted maxAttempts 0 first.

(** The candidate drawn from a seed: the angle uses [seededRandom(s)], the
    radius [seededRandom(s + 1)]. *)
Definition candidate (q : QuadrantConfig) (r : RingConfig) (s : R) : Polar :=
  let angleRange0 := sub (endAngle q) (startAngle q) in
  let angleRange :=
    if leb angleRange0 (Fin 0) then add angleRange0 (Fin (2 * PI)) else angleRange0 in
  let paddedAngleRange := mul angleRange (Fin 0.8) in
  let radiusRange := sub (sub (maxRadius r) (minRadius r)) (Fin 20) in
  (add (add (startAngle q) (mul angleRange (Fin 0.1)))
       (mul (Fin (seededRandom s)) paddedAngleRange),
   add (add (minRadius r) (Fin 10))
       (mul (Fin (seededRandom (s + 1))) radiusRange)).

Definition minDistance : num := Fin 35.
Definition maxAttempts : nat := 10.

(** [calculateOptimizedPosition(tech, itemsInSameRingQuadrant, center)] *)
Definition calculateOptimizedPosition (t : RadarTechnology)
           (itemsInSameRingQuadrant : list TechnologyPosition)
           (center : num) : num * num :=
  let quadrantKey := JsString.normalizeKey (quadrant t) in
  let ringKey := JsString.toLowerCase (ring t) in
  match truthy undefinedQuadrant (lookup quadrantMap quadrantKey),
        truthy undefinedRing (lookup ringMap ringKey) with
  | Some quadrantConfig, Some ringConfig =>
      let seed := INR (generateSeed (name t)) in
      let final :=
        avoidCollisions (name t) itemsInSameRingQuadrant center minDistance
          maxAttempts
          (candidate quadrantConfig ringConfig seed)
          (fun attempts =>
             candidate quadrantConfig ringConfig (seed + INR attempts + 10)) in
      (toX center final, toY center final)
  | _, _ => (center, center)
  end.

Definition sameGroup (quadrantKey ringKey : string)
           (positioned : TechnologyPosition) : bool :=
  String.eqb (JsString.normalizeKey (quadrant (tech positioned))) quadrantKey
  && String.eqb (JsString.toLowerCase (ring (tech positioned))) ringKey.

(** One round of [technologies.forEach]: the state is the array
    [positionedTechnologies] and [idCounter]. *)
Definition positionOne (st : list TechnologyPosition * nat) (t : RadarTechnology)
  : list TechnologyPosition * nat :=
  let (positionedTechnologies, idCounter) := st in
  let quadrantKey := JsString.normalizeKey (quadrant t) in
  let ringKey := JsString.toLowerCase (ring t) in
  let itemsInSameGroup := filter (sameGroup quadrantKey ringKey) positionedTechnologies in
  let position := calculateOptimizedPosition t itemsInSameGroup (Fin 300) in
  (positionedTechnologies
     ++ [mkTechnologyPosition t idCounter (fst position) (snd position)],
   S idCounter).

(** [calculateTechnologyPositions(technologies)] *)
Definition calculateTechnologyPositions (technologies : list RadarTechnology)
  : list TechnologyPosition :=
  fst (fold_left positionOne technologies ([], 1%nat)).

End Seeded.

(** ** Variant [TechRadar]: seeded sampling, best candidate kept *)

Module TechRadar.

Definition size : R := 400.
Definition center : R := size / 2.

Record Ring := mkRing { ring_name : string; radius : R }.

Definition rings : list Ring :=
  [ mkRing "ADOPT" 60; mkRing "TRIAL" 100; mkRing "ASSESS" 140; mkRing "HOLD" 180 ].

Record Quadrant := mkQuadrant {
  quadrant_name : string;
  key : string;
  startAngle : R;
  endAngle : R
}.

Definition quadrants : list Quadrant :=
  [ mkQuadrant "Techniques" "techniques" 180 270;
    mkQuadrant "Tools" "tools" 270 360;
    mkQuadrant "Platforms" "platforms" 90 180;
    mkQuadrant "Languages & Frameworks" "languagesframeworks" 0 90 ].

(** [quadrants.find((q) => q.key === normalised item.quadrant)] *)
Definition findQuadrant (t : RadarTechnology) : option (nat * Quadrant) :=
  JsArray.find (fun q => String.eqb (key q) (JsString.normalizeKey (quadrant t)))
               quadrants.

(** [rings.find((r) => r.name === item.ring)] *)
Definition findRing (t : RadarTechnology) : option (nat * Ring) :=
  JsArray.find (fun r => String.eqb (ring_name r) (ring t)) rings.

Definition ringMinRadius (ringIndex : nat) : R :=
  match ringIndex with
  | O => 25
  | S i => radius (nth i rings (mkRing "" 0)) + 15
  end.

(** An item of [tempItems]: [...item] with [id], [x] and [y]. *)
Record RadarItem := mkRadarItem {
  item : RadarTechnology;
  position : Position;
  id : nat
}.

(** [Number.MAX_VALUE] *)
Definition MAX_VALUE : R := IZR (2 ^ 1024 - 2 ^ 971).

Definition distance (px py : R) (existing : Position) : R :=
  sqrt ((px - x existing) ^ 2 + (py - y existing) ^ 2).

(** The [for (const existing of existingPositions)] scan: it returns
    [hasCollision] and [minDistanceToExisting], and stops at the first
    position closer than [minDistance]. *)
Fixpoint scan (minDistance : R) (existingPositions : list Position)
         (px py minDistanceToExisting : R) : bool * R :=
  match existingPositions with
  | [] => (false, minDistanceToExisting)
  | existing :: rest =>
      let d := distance px py existing in
      let m := Rmin minDistanceToExisting d in
      if Rlt_dec d minDistance then (true, m)
      else scan minDistance rest px py m
  end.

(** The [while (attempts < maxAttempts)] loop, by recursion on
    [maxAttempts - attempts]; [candidate attempts] is the point sampled in
    that round. *)
Fixpoint place (candidate : nat -> Position) (existingPositions : list Position)
         (minDistance : R) (remaining attempts : nat)
         (bestPosition : Position) (bestDistance : R) : Position :=
  match remaining with
  | O => bestPosition
  | S remaining' =>
      let p := candidate attempts in
      let (hasCollision, minDistanceToExisting) :=
        scan minDistance existingPositions (x p) (y p) MAX_VALUE in
      if negb hasCollision || Nat.eqb (List.length existingPositions) 0 then p
      else if Rlt_dec bestDistance minDistanceToExisting
           then place candidate existingPositions minDistance remaining'
                      (S attempts) p minDistanceToExisting
           else place candidate existingPositions minDistance remaining'
                      (S attempts) bestPosition bestDistance
  end.

(** The same loop as written: the state is
    [(attempts, bestPosition, bestDistance)], an accepted candidate leaves
    by [return]. *)
Definition placeWhile (candidate : nat -> Position) (existingPositions : list Position)
           (minDistance : R) (maxAttempts : nat) (center : R) (fuel : nat)
  : option (Position * nat) :=
  While.run
    (fun st : nat * Position * R => Nat.ltb (fst (fst st)) maxAttempts)
    (fun st : nat * Position * R =>
       let attempts := fst (fst st) in
       let p := candidate attempts in
       let (hasCollision, minDistanceToExisting) :=
         scan minDistance existingPositions (x p) (y p) MAX_VALUE in
       if negb hasCollision || Nat.eqb (List.length existingPositions) 0
       then While.Leave p
       else if Rlt_dec (snd st) minDistanceToExisting
            then While.Continue (S attempts, p, minDistanceToExisting)
            else While.Continue (S attempts, snd (fst st), snd st))
    (fun st : nat * Position * R => snd (fst st))
    fuel (0%nat, mkPosition center center, 0) 0%nat.

(** The collision resolver of [calculatePosition] for any sampler. *)
Definition resolve (candidate : nat -> Position) (existingPositions : list Position)
           (minDistance : R) (maxAttempts : nat) (center : R) : Position :=
  place candidate existingPositions minDistance maxAttempts 0
        (mkPosition center center) 0.

Definition random (seedValue : R) : R :=
  let x := sin seedValue * 10000 in
  x - floor x.

Definition angleRange (q : Quadrant) : R :=
  let startAngleRad := startAngle q * PI / 180 in
  let endAngleRad := endAngle q * PI / 180 in
  let angleRange := endAngleRad - startAngleRad in
  if Rle_dec angleRange 0 then angleRange + 2 * PI else angleRange.

(** The angle sampled in round [attempts]. *)
Definition candidateAngle (q : Quadrant) (seed : R) (itemIndex total attempts : nat) : R :=
  let startAngleRad := startAngle q * PI / 180 in
  let attemptSeed := seed + INR attempts * 1337 in
  let normalizedIndex := INR itemIndex / Rmax (INR total - 1) 1 in
  let baseAngle :=
    startAngleRad + (angleRange q * 0.8 * normalizedIndex) + (angleRange q * 0.1) in
  let randomAngleOffset := (random attemptSeed - 0.5) * angleRange q * 0.3 in
  baseAngle + randomAngleOffset.

(** The radius sampled in round [attempts]. *)
Definition candidateRadius (ringIndex : nat) (r : Ring) (seed : R) (attempts : nat) : R :=
  let minRadius := ringMinRadius ringIndex in
  let maxRadius := radius r - 15 in
  let radiusRange := maxRadius - minRadius in
  let attemptSeed := seed + INR attempts * 1337 in
  let radiusProgress := random (attemptSeed + 1) in
  minRadius + (radiusProgress * radiusRange).

Definition candidate (q : Quadrant) (ringIndex : nat) (r : Ring) (seed : R)
           (itemIndex total attempts : nat) : Position :=
  let a := candidateAngle q seed itemIndex total attempts in
  let rad := candidateRadius ringIndex r seed attempts in
  mkPosition (center + rad * cos a) (center + rad * sin a).

Definition minDistance : R := 25.
Definition maxAttempts : nat := 50.

(** [allItems.slice(0, itemIndex).filter(same ring and quadrant).map(x, y)] *)
Definition existingPositions (t : RadarTechnology) (allItems : list RadarItem)
           (itemIndex : nat) : list Position :=
  map position
      (filter (fun existing =>
                 String.eqb (ring (item existing)) (ring t)
                 && String.eqb (quadrant (item existing)) (quadrant t))
              (firstn itemIndex allItems)).

(** [calculatePosition(item, allItems, itemIndex)] *)
Definition calculatePosition (t : RadarTechnology) (allItems : list RadarItem)
           (itemIndex : nat) : Position :=
  match findQuadrant t, findRing t with
  | Some (_, q), Some (ringIndex, r) =>
      let seed := INR (generateSeed (name t)) in
      resolve (candidate q ringIndex r seed itemIndex (List.length allItems))
              (existingPositions t allItems itemIndex)
              minDistance maxAttempts center
  | _, _ => mkPosition center center
  end.

(** [tempItems[globalIndex] = processedItem] *)
Fixpoint assign {A} (arr : list A) (i : nat) (a : A) : list A :=
  match arr, i with
  | [], _ => []
  | _ :: rest, O => a :: rest
  | b :: rest, S i' => b :: assign rest i' a
  end.

(** One callback of the second [map]: the state is [tempItems] and the
    array built so far. *)
Definition processOne (st : list RadarItem * list RadarItem) (globalIndex : nat)
  : list RadarItem * list RadarItem :=
  let (tempItems, out) := st in
  match nth_error tempItems globalIndex with
  | Some it =>
      let position := calculatePosition (item it) tempItems globalIndex in
      let processedItem := mkRadarItem (item it) position (id it) in
      (assign tempItems globalIndex processedItem, out ++ [processedItem])
  | None => st
  end.

(** [processedData]: first pass with temporary positions at the centre,
    second pass in index order over the shared [tempItems]. *)
Definition processedData (radar_data : list RadarTechnology) : list RadarItem :=
  let tempItems :=
    JsArray.mapi (fun t globalIndex => mkRadarItem t (mkPosition center center) globalIndex)
                 radar_data in
  snd (fold_left processOne (seq 0 (List.length tempItems)) (tempItems, [])).

End TechRadar.

(** ** Variant [Grid]: spiral sampling from [Math.random], force relaxation *)

Module Grid.

(** The two fields of a ring or quadrant configuration the layout reads. *)
Record RingConfig := mkRingConfig { ring_name : string; radius : R }.
Record QuadrantConfig := mkQuadrantConfig {
  startAngle : R; endAngle : R; sector : nat
}.

(** [config.rings]; [config.quadrants] is not read. *)
Definition RadarConfig : Type := list RingConfig.

Definition quadrantMap : JsObject.Obj QuadrantConfig :=
  [ ("techniques", mkQuadrantConfig (PI + 0.15) (3 * PI / 2 - 0.15) 0);
    ("tools", mkQuadrantConfig (3 * PI / 2 + 0.15) (2 * PI - 0.15) 1);
    ("platforms", mkQuadrantConfig 0.15 (PI / 2 - 0.15) 2);
    ("languagesframeworks", mkQuadrantConfig (PI / 2 + 0.15) (PI - 0.15) 3) ]%string.

(** [Math.random()]: the k-th call of a run returns [rand k]. *)
Definition Random : Type := nat -> R.

Definition distance (px py : R) (existing : Position) : R :=
  sqrt ((px - x existing) ^ 2 + (py - y existing) ^ 2).

(** [distances.length > 0 ? Math.min(...distances) : Infinity] *)
Definition minDistanceToOthers (px py : R) (others : list Position) : Dist :=
  match map (distance px py) others with
  | [] => Infinity
  | d :: ds => Finite (fold_left Rmin ds d)
  end.

Definition ringMinRadius (ringConfig : RingConfig) : R :=
  Rmax 60 (radius ringConfig - 45).
Definition ringMaxRadius (ringConfig : RingConfig) : R :=
  radius ringConfig - 30.

(** [Math.atan2(y, x)] on reals. *)
Definition atan2 (py px : R) : R :=
  if Rlt_dec 0 px then atan (py / px)
  else if Rlt_dec px 0 then
         if Rle_dec 0 py then atan (py / px) + PI else atan (py / px) - PI
  else if Rlt_dec 0 py then PI / 2
  else if Rlt_dec py 0 then - (PI / 2)
  else 0.

(** The repulsion summed over [existingPositions]. *)
Definition forceStep (forceStrength reach : R) (px py : R) (acc : R * R)
           (existing : Position) : R * R :=
  let dx := px - x existing in
  let dy := py - y existing in
  let d := sqrt (dx * dx + dy * dy) in
  if Rlt_dec d reach then
    if Rlt_dec 0 d then
      let force := forceStrength / Rmax d 1 in
      (fst acc + (dx / d) * force, snd acc + (dy / d) * force)
    else acc
  else acc.

Definition forces (forceStrength reach : R) (existingPositions : list Position)
           (px py : R) : R * R :=
  fold_left (forceStep forceStrength reach px py) existingPositions (0, 0).

(** "Constrain to ring".  The products [x * scale] and [y * scale] are
    exact here; in doubles they are rounded, so the point the source
    computes can miss the circle of [targetRadius] by the last bit.  No
    statement of this development depends on where the re-scaled point
    lies. *)
Definition constrainRing (ringConfig : RingConfig) (p : Position) : Position :=
  let currentRadius := sqrt (x p * x p + y p * y p) in
  let minRadius := ringMinRadius ringConfig in
  let maxRadius := ringMaxRadius ringConfig in
  if Rlt_dec 0 currentRadius then
    let targetRadius := Rmax minRadius (Rmin maxRadius currentRadius) in
    let scale := targetRadius / currentRadius in
    mkPosition (x p * scale) (y p * scale)
  else p.

Definition normalizedAngle (p : Position) : R :=
  let currentAngle := atan2 (y p) (x p) in
  if Rlt_dec currentAngle 0 then currentAngle + 2 * PI else currentAngle.

(** "Constrain to quadrant". *)
Definition constrainQuadrant (quadrantConfig : QuadrantConfig) (p : Position)
  : Position :=
  let a := normalizedAngle p in
  if Rlt_dec a (startAngle quadrantConfig) then
    let midAngle := (startAngle quadrantConfig + endAngle quadrantConfig) / 2 in
    let currentRadius := sqrt (x p * x p + y p * y p) in
    mkPosition (cos midAngle * currentRadius) (sin midAngle * currentRadius)
  else if Rlt_dec (endAngle quadrantConfig) a then
    let midAngle := (startAngle quadrantConfig + endAngle quadrantConfig) / 2 in
    let currentRadius := sqrt (x p * x p + y p * y p) in
    mkPosition (cos midAngle * currentRadius) (sin midAngle * currentRadius)
  else p.

(** The starting point of both relaxations. *)
Definition midPoint (ringConfig : RingConfig) (quadrantConfig : QuadrantConfig)
  : Position :=
  let midRadius := (radius ringConfig + Rmax 60 (radius ringConfig - 45)) / 2 in
  let midAngle := (startAngle quadrantConfig + endAngle quadrantConfig) / 2 in
  mkPosition (cos midAngle * midRadius) (sin midAngle * midRadius).

(** One iteration of the loop of [findForceBasedPosition]. *)
Definition forceIteration (ringConfig : RingConfig) (quadrantConfig : QuadrantConfig)
           (existingPositions : list Position) (minDistance : R) (p : Position)
  : Position :=
  let f := forces 5 (minDistance * 2) existingPositions (x p) (y p) in
  constrainQuadrant quadrantConfig
    (constrainRing ringConfig (mkPosition (x p + fst f) (y p + snd f))).

(** One iteration of the loop of [findEmergencyPosition]: no angle is
    constrained. *)
Definition emergencyIteration (ringConfig : RingConfig)
           (existingPositions : list Position) (p : Position) : Position :=
  let f := forces 3 32 existingPositions (x p) (y p) in
  constrainRing ringConfig (mkPosition (x p + fst f) (y p + snd f)).

(** [for (let i = 0; i < iterations; i++) body], by recursion on
    [iterations - i]. *)
Fixpoint iterate {A} (body : A -> A) (remaining : nat) (a : A) : A :=
  match remaining with
  | O => a
  | S remaining' => iterate body remaining' (body a)
  end.

(** The same loop as written: the state is [(i, point)]. *)
Definition iterateWhile {A} (body : A -> A) (iterations : nat) (fuel : nat) (a : A)
  : option (A * nat) :=
  While.run
    (fun st : nat * A => Nat.ltb (fst st) iterations)
    (fun st : nat * A => While.Continue (A := A) (S (fst st), body (snd st)))
    (fun st : nat * A => snd st)
    fuel (0%nat, a) 0%nat.

(** [findForceBasedPosition(ringConfig, quadrantConfig, existingPositions, minDistance)] *)
Definition findForceBasedPosition (ringConfig : RingConfig)
           (quadrantConfig : QuadrantConfig) (existingPositions : list Position)
           (minDistance : R) : Position :=
  iterate (forceIteration ringConfig quadrantConfig existingPositions minDistance)
          50 (midPoint ringConfig quadrantConfig).

(** [findEmergencyPosition(ringConfig, quadrantConfig, existingPositions)] *)
Definition findEmergencyPosition (ringConfig : RingConfig)
           (quadrantConfig : QuadrantConfig) (existingPositions : list Position)
  : Position :=
  iterate (emergencyIteration ringConfig existingPositions)
          30 (midPoint ringConfig quadrantConfig).

Definition minDistance : R := 8 * 4.

(** The candidate of one attempt for the [i]-th of [count] positions; it
    consumes the draws [rand k] (angle) and [rand (k + 1)] (radius). *)
Definition gridCandidate (ringConfig : RingConfig) (quadrantConfig : QuadrantConfig)
           (count i : nat) (rand : Random) (k : nat) : Position :=
  let minRadius := ringMinRadius ringConfig in
  let maxRadius := ringMaxRadius ringConfig in
  let arcAngle := endAngle quadrantConfig - startAngle quadrantConfig in
  let radialSpace := maxRadius - minRadius in
  let spiralTurns := INR (Nat.max 2 ((count + 5) / 6)) in
  let angleStep := arcAngle / INR (Nat.max count 6) in
  let radiusStep := radialSpace / spiralTurns in
  let spiralProgress := INR i / INR count in
  let angle := startAngle quadrantConfig + (spiralProgress * arcAngle)
               + (rand k - 0.5) * angleStep * 0.8 in
  let radius := minRadius + (spiralProgress * radialSpace)
                + (rand (S k) - 0.5) * radiusStep * 0.6 in
  let clampedAngle :=
    Rmax (startAngle quadrantConfig + 0.1) (Rmin (endAngle quadrantConfig - 0.1) angle) in
  let clampedRadius := Rmax (minRadius + 15) (Rmin (maxRadius - 15) radius) in
  mkPosition (cos clampedAngle * clampedRadius) (sin clampedAngle * clampedRadius).

(** The inner [for (let attempt = 0; attempt < 20; attempt++)] loop. *)
Fixpoint tryAttempts (ringConfig : RingConfig) (quadrantConfig : QuadrantConfig)
         (count i : nat) (others : list Position) (rand : Random)
         (remaining k : nat) (bestPosition : option Position) (maxDistance : Dist)
  : option Position * nat :=
  match remaining with
  | O => (bestPosition, k)
  | S remaining' =>
      let p := gridCandidate ringConfig quadrantConfig count i rand k in
      let m := minDistanceToOthers (x p) (y p) others in
      if dist_ge m minDistance && dist_gt m maxDistance
      then tryAttempts ringConfig quadrantConfig count i others rand
                       remaining' (S (S k)) (Some p) m
      else tryAttempts ringConfig quadrantConfig count i others rand
                       remaining' (S (S k)) bestPosition maxDistance
  end.

(** The outer [for (let i = 0; i < count; i++)] loop of
    [generateGridPositions]. *)
Fixpoint gridLoop (ringConfig : RingConfig) (quadrantConfig : QuadrantConfig)
         (count : nat) (existingPositions : list Position) (rand : Random)
         (remaining i : nat) (positions : list Position) (k : nat)
  : list Position * nat :=
  match remaining with
  | O => (positions, k)
  | S remaining' =>
      let others := existingPositions ++ positions in
      let (bestPosition, k') :=
        tryAttempts ringConfig quadrantConfig count i others rand
                    20 k None (Finite 0) in
      let chosen :=
        match bestPosition with
        | Some p => p
        | None => findForceBasedPosition ringConfig quadrantConfig others minDistance
        end in
      gridLoop ringConfig quadrantConfig count existingPositions rand
               remaining' (S i) (positions ++ [chosen]) k'
  end.

(** [generateGridPositions(ringConfig, quadrantConfig, count, existingPositions)],
    started at draw [k]; the second component is the next unused draw. *)
Definition generateGridPositions (ringConfig : RingConfig)
           (quadrantConfig : QuadrantConfig) (count : nat)
           (existingPositions : list Position) (rand : Random) (k : nat)
  : list Position * nat :=
  gridLoop ringConfig quadrantConfig count existingPositions rand count 0 [] k.

(** The part of the heap that outlives a call.  The grouping reads
    [acc[quadrantKey]] and [acc[quadrantKey][ringKey]] through the prototype
    chain and creates what it finds missing, so a category [__proto__]
    makes it add properties to [Object.prototype], and a category
    [constructor] to the function [Object].  Each such property holds the
    array of the technologies pushed on it, and stays when the call ends:
    every later read of that name on an object that does not own it finds
    the array. *)
Record Heap := mkHeap {
  prototypeProperties : JsObject.Obj (list RadarTechnology);
  objectProperties : JsObject.Obj (list RadarTechnology)
}.

(** The heap before any call has written to it. *)
Definition pristine : Heap := mkHeap [] [].

(** The built-in properties of [Object.prototype] whose names a
    lower-cased key can spell: [__proto__] and [constructor] (the other
    names hold an upper-case letter). *)
Definition prototypeBuiltin (k : string) : bool :=
  String.eqb k "__proto__" || String.eqb k "constructor".

(** The lower-case names the function [Object] answers with a built-in
    value: its own properties, those of [Function.prototype] and those of
    [Object.prototype] (ECMAScript 2017 to 2024).  Each value is truthy and
    has no method [push], or the read itself throws ([arguments],
    [caller]). *)
Definition objectBuiltins : list string :=
  [ "length"; "name"; "prototype"; "assign"; "create"; "entries"; "freeze";
    "is"; "keys"; "seal"; "values"; "apply"; "bind"; "call"; "arguments";
    "caller"; "constructor"; "__proto__" ]%string.

Definition objectBuiltin (k : string) : bool :=
  existsb (String.eqb k) objectBuiltins.

(** How a run ends: it returns; it throws a [TypeError] ([push] is called
    on something that is not an array, or the prototype of
    [Object.prototype] is assigned), leaving the heap as the items before
    the throw made it; or it reads an array that a call left on
    [Object.prototype] as the ring map of a category or as a sector
    configuration.  What the engine does with such an array depends on its
    table of array methods and on [NaN] arithmetic; the model does not
    follow such a run. *)
Inductive Outcome (A : Type) := Returns (a : A) | TypeError (heap : Heap) | Untracked.
Arguments Returns {A} a.
Arguments TypeError {A} heap.
Arguments Untracked {A}.

Definition Grouped : Type := JsObject.Obj (JsObject.Obj (list RadarTechnology)).

Definition quadrantKeyOf (t : RadarTechnology) : string :=
  JsString.normalizeKey (quadrant t).
Definition ringKeyOf (t : RadarTechnology) : string :=
  JsString.toLowerCase (ring t).

(** [acc[quadrantKey]] is the object [rings] that [acc] owns (found, or
    just created): [if (!rings[ringKey]) rings[ringKey] = []], then
    [rings[ringKey].push(tech)].  A ring key that [rings] does not own is
    read from [Object.prototype]. *)
Definition groupInto (heap : Heap) (acc : Grouped) (quadrantKey : string)
           (rings : JsObject.Obj (list RadarTechnology)) (ringKey : string)
           (t : RadarTechnology) : Outcome (Grouped * Heap) :=
  match JsObject.get rings ringKey with
  | Some techs =>
      Returns (JsObject.set acc quadrantKey (JsObject.set rings ringKey (techs ++ [t])),
               heap)
  | None =>
      if prototypeBuiltin ringKey then TypeError heap
      else
        match JsObject.get (prototypeProperties heap) ringKey with
        | Some techs =>
            Returns (JsObject.set acc quadrantKey rings,
                     mkHeap (JsObject.set (prototypeProperties heap) ringKey (techs ++ [t]))
                            (objectProperties heap))
        | None =>
            Returns (JsObject.set acc quadrantKey (JsObject.set rings ringKey [t]), heap)
        end
  end.

(** [acc[quadrantKey]] is [Object.prototype] (category [__proto__]).
    [Object.prototype.__proto__] is [null], and assigning it throws;
    [Object.prototype.constructor] is the function [Object], which has no
    [push]; any other ring key is created on [Object.prototype] if it is
    not there yet. *)
Definition groupOnPrototype (heap : Heap) (acc : Grouped) (ringKey : string)
           (t : RadarTechnology) : Outcome (Grouped * Heap) :=
  if prototypeBuiltin ringKey then TypeError heap
  else
    let techs :=
      match JsObject.get (prototypeProperties heap) ringKey with
      | Some techs => techs
      | None => []
      end in
    Returns (acc,
             mkHeap (JsObject.set (prototypeProperties heap) ringKey (techs ++ [t]))
                    (objectProperties heap)).

(** [acc[quadrantKey]] is the function [Object] (category [constructor]). *)
Definition groupOnObject (heap : Heap) (acc : Grouped) (ringKey : string)
           (t : RadarTechnology) : Outcome (Grouped * Heap) :=
  match JsObject.get (objectProperties heap) ringKey with
  | Some techs =>
      Returns (acc,
               mkHeap (prototypeProperties heap)
                      (JsObject.set (objectProperties heap) ringKey (techs ++ [t])))
  | None =>
      if objectBuiltin ringKey then TypeError heap
      else
        match JsObject.get (prototypeProperties heap) ringKey with
        | Some techs =>
            Returns (acc,
                     mkHeap (JsObject.set (prototypeProperties heap) ringKey (techs ++ [t]))
                            (objectProperties heap))
        | None =>
            Returns (acc,
                     mkHeap (prototypeProperties heap)
                            (JsObject.set (objectProperties heap) ringKey [t]))
        end
  end.

(** One round of the grouping [reduce]: [acc[quadrantKey]] is an own
    property of [acc], or [Object.prototype], or the function [Object], or
    an array left on [Object.prototype], or missing (then it is created). *)
Definition groupOne (heap : Heap) (acc : Grouped) (t : RadarTechnology)
  : Outcome (Grouped * Heap) :=
  let quadrantKey := quadrantKeyOf t in
  let ringKey := ringKeyOf t in
  match JsObject.get acc quadrantKey with
  | Some rings => groupInto heap acc quadrantKey rings ringKey t
  | None =>
      if String.eqb quadrantKey "__proto__" then groupOnPrototype heap acc ringKey t
      else if String.eqb quadrantKey "constructor" then groupOnObject heap acc ringKey t
      else
        match JsObject.get (prototypeProperties heap) quadrantKey with
        | Some _ => Untracked
        | None => groupInto heap acc quadrantKey [] ringKey t
        end
  end.

Fixpoint group (heap : Heap) (acc : Grouped) (technologies : list RadarTechnology)
  : Outcome (Grouped * Heap) :=
  match technologies with
  | [] => Returns (acc, heap)
  | t :: rest =>
      match groupOne heap acc t with
      | Returns (acc', heap') => group heap' acc' rest
      | TypeError heap' => TypeError heap'
      | Untracked => Untracked
      end
  end.

(** A positioned technology: [...tech] is the field [tech], and
    [x: position.x, y: position.y] the field [position]. *)
Record TechnologyPosition := mkTechnologyPosition {
  tech : RadarTechnology;
  id : nat;
  position : Position
}.

(** The mutable state of [calculateTechnologyPositions]: the positions of
    [allPositioned] (only [x] and [y] of its entries are ever read),
    [positionedTechnologies], [idCounter], and the number of draws
    consumed from [Math.random]. *)
Record State := mkState {
  allPositioned : list Position;
  positionedTechnologies : list TechnologyPosition;
  idCounter : nat;
  draws : nat
}.

(** [techs.forEach((tech, index) => ...)] *)
Fixpoint placeTechs (ringConfig : RingConfig) (quadrantConfig : QuadrantConfig)
         (positions : list Position) (techs : list RadarTechnology)
         (index : nat) (st : State) : State :=
  match techs with
  | [] => st
  | t :: rest =>
      let position :=
        match nth_error positions index with
        | Some p => p
        | None => findEmergencyPosition ringConfig quadrantConfig (allPositioned st)
        end in
      placeTechs ringConfig quadrantConfig positions rest (S index)
        (mkState (allPositioned st ++ [position])
                 (positionedTechnologies st
                    ++ [mkTechnologyPosition t (idCounter st) position])
                 (S (idCounter st))
                 (draws st))
  end.

(** The body of the inner [forEach] over [Object.entries(rings)], for a
    key that [quadrantMap] owns or that no object answers; a key answered
    by [Object.prototype] is the case [groupReadsHeap] below, which
    [calculateTechnologyPositions] tests before it uses this body. *)
Definition placeGroup (config : RadarConfig) (rand : Random) (quadrantKey : string)
           (st : State) (entry : string * list RadarTechnology) : State :=
  let (ringKey, techs) := entry in
  match JsArray.find
          (fun r => String.eqb (JsString.toLowerCase (ring_name r)) ringKey) config
  with
  | None => st
  | Some (_, ringConfig) =>
      match JsObject.get quadrantMap quadrantKey with
      | None => st
      | Some quadrantConfig =>
          let techsInRing := List.length techs in
          let (positions, k') :=
            generateGridPositions ringConfig quadrantConfig techsInRing
                                  (allPositioned st) rand (draws st) in
          placeTechs ringConfig quadrantConfig positions techs 0
            (mkState (allPositioned st) (positionedTechnologies st)
                     (idCounter st) k')
      end
  end.

(** The body of the outer [forEach] over [Object.entries(grouped)]. *)
Definition placeQuadrant (config : RadarConfig) (rand : Random) (st : State)
           (entry : string * JsObject.Obj (list RadarTechnology)) : State :=
  let (quadrantKey, rings) := entry in
  fold_left (placeGroup config rand quadrantKey) (JsObject.entries rings) st.

(** [quadrantMap[quadrantKey]] for a group whose ring is found reads
    through the prototype chain: when [quadrantMap] does not own the key
    and [Object.prototype] answers it, the sector configuration is an
    object without [startAngle] and [endAngle], and the group is laid out
    with [NaN] coordinates.  [placeGroup] above covers the own and the
    missing key; this test tells when the inherited one occurs. *)
Definition groupReadsHeap (config : RadarConfig) (heap : Heap) (quadrantKey : string)
           (entry : string * list RadarTechnology) : bool :=
  match JsArray.find
          (fun r => String.eqb (JsString.toLowerCase (ring_name r)) (fst entry)) config
  with
  | None => false
  | Some _ =>
      match JsObject.get quadrantMap quadrantKey with
      | Some _ => false
      | None =>
          prototypeBuiltin quadrantKey
          || match JsObject.get (prototypeProperties heap) quadrantKey with
             | Some _ => true
             | None => false
             end
      end
  end.

Definition layoutReadsHeap (config : RadarConfig) (heap : Heap) (grouped : Grouped)
  : bool :=
  existsb (fun e => existsb (groupReadsHeap config heap (fst e))
                            (JsObject.entries (snd e)))
          (JsObject.entries grouped).

(** [calculateTechnologyPositions(technologies, config)], started on a
    heap, with the draws of [Math.random] starting at [rand k]; it returns
    the positioned technologies, the next unused draw and the heap it
    leaves. *)
Definition calculateTechnologyPositions (technologies : list RadarTechnology)
           (config : RadarConfig) (heap : Heap) (rand : Random) (k : nat)
  : Outcome (list TechnologyPosition * nat * Heap) :=
  match group heap [] technologies with
  | Returns (grouped, heap') =>
      if layoutReadsHeap config heap' grouped then Untracked
      else
        let st := fold_left (placeQuadrant config rand) (JsObject.entries grouped)
                            (mkState [] [] 1 k) in
        Returns (positionedTechnologies st, draws st, heap')
  | TypeError heap' => TypeError heap'
  | Untracked => Untracked
  end.

End Grid.

(** ** The collision resolver in the words of the specification *)

Module SpecResolver.

(** The minimum Euclidean distance from a candidate to the siblings
    already placed, [Infinity] when there is none. *)
Definition minimumDistance (p : Position) (siblings : list Position) : Dist :=
  match map (fun s => sqrt ((x p - x s) ^ 2 + (y p - y s) ^ 2)) siblings with
  | [] => Infinity
  | d :: ds => Finite (fold_left Rmin ds d)
  end.

(** Steps 1 to 3 of the resolver: attempts run from [0] to
    [maxAttempts - 1]; a candidate whose minimum distance reaches
    [minDistance] is accepted at once; otherwise the candidate with the
    largest minimum distance seen so far is kept and returned at the end. *)
Fixpoint place_from (candidate : nat -> Position) (siblings : list Position)
         (minDistance : R) (remaining attempt : nat)
         (best : option (Position * Dist)) : option Position :=
  match remaining with
  | O => option_map fst best
  | S remaining' =>
      let p := candidate attempt in
      let m := minimumDistance p siblings in
      if dist_ge m minDistance then Some p
      else
        let best' :=
          match best with
          | None => Some (p, m)
          | Some (_, bm) => if dist_gt m bm then Some (p, m) else best
          end in
        place_from candidate siblings minDistance remaining' (S attempt) best'
  end.

Definition place (candidate : nat -> Position) (siblings : list Position)
           (minDistance : R) (maxAttempts : nat) : option Position :=
  place_from candidate siblings minDistance maxAttempts 0 None.

End SpecResolver.

(** ** The groups of the [Grid] layout *)

(** The key of the group of a technology. *)
Definition groupKey (t : RadarTechnology) : string * string :=
  (Grid.quadrantKeyOf t, Grid.ringKeyOf t).

Definition hasKey (key : string * string) (t : RadarTechnology) : bool :=
  String.eqb (Grid.quadrantKeyOf t) (fst key) && String.eqb (Grid.ringKeyOf t) (snd key).

(** A group is laid out when its ring is found in [config.rings] and its
    quadrant in [quadrantMap]; the other groups are skipped by [return]. *)
Definition resolvable (config : Grid.RadarConfig) (key : string * string) : bool :=
  match JsArray.find
          (fun r => String.eqb (JsString.toLowerCase (Grid.ring_name r)) (snd key))
          config,
        JsObject.get Grid.quadrantMap (fst key) with
  | Some _, Some _ => true
  | _, _ => false
  end.

(** A key that nothing answers through the prototype chain of a plain
    object: it is no built-in name of [Object.prototype] and no name that
    a call left there. *)
Definition plain_key (heap : Grid.Heap) (k : string) : Prop :=
  Grid.prototypeBuiltin k = false
  /\ JsObject.get (Grid.prototypeProperties heap) k = None.

(** Both keys of a technology are plain. *)
Definition plain_keys (heap : Grid.Heap) (t : RadarTechnology) : Prop :=
  plain_key heap (Grid.quadrantKeyOf t) /\ plain_key heap (Grid.ringKeyOf t).

(** The model follows the run to its end. *)
Definition followed {A : Type} (o : Grid.Outcome A) : Prop := o <> Grid.Untracked.

(** The groups in the order in which the two nested [forEach] visit them. *)
Definition visitedGroups (grouped : Grid.Grouped)
  : list ((string * string) * list RadarTechnology) :=
  flat_map (fun e => map (fun e' => ((fst e, fst e'), snd e'))
                         (JsObject.entries (snd e)))
           (JsObject.entries grouped).

(** The technologies stored under a group key, [[]] when the key is absent. *)
Definition lookup2 (acc : Grid.Grouped) (key : string * string)
  : list RadarTechnology :=
  match JsObject.get acc (fst key) with
  | Some rings =>
      match JsObject.get rings (snd key) with
      | Some techs => techs
      | None => []
      end
  | None => []
  end.

(** What the grouping [reduce] maintains after the technologies [done]. *)
Record GroupInv (acc : Grid.Grouped) (done : list RadarTechnology) : Prop := {
  inv_keys : NoDup (map fst acc);
  inv_ring_keys :
    forall qk rings, JsObject.get acc qk = Some rings -> NoDup (map fst rings);
  inv_lookup : forall key, lookup2 acc key = filter (hasKey key) done;
  inv_nonempty :
    forall qk rings rk techs,
      JsObject.get acc qk = Some rings -> JsObject.get rings rk = Some techs ->
      techs <> []
}.

(** ** Sectors and bands *)

(** The point [p] lies at an angle between [startAngle] and [endAngle] and
    at a radius between [inner] and [outer] around [(center, center)]. *)
Definition in_sector_band (center startAngle endAngle inner outer : R)
           (p : Position) : Prop :=
  exists radius angle,
    inner <= radius <= outer /\ startAngle <= angle <= endAngle
    /\ x p = center + radius * cos angle /\ y p = center + radius * sin angle.

(** The same with all four bounds strict: the point is on no boundary. *)
Definition strictly_in_sector_band (center startAngle endAngle inner outer : R)
           (p : Position) : Prop :=
  exists radius angle,
    inner < radius < outer /\ startAngle < angle < endAngle
    /\ x p = center + radius * cos angle /\ y p = center + radius * sin angle.

(** The inner circle of the band of a ring of [V8]: the centre for the
    first ring, the previous ring otherwise. *)
Definition v8_bandInner (ringIndex : nat) : R :=
  match ringIndex with
  | O => 0
  | S i => V8.radius (nth i V8.rings (V8.mkRing "" "" 0))
  end.

(** An entry of the output of [tech-radar.tsx] carries the position that
    [calculatePosition] returned for its item at some index of some array. *)
Definition techradar_placed (o : TechRadar.RadarItem) : Prop :=
  exists allItems itemIndex,
    (itemIndex < List.length allItems)%nat
    /\ TechRadar.position o
       = TechRadar.calculatePosition (TechRadar.item o) allItems itemIndex.

(** ** Notions used in the statements *)

(** The classification triple on which the [V8] layout depends. *)
Definition key3 (t : RadarTechnology) : string * string * string :=
  (name t, quadrant t, ring t).

(** Two entries for the same technology. *)
Definition dup_rust_1 : RadarTechnology :=
  mkTech "Rust" "systems language" "Tools" "Adopt" 9 "fast" "https://a.example".
Definition dup_rust_2 : RadarTechnology :=
  mkTech "Rust" "second entry" "Tools" "Adopt" 3 "duplicate" "https://b.example".

(** An item whose category is spelled like a property every object inherits. *)
Definition constructor_item : RadarTechnology :=
  mkTech "Rust" "a language" "constructor" "adopt" 8 "memory safety"
         "https://example.org/rust".

(** No sibling is closer than [minDistance] to the candidate of a round. *)
Definition clear_of_siblings (candidate : nat -> Position)
           (existingPositions : list Position) (minDistance : R) (attempt : nat) : Prop :=
  forall e, In e existingPositions ->
            minDistance <= TechRadar.distance (x (candidate attempt))
                                              (y (candidate attempt)) e.

(** Some sibling is closer than [minDistance] to the candidate of a round. *)
Definition hits_sibling (candidate : nat -> Position)
           (existingPositions : list Position) (minDistance : R) (attempt : nat) : Prop :=
  exists e, In e existingPositions
            /\ TechRadar.distance (x (candidate attempt)) (y (candidate attempt)) e
               < minDistance.

(** From draw [k] of one run and draw [k'] of the other on, both runs
    receive the same values. *)
Definition same_draws (rand rand' : Grid.Random) (k k' : nat) : Prop :=
  forall j, rand (k + j)%nat = rand' (k' + j)%nat.

(** Two states of [calculateTechnologyPositions] that differ at most in the
    number of draws consumed. *)
Definition same_layout (st st' : Grid.State) : Prop :=
  Grid.allPositioned st = Grid.allPositioned st'
  /\ Grid.positionedTechnologies st = Grid.positionedTechnologies st'
  /\ Grid.idCounter st = Grid.idCounter st'.

(** Both runs have consumed the same number of draws since [k] and [k']. *)
Definition same_progress (k k' : nat) (st st' : Grid.State) : Prop :=
  exists d, Grid.draws st = (k + d)%nat /\ Grid.draws st' = (k' + d)%nat.

(** ** Concrete inputs used in the properties below *)

(** The point at a given angle and radius around a centre. *)
Definition polar_point (center angle radius : R) : Position :=
  mkPosition (center + radius * cos angle) (center + radius * sin angle).

(** A crowded band: one sibling sits at the centre [(300, 300)] and every
    candidate lies on the ray of angle 0, the first at radius 20, all the
    re-seeded ones at radius 1. *)
Definition crowded_sibling : Seeded.TechnologyPosition :=
  Seeded.mkTechnologyPosition
    (mkTech "Go" "a language" "Tools" "Adopt" 7 "simple" "https://example.org/go")
    1 (JsNum.Fin 300) (JsNum.Fin 300).

Definition crowded_radius (k : nat) : R :=
  match k with
  | O => 20
  | S _ => 1
  end.

Definition crowded_first : Seeded.Polar :=
  (JsNum.Fin 0, JsNum.Fin (crowded_radius 0)).

Definition crowded_adjusted (attempts : nat) : Seeded.Polar :=
  (JsNum.Fin 0, JsNum.Fin (crowded_radius (S attempts))).

Definition crowded_positions (k : nat) : Position :=
  polar_point 300 0 (crowded_radius k).

(** Some positioned item other than the one being placed is closer than
    [minDistance] to the point of a polar candidate. *)
Definition seeded_hits (techName : string) (minDistance : JsNum.num)
           (items : list Seeded.TechnologyPosition) (center : JsNum.num)
           (p : Seeded.Polar) : Prop :=
  exists otherTech,
    In otherTech items
    /\ name (Seeded.tech otherTech) <> techName
    /\ JsNum.ltb (Seeded.distanceTo (Seeded.toX center p) (Seeded.toY center p) otherTech)
                 minDistance = true.

(** The candidates the [Seeded] loop meets, in order: the first one, then
    the re-seeded ones. *)
Definition seeded_candidates (first : Seeded.Polar) (adjusted : nat -> Seeded.Polar)
           (k : nat) : Seeded.Polar :=
  match k with
  | O => first
  | S j => adjusted j
  end.

(** Four technologies in two resolvable groups and one unknown category. *)
Definition tech_react : RadarTechnology :=
  mkTech "React" "UI library" "Tools" "Adopt" 9 "mature" "https://example.org/react".
Definition tech_kubernetes : RadarTechnology :=
  mkTech "Kubernetes" "orchestrator" "Platforms" "Adopt" 8 "standard"
         "https://example.org/k8s".
Definition tech_mystery : RadarTechnology :=
  mkTech "Mystery" "unclassified" "unknown-xyz" "Adopt" 1 "none"
         "https://example.org/mystery".
Definition tech_docker : RadarTechnology :=
  mkTech "Docker" "containers" "Tools" "Adopt" 9 "ubiquitous"
         "https://example.org/docker".

Definition interleaved_input : list RadarTechnology :=
  [tech_react; tech_kubernetes; tech_mystery; tech_docker].

Definition interleaved_grouped : Grid.Grouped :=
  [ ("tools", [("adopt", [tech_react; tech_docker])]);
    ("platforms", [("adopt", [tech_kubernetes])]);
    ("unknown-xyz", [("adopt", [tech_mystery])]) ]%string.

Definition four_rings : Grid.RadarConfig :=
  [ Grid.mkRingConfig "Adopt" 120; Grid.mkRingConfig "Trial" 180;
    Grid.mkRingConfig "Assess" 240; Grid.mkRingConfig "Hold" 300 ].

(** A run of [Math.random] that always returns one half. *)
Definition constant_half : Grid.Random := fun _ => 0.5.

(** Two technologies of the same category and level. *)
Definition tech_aws : RadarTechnology :=
  mkTech "AWS" "cloud" "Platforms" "Adopt" 8 "broad" "https://example.org/aws".

Definition two_platforms : list RadarTechnology := [tech_kubernetes; tech_aws].

(** A run of [Math.random] whose first 80 draws are one half and whose later
    draws are three quarters: the first layout of [two_platforms] consumes
    exactly the first 80 draws. *)
Definition two_phase_draws : Grid.Random :=
  fun k => if (k <? 80)%nat then 0.5 else 0.75.

(** The point of the [Grid] samplers at a given angle and radius. *)
Definition grid_point (angle radius : R) : Position :=
  mkPosition (cos angle * radius) (sin angle * radius).

Definition adopt_ring : Grid.RingConfig := Grid.mkRingConfig "Adopt" 120.
Definition platforms_sector : Grid.QuadrantConfig :=
  Grid.mkQuadrantConfig 0.15 (PI / 2 - 0.15) 2.

(** The angle sampled for the second of two items of [platforms_sector]
    when [Math.random] returns [draw]. *)
Definition second_angle (draw : R) : R :=
  0.15 + 1 / 2 * (PI / 2 - 0.15 - 0.15)
  + (draw - 0.5) * ((PI / 2 - 0.15 - 0.15) / 6) * 0.8.

(** The layout of [two_platforms] when every draw consumed is [draw]. *)
Definition two_platforms_layout (draw : R) : list Grid.TechnologyPosition :=
  [ Grid.mkTechnologyPosition tech_kubernetes 1 (grid_point (0.15 + 0.1) 90);
    Grid.mkTechnologyPosition tech_aws 2 (grid_point (second_angle draw) 90) ].

(** A first item whose name hashes below one sixth. *)
Definition vue_item : RadarTechnology :=
  mkTech "Vue" "UI framework" "Tools" "ADOPT" 8 "approachable"
         "https://example.org/vue".

Definition tools_quadrant : TechRadar.Quadrant :=
  TechRadar.mkQuadrant "Tools" "tools" 270 360.
Definition adopt_band : TechRadar.Ring := TechRadar.mkRing "ADOPT" 60.

(** An item whose level is spelled like a property every object inherits. *)
Definition constructor_ring_item : RadarTechnology :=
  mkTech "Zig" "a language" "Tools" "Constructor" 5 "young" "https://example.org/zig".

(** ** Notions used for [tech-radar.tsx] *)

(** The positions of the entries of [earlier] that have the ring and the
    quadrant of [t]: what [calculatePosition] collects in
    [existingPositions] when [earlier] are the items before [t]. *)
Definition techradar_siblings (t : RadarTechnology)
           (earlier : list TechRadar.RadarItem) : list Position :=
  map TechRadar.position
      (filter (fun existing =>
                 String.eqb (ring (TechRadar.item existing)) (ring t)
                 && String.eqb (quadrant (TechRadar.item existing)) (quadrant t))
              earlier).

(** [minDistanceToExisting] after the scan of the candidate of a round. *)
Definition techradar_scanned (candidate : nat -> Position)
           (existingPositions : list Position) (minDistance : R) (attempt : nat) : R :=
  snd (TechRadar.scan minDistance existingPositions
                      (x (candidate attempt)) (y (candidate attempt))
                      TechRadar.MAX_VALUE).

(** A second item of the category and level of [vue_item]. *)
Definition svelte_item : RadarTechnology :=
  mkTech "Svelte" "UI compiler" "Tools" "ADOPT" 7 "lean" "https://example.org/svelte".

(** The items "Vue" and "Svelte", both of category Tools and level ADOPT. *)
Definition vue_and_svelte : list RadarTechnology := [vue_item; svelte_item].

(** The entry of index [i] of the output of [tech-radar.tsx] on
    [vue_and_svelte]. *)
Definition vue_and_svelte_out (i : nat) : TechRadar.RadarItem :=
  nth i (TechRadar.processedData vue_and_svelte)
      (TechRadar.mkRadarItem vue_item (mkPosition 0 0) 0).

(** A sampler that always returns the origin, and a sibling placed there. *)
Definition origin_candidate : nat -> Position := fun _ => mkPosition 0 0.
Definition origin_sibling : list Position := [mkPosition 0 0].

(** ** Levels left on [Object.prototype] *)

(** The level key of the technology names a property of the heap's
    [Object.prototype]: [rings[ringKey]] then finds that array on every
    ring map that does not own the key. *)
Definition level_hidden (heap : Grid.Heap) (t : RadarTechnology) : bool :=
  match JsObject.get (Grid.prototypeProperties heap) (Grid.ringKeyOf t) with
  | Some _ => true
  | None => false
  end.

(** The technologies whose level is not hidden. *)
Definition visible (heap : Grid.Heap) (technologies : list RadarTechnology)
  : list RadarTechnology :=
  filter (fun t => negb (level_hidden heap t)) technologies.

(** Both heaps have the same property names on [Object.prototype]. *)
Definition same_prototype_names (heap heap' : Grid.Heap) : Prop :=
  forall k, JsObject.get (Grid.prototypeProperties heap) k = None
            <-> JsObject.get (Grid.prototypeProperties heap') k = None.

(** The technologies of level key [r], as [push] appends them. *)
Definition pushed_on (r : string) (technologies : list RadarTechnology)
  : list RadarTechnology :=
  filter (fun t => String.eqb (Grid.ringKeyOf t) r) technologies.

(** [heap'] is [heap] after the technologies were pushed on the arrays of
    [Object.prototype] that their level keys name. *)
Definition prototype_extended (heap heap' : Grid.Heap)
           (technologies : list RadarTechnology) : Prop :=
  Grid.objectProperties heap' = Grid.objectProperties heap
  /\ forall r,
      JsObject.get (Grid.prototypeProperties heap') r
      = match JsObject.get (Grid.prototypeProperties heap) r with
        | Some techs => Some (techs ++ pushed_on r technologies)
        | None => None
        end.

(** An item of category [__proto__]. *)
Definition proto_item : RadarTechnology :=
  mkTech "Ghost" "not a technology" "__proto__" "Adopt" 1 "none"
         "https://example.org/ghost".

(** A heap on which an earlier call left the level [adopt]. *)
Definition adopt_left_behind : Grid.Heap :=
  Grid.mkHeap [("adopt"%string, [proto_item])] [].

(** The ids handed out so far are 1, 2, ... in output order. *)
Definition grid_ids_consecutive (st : Grid.State) : Prop :=
  map Grid.id (Grid.positionedTechnologies st)
  = seq 1 (List.length (Grid.positionedTechnologies st))
  /\ Grid.idCounter st = S (List.length (Grid.positionedTechnologies st)).

(** ** Notions used for the category keys *)

(** The number of ampersands of a string. *)
Definition ampersands (s : string) : nat :=
  count_occ ascii_dec (JsString.split s) "&"%char.

(** The number of white-space code units of a string. *)
Definition spaces (s : string) : nat :=
  List.length (filter JsString.is_space (JsString.split s)).

(** * Properties *)

Lemma seededRandom_range (seed : R) : 0 <= seededRandom seed < 1.
Proof.
  unfold seededRandom, floor.
  destruct (base_fp (sin seed * 10000)) as [H0 H1].
  unfold frac_part in H0, H1. lra.
Qed.

Lemma fold_add_shift (l : list ascii) (a : nat) :
  fold_left (fun acc char => (acc + JsString.charCodeAt char)%nat) l a
  = (a + fold_left (fun acc char => (acc + JsString.charCodeAt char)%nat) l 0)%nat.
Proof.
  revert a. induction l as [|c l IH]; intros a; simpl.
  - lia.
  - rewrite IH. rewrite (IH (JsString.charCodeAt c)). lia.
Qed.

Lemma fold_add_perm (l l' : list ascii) :
  Permutation l l' ->
  forall a,
    fold_left (fun acc char => (acc + JsString.charCodeAt char)%nat) l a
    = fold_left (fun acc char => (acc + JsString.charCodeAt char)%nat) l' a.
Proof.
  induction 1 as [|c l l' _ IH|c d l|l l' l'' _ IH1 _ IH2]; intros a; simpl.
  - reflexivity.
  - apply IH.
  - f_equal. lia.
  - rewrite IH1. apply IH2.
Qed.

(** C8. The seed is the sum of the character codes of the name, so it does
    not depend on the order of the characters: whenever the code units of
    [s'] are a permutation of those of [s], both names have the same seed. *)
Theorem generateSeed_permutation (s s' : string) :
  Permutation (JsString.split s) (JsString.split s') ->
  generateSeed s = generateSeed s'.
Proof.
  intros HP. unfold generateSeed. now apply fold_add_perm.
Qed.

Lemma generateSeed_permutation_witness :
  Permutation (JsString.split "Go") (JsString.split "oG")
  /\ generateSeed "Go" = generateSeed "oG".
Proof.
  assert (HP : Permutation (JsString.split "Go") (JsString.split "oG"))
    by (simpl; apply perm_swap).
  split; [exact HP | exact (generateSeed_permutation "Go" "oG" HP)].
Defined.

(** ** Array helpers *)

Lemma map_from_length {A B} (f : A -> nat -> B) (arr : list A) (i : nat) :
  List.length (JsArray.map_from f arr i) = List.length arr.
Proof.
  revert i. induction arr as [|a arr IH]; intros i; simpl; [reflexivity|].
  now rewrite IH.
Qed.

Lemma map_from_map {A B C} (g : B -> C) (f : A -> nat -> B) (arr : list A) (i : nat) :
  map g (JsArray.map_from f arr i) = JsArray.map_from (fun a k => g (f a k)) arr i.
Proof.
  revert i. induction arr as [|a arr IH]; intros i; simpl; [reflexivity|].
  now rewrite IH.
Qed.

Lemma map_from_noindex {A B} (h : A -> B) (arr : list A) (i : nat) :
  JsArray.map_from (fun a _ => h a) arr i = map h arr.
Proof.
  revert i. induction arr as [|a arr IH]; intros i; simpl; [reflexivity|].
  now rewrite IH.
Qed.

Lemma map_from_In {A B} (f : A -> nat -> B) (arr : list A) (i : nat) (b : B) :
  In b (JsArray.map_from f arr i) -> exists a k, In a arr /\ b = f a k.
Proof.
  revert i. induction arr as [|a arr IH]; intros i; simpl; [tauto|].
  intros [<-|Hin].
  - exists a, i. auto.
  - destruct (IH _ Hin) as (a' & k & Ha & ->). exists a', k. auto.
Qed.

Lemma find_from_names {A B} (na : A -> string) (nb : B -> string) (s : string)
      (l1 : list A) (l2 : list B) (i : nat) :
  map na l1 = map nb l2 ->
  option_map fst (JsArray.find_from (fun a => String.eqb (na a) s) l1 i)
  = option_map fst (JsArray.find_from (fun b => String.eqb (nb b) s) l2 i).
Proof.
  revert l2 i. induction l1 as [|a l1 IH]; intros [|b l2] i Hm; simpl in *;
    try discriminate; [reflexivity|].
  injection Hm as Hab Hm. rewrite Hab.
  destruct (String.eqb (nb b) s); [reflexivity|]. now apply IH.
Qed.

Lemma findIndex_names {A B} (na : A -> string) (nb : B -> string) (s : string)
      (l1 : list A) (l2 : list B) :
  map na l1 = map nb l2 ->
  JsArray.findIndex (fun a => String.eqb (na a) s) l1
  = JsArray.findIndex (fun b => String.eqb (nb b) s) l2.
Proof.
  intros Hm. unfold JsArray.findIndex, JsArray.find.
  pose proof (find_from_names na nb s l1 l2 0 Hm) as H.
  destruct (JsArray.find_from _ l1 0) as [[i a]|],
           (JsArray.find_from _ l2 0) as [[j b]|]; simpl in H;
    try discriminate; [|reflexivity].
  now injection H as ->.
Qed.

(** ** Variant [V8] *)


Lemma key3_inv (a b : RadarTechnology) :
  key3 a = key3 b -> name a = name b /\ quadrant a = quadrant b /\ ring a = ring b.
Proof. unfold key3. intros H. injection H as H1 H2 H3. auto. Qed.

Lemma v8_sameRingQuadrant_names (a b : RadarTechnology) (d1 d2 : list RadarTechnology) :
  quadrant a = quadrant b -> ring a = ring b -> map key3 d1 = map key3 d2 ->
  map name (V8.sameRingQuadrant a d1) = map name (V8.sameRingQuadrant b d2).
Proof.
  intros Hq Hr. unfold V8.sameRingQuadrant. rewrite Hq, Hr.
  revert d2. induction d1 as [|u d1 IH]; intros [|v d2] Hm; simpl in *;
    try discriminate; [reflexivity|].
  injection Hm as Hn Hq' Hr' Hm. rewrite Hq', Hr'.
  destruct (String.eqb (ring v) (ring b) && String.eqb (quadrant v) (quadrant b));
    simpl; [rewrite Hn; f_equal|]; now apply IH.
Qed.

Lemma v8_calculatePosition_ext (a b : RadarTechnology) (g1 g2 : list RadarTechnology) :
  key3 a = key3 b -> map name g1 = map name g2 ->
  V8.calculatePosition a g1 = V8.calculatePosition b g2.
Proof.
  intros Hk Hg. destruct (key3_inv _ _ Hk) as (Hn & Hq & Hr).
  unfold V8.calculatePosition, V8.findQuadrant, V8.findRing, V8.sample.
  rewrite Hn, Hq, Hr.
  rewrite (findIndex_names name name (name b) g1 g2 Hg).
  assert (Hlen : List.length g1 = List.length g2).
  { rewrite <- (length_map name g1), <- (length_map name g2). now rewrite Hg. }
  rewrite Hlen. reflexivity.
Qed.

Lemma v8_processedData_In (d : list RadarTechnology) (out : V8.RadarItem) :
  In out (V8.processedData d) ->
  In (V8.item out) d /\
  V8.position out = V8.calculatePosition (V8.item out) (V8.sameRingQuadrant (V8.item out) d).
Proof.
  unfold V8.processedData, JsArray.mapi. intros Hin.
  apply map_from_In in Hin. destruct Hin as (a & k & Ha & ->). simpl. auto.
Qed.

(** C10. In the seeded-jitter variant, two items of one input list with the
    same name, category and level have the same seed and the same index in
    their group (the index is looked up by name), and are therefore given
    the same coordinates. *)
Theorem v8_duplicate_names_collapse
        (radar_data : list RadarTechnology) (a b : V8.RadarItem) :
  In a (V8.processedData radar_data) ->
  In b (V8.processedData radar_data) ->
  name (V8.item a) = name (V8.item b) ->
  quadrant (V8.item a) = quadrant (V8.item b) ->
  ring (V8.item a) = ring (V8.item b) ->
  generateSeed (name (V8.item a)) = generateSeed (name (V8.item b))
  /\ JsArray.findIndex (fun i => String.eqb (name i) (name (V8.item a)))
                       (V8.sameRingQuadrant (V8.item a) radar_data)
     = JsArray.findIndex (fun i => String.eqb (name i) (name (V8.item b)))
                         (V8.sameRingQuadrant (V8.item b) radar_data)
  /\ V8.position a = V8.position b.
Proof.
  intros Ha Hb Hn Hq Hr.
  destruct (v8_processedData_In _ _ Ha) as [_ Hpa].
  destruct (v8_processedData_In _ _ Hb) as [_ Hpb].
  assert (Hg : V8.sameRingQuadrant (V8.item a) radar_data
               = V8.sameRingQuadrant (V8.item b) radar_data).
  { unfold V8.sameRingQuadrant. now rewrite Hq, Hr. }
  repeat split.
  - now rewrite Hn.
  - now rewrite Hg, Hn.
  - rewrite Hpa, Hpb, Hg. apply v8_calculatePosition_ext; [|reflexivity].
    unfold key3. now rewrite Hn, Hq, Hr.
Qed.


Lemma v8_duplicate_names_collapse_witness :
  V8.position (nth 0 (V8.processedData [dup_rust_1; dup_rust_2])
                   (V8.mkRadarItem dup_rust_1 (mkPosition 0 0) 0))
  = V8.position (nth 1 (V8.processedData [dup_rust_1; dup_rust_2])
                     (V8.mkRadarItem dup_rust_1 (mkPosition 0 0) 0)).
Proof.
  refine (proj2 (proj2 (v8_duplicate_names_collapse [dup_rust_1; dup_rust_2]
                          _ _ _ _ _ _ _))).
  - left; reflexivity.
  - right; left; reflexivity.
  - reflexivity.
  - reflexivity.
  - reflexivity.
Defined.

(** ** Termination of the loops *)

Section RetryTerminates.

Variable collides : Seeded.Polar -> bool.
Variable adjusted : nat -> Seeded.Polar.
Variable maxAttempts : nat.

Lemma retry_run (remaining : nat) :
  forall attempts final fuel rounds,
    (attempts + remaining = maxAttempts)%nat ->
    (remaining < fuel)%nat ->
    exists n, (n <= remaining)%nat /\
      While.run
        (fun st : nat * Seeded.Polar => Nat.ltb (fst st) maxAttempts)
        (fun st : nat * Seeded.Polar =>
           if collides (snd st)
           then While.Continue (S (fst st), adjusted (fst st))
           else While.Leave (snd st))
        (fun st : nat * Seeded.Polar => snd st)
        fuel (attempts, final) rounds
      = Some (Seeded.retry collides adjusted remaining attempts final,
              (rounds + n)%nat).
Proof.
  induction remaining as [|remaining IH]; intros attempts final fuel rounds Hsum Hfuel.
  - exists 0%nat. split; [lia|].
    destruct fuel as [|fuel]; [lia|]. simpl.
    replace (attempts <? maxAttempts)%nat with false
      by (symmetry; apply Nat.ltb_ge; lia).
    now rewrite Nat.add_0_r.
  - destruct fuel as [|fuel]; [lia|]. simpl.
    replace (attempts <? maxAttempts)%nat with true
      by (symmetry; apply Nat.ltb_lt; lia).
    destruct (collides final).
    + destruct (IH (S attempts) (adjusted attempts) fuel (S rounds)) as (n & Hn & Hrun);
        [lia|lia|].
      exists (S n). split; [lia|].
      rewrite Hrun. do 2 f_equal. lia.
    + exists 1%nat. split; [lia|]. do 2 f_equal. lia.
Qed.

End RetryTerminates.

Section PlaceTerminates.

Variable candidate : nat -> Position.
Variable existingPositions : list Position.
Variable minDistance : R.
Variable maxAttempts : nat.

Lemma place_run_body (body : nat * Position * R -> While.Control) (remaining : nat) :
  body = (fun st : nat * Position * R =>
            let attempts := fst (fst st) in
            let p := candidate attempts in
            let (hasCollision, minDistanceToExisting) :=
              TechRadar.scan minDistance existingPositions (x p) (y p)
                             TechRadar.MAX_VALUE in
            if negb hasCollision || Nat.eqb (List.length existingPositions) 0
            then While.Leave p
            else if Rlt_dec (snd st) minDistanceToExisting
                 then While.Continue (S attempts, p, minDistanceToExisting)
                 else While.Continue (S attempts, snd (fst st), snd st)) ->
  forall attempts bestPosition bestDistance fuel rounds,
    (attempts + remaining = maxAttempts)%nat ->
    (remaining < fuel)%nat ->
    exists n, (n <= remaining)%nat /\
      While.run
        (fun st : nat * Position * R => Nat.ltb (fst (fst st)) maxAttempts)
        body
        (fun st : nat * Position * R => snd (fst st))
        fuel (attempts, bestPosition, bestDistance) rounds
      = Some (TechRadar.place candidate existingPositions minDistance
                              remaining attempts bestPosition bestDistance,
              (rounds + n)%nat).
Proof.
  intros Hbody.
  induction remaining as [|remaining IH];
    intros attempts bestPosition bestDistance fuel rounds Hsum Hfuel.
  - exists 0%nat. split; [lia|].
    destruct fuel as [|fuel]; [lia|]. simpl.
    replace (attempts <? maxAttempts)%nat with false
      by (symmetry; apply Nat.ltb_ge; lia).
    now rewrite Nat.add_0_r.
  - destruct fuel as [|fuel]; [lia|]. simpl.
    replace (attempts <? maxAttempts)%nat with true
      by (symmetry; apply Nat.ltb_lt; lia).
    assert (Hstep :
              body (attempts, bestPosition, bestDistance)
              = let (hasCollision, m) :=
                  TechRadar.scan minDistance existingPositions
                    (x (candidate attempts)) (y (candidate attempts))
                    TechRadar.MAX_VALUE in
                if negb hasCollision || Nat.eqb (List.length existingPositions) 0
                then While.Leave (candidate attempts)
                else if Rlt_dec bestDistance m
                     then While.Continue (S attempts, candidate attempts, m)
                     else While.Continue (S attempts, bestPosition, bestDistance))
      by (rewrite Hbody; reflexivity).
    rewrite Hstep. clear Hstep.
    destruct (TechRadar.scan minDistance existingPositions
                (x (candidate attempts)) (y (candidate attempts))
                TechRadar.MAX_VALUE) as [hasCollision m].
    destruct (negb hasCollision || Nat.eqb (List.length existingPositions) 0).
    + exists 1%nat. split; [lia|]. do 2 f_equal. lia.
    + destruct (Rlt_dec bestDistance m) as [Hlt|Hnlt].
      * destruct (IH (S attempts) (candidate attempts) m fuel (S rounds))
          as (n & Hn & Hrun); [lia|lia|].
        exists (S n). split; [lia|]. rewrite Hrun. do 2 f_equal. lia.
      * destruct (IH (S attempts) bestPosition bestDistance fuel (S rounds))
          as (n & Hn & Hrun); [lia|lia|].
        exists (S n). split; [lia|]. rewrite Hrun. do 2 f_equal. lia.
Qed.

End PlaceTerminates.

Lemma iterate_run {A} (body : A -> A) (iterations : nat) (remaining : nat) :
  forall i a fuel rounds,
    (i + remaining = iterations)%nat ->
    (remaining < fuel)%nat ->
    While.run
      (fun st : nat * A => Nat.ltb (fst st) iterations)
      (fun st : nat * A => While.Continue (A := A) (S (fst st), body (snd st)))
      (fun st : nat * A => snd st)
      fuel (i, a) rounds
    = Some (Grid.iterate body remaining a, (rounds + remaining)%nat).
Proof.
  induction remaining as [|remaining IH]; intros i a fuel rounds Hsum Hfuel.
  - destruct fuel as [|fuel]; [lia|]. simpl.
    replace (i <? iterations)%nat with false by (symmetry; apply Nat.ltb_ge; lia).
    now rewrite Nat.add_0_r.
  - destruct fuel as [|fuel]; [lia|]. simpl.
    replace (i <? iterations)%nat with true by (symmetry; apply Nat.ltb_lt; lia).
    rewrite (IH (S i) (body a) fuel (S rounds)); [|lia|lia].
    do 2 f_equal. lia.
Qed.

(** C6. The retry loops and the relaxation passes, run as the [while] and
    [for] loops the source writes, halt for every input: given any number of
    rounds beyond the loop bound, the collision-retry loops of [Seeded] and
    [TechRadar] return after at most [bound] rounds, and a relaxation pass
    returns after exactly [bound] rounds; the results are those of the
    total functions used in the layout (with [bound] 10 and 50 for the
    retries, 50 and 30 for the relaxations). *)
Theorem loops_terminate (bound fuel : nat) :
  (bound < fuel)%nat ->
  (forall collides adjusted first,
      exists rounds, (rounds <= bound)%nat /\
        Seeded.retryWhile collides adjusted bound fuel first
        = Some (Seeded.retry collides adjusted bound 0 first, rounds))
  /\ (forall candidate existingPositions minDistance center,
         exists rounds, (rounds <= bound)%nat /\
           TechRadar.placeWhile candidate existingPositions minDistance bound center fuel
           = Some (TechRadar.resolve candidate existingPositions minDistance bound center,
                   rounds))
  /\ (forall (body : Position -> Position) (start : Position),
         Grid.iterateWhile body bound fuel start
         = Some (Grid.iterate body bound start, bound)).
Proof.
  intros Hfuel. repeat split.
  - intros collides adjusted first.
    destruct (retry_run collides adjusted bound bound 0%nat first fuel 0%nat)
      as (n & Hn & Hrun); [lia|lia|].
    exists n. split; [exact Hn|exact Hrun].
  - intros candidate existingPositions minDistance center.
    destruct (place_run_body candidate existingPositions minDistance bound _ bound
                             eq_refl 0%nat (mkPosition center center) 0 fuel 0%nat)
      as (n & Hn & Hrun); [lia|lia|].
    exists n. split; [exact Hn|exact Hrun].
  - intros body start.
    exact (iterate_run body bound bound 0%nat start fuel 0%nat eq_refl Hfuel).
Qed.

Lemma loops_terminate_witness :
  (10 < 11)%nat /\
  forall (body : Position -> Position) (start : Position),
    Grid.iterateWhile body 10 11 start = Some (Grid.iterate body 10 start, 10%nat).
Proof.
  split; [lia|].
  exact (proj2 (proj2 (loops_terminate 10 11 (Nat.lt_succ_diag_r 10)))).
Defined.

(** ** Items whose category or level does not resolve *)

(** [Seeded]: a key that is neither an own nor an inherited property name
    sends the item to the centre. *)
Lemma seeded_missing_key_centre (t : RadarTechnology)
      (items : list Seeded.TechnologyPosition) (center : JsNum.num) :
  Seeded.lookup Seeded.quadrantMap (JsString.normalizeKey (quadrant t)) = Seeded.Missing
  \/ Seeded.lookup Seeded.ringMap (JsString.toLowerCase (ring t)) = Seeded.Missing ->
  Seeded.calculateOptimizedPosition t items center = (center, center).
Proof.
  unfold Seeded.calculateOptimizedPosition. intros [H|H]; rewrite H; simpl.
  - reflexivity.
  - now destruct (Seeded.truthy _ _).
Qed.

(** [TechRadar]: an item whose quadrant or ring is not found goes to the
    centre. *)
Lemma techradar_unresolved_centre (t : RadarTechnology)
      (allItems : list TechRadar.RadarItem) (itemIndex : nat) :
  TechRadar.findQuadrant t = None \/ TechRadar.findRing t = None ->
  TechRadar.calculatePosition t allItems itemIndex
  = mkPosition TechRadar.center TechRadar.center.
Proof.
  unfold TechRadar.calculatePosition. intros [H|H]; rewrite H.
  - reflexivity.
  - now destruct (TechRadar.findQuadrant t) as [[? ?]|].
Qed.


(** C5 (evaluation at the failing input).  In [Seeded] the category
    ["constructor"] is not one of the four configured categories, yet the
    lookup [quadrantMap[quadrantKey]] finds the inherited property, the
    guard [!quadrantConfig] does not fire, and the item is given the
    coordinates [NaN], [NaN] instead of the centre [(300, 300)]. *)
Theorem seeded_inherited_key_not_centre :
  Seeded.own_lookup (JsString.normalizeKey (quadrant constructor_item))
                    Seeded.quadrantMap = None
  /\ Seeded.calculateTechnologyPositions [constructor_item]
     = [Seeded.mkTechnologyPosition constructor_item 1 JsNum.NaN JsNum.NaN].
Proof.
  split; reflexivity.
Qed.

(** ** The collision resolvers *)

Lemma seeded_retry_cases (collides : Seeded.Polar -> bool)
      (adjusted : nat -> Seeded.Polar) (remaining : nat) :
  forall attempts final,
    let c := seeded_candidates final (fun j => adjusted (attempts + j)%nat) in
    (exists k, (k < remaining)%nat
               /\ Seeded.retry collides adjusted remaining attempts final = c k
               /\ collides (c k) = false
               /\ forall j, (j < k)%nat -> collides (c j) = true)
    \/ ((forall k, (k < remaining)%nat -> collides (c k) = true)
        /\ Seeded.retry collides adjusted remaining attempts final = c remaining).
Proof.
  induction remaining as [|remaining IH]; intros attempts final c.
  - right. split; [intros k Hk; lia|reflexivity].
  - simpl. destruct (collides final) eqn:Hc.
    + destruct (IH (S attempts) (adjusted attempts))
        as [(k & Hk & Hres & Hfree & Hbefore)|[Hall Hres]].
      * left. exists (S k). split; [lia|].
        assert (Hck : forall j,
                   seeded_candidates (adjusted attempts)
                     (fun i => adjusted (S attempts + i)%nat) j = c (S j)).
        { intros [|j]; simpl; [now rewrite Nat.add_0_r|].
          f_equal. lia. }
        rewrite Hck in Hres, Hfree. repeat split; try assumption.
        intros [|j] Hj; [exact Hc|]. rewrite <- Hck. apply Hbefore. lia.
      * right.
        assert (Hck : forall j,
                   seeded_candidates (adjusted attempts)
                     (fun i => adjusted (S attempts + i)%nat) j = c (S j)).
        { intros [|j]; simpl; [now rewrite Nat.add_0_r|].
          f_equal. lia. }
        split.
        -- intros [|k] Hk; [exact Hc|]. rewrite <- Hck. apply Hall. lia.
        -- rewrite Hres. apply Hck.
    + left. exists 0%nat. repeat split; [lia|exact Hc|intros j Hj; lia].
Qed.

Lemma seeded_hasCollision_iff (techName : string) (minDistance : JsNum.num)
      (items : list Seeded.TechnologyPosition) (testX testY : JsNum.num) :
  Seeded.hasCollision techName minDistance items testX testY = true <->
  exists otherTech,
    In otherTech items
    /\ name (Seeded.tech otherTech) <> techName
    /\ JsNum.ltb (Seeded.distanceTo testX testY otherTech) minDistance = true.
Proof.
  unfold Seeded.hasCollision. rewrite existsb_exists. split.
  - intros (o & Hin & Hb). apply andb_true_iff in Hb as [Hn Hd].
    exists o. repeat split; try assumption.
    apply negb_true_iff in Hn. now apply String.eqb_neq in Hn.
  - intros (o & Hin & Hn & Hd). exists o. split; [exact Hin|].
    apply andb_true_iff. split; [|exact Hd].
    apply negb_true_iff. now apply String.eqb_neq.
Qed.

Lemma techradar_scan_true (minDistance : R) (existingPositions : list Position)
      (px py : R) :
  forall m,
    fst (TechRadar.scan minDistance existingPositions px py m) = true ->
    exists e, In e existingPositions /\ TechRadar.distance px py e < minDistance.
Proof.
  induction existingPositions as [|e rest IH]; intros m; simpl.
  - discriminate.
  - destruct (Rlt_dec (TechRadar.distance px py e) minDistance) as [Hlt|Hge].
    + intros _. exists e. auto.
    + intros H. destruct (IH _ H) as (e' & Hin & Hd). exists e'. auto.
Qed.

Lemma techradar_scan_false (minDistance : R) (existingPositions : list Position)
      (px py : R) :
  forall m,
    fst (TechRadar.scan minDistance existingPositions px py m) = false ->
    forall e, In e existingPositions -> minDistance <= TechRadar.distance px py e.
Proof.
  induction existingPositions as [|e rest IH]; intros m; simpl.
  - intros _ e [].
  - destruct (Rlt_dec (TechRadar.distance px py e) minDistance) as [Hlt|Hge].
    + discriminate.
    + intros H e' [<-|Hin]; [lra|]. now apply (IH _ H).
Qed.

Section TechRadarPlace.

Variable candidate : nat -> Position.
Variable existingPositions : list Position.
Variable minDistance : R.


Lemma techradar_place_cases (remaining : nat) :
  forall attempts bestPosition bestDistance,
    let p := TechRadar.place candidate existingPositions minDistance
                             remaining attempts bestPosition bestDistance in
    (exists k, (k < remaining)%nat
               /\ p = candidate (attempts + k)%nat
               /\ clear_of_siblings candidate existingPositions minDistance (attempts + k)%nat
               /\ forall j, (j < k)%nat -> hits_sibling candidate existingPositions minDistance (attempts + j)%nat)
    \/ ((forall k, (k < remaining)%nat -> hits_sibling candidate existingPositions minDistance (attempts + k)%nat)
        /\ (p = bestPosition
            \/ exists k, (k < remaining)%nat /\ p = candidate (attempts + k)%nat)).
Proof.
  induction remaining as [|remaining IH]; intros attempts bestPosition bestDistance p.
  - right. split; [intros k Hk; lia|left; reflexivity].
  - subst p. simpl.
    destruct (TechRadar.scan minDistance existingPositions
                (x (candidate attempts)) (y (candidate attempts))
                TechRadar.MAX_VALUE) as [hasCollision m] eqn:Hscan.
    destruct (negb hasCollision || Nat.eqb (List.length existingPositions) 0) eqn:Hacc.
    + left. exists 0%nat. rewrite Nat.add_0_r. repeat split; [lia| |intros j Hj; lia].
      apply orb_true_iff in Hacc as [Hno|Hempty].
      * apply negb_true_iff in Hno. subst hasCollision.
        intros e He.
        apply (techradar_scan_false minDistance existingPositions _ _
                                    TechRadar.MAX_VALUE); [now rewrite Hscan|exact He].
      * apply Nat.eqb_eq in Hempty. apply length_zero_iff_nil in Hempty.
        intros e He. rewrite Hempty in He. destruct He.
    + apply orb_false_iff in Hacc as [Hcol _].
      apply negb_false_iff in Hcol. subst hasCollision.
      assert (Hhit : hits_sibling candidate existingPositions minDistance attempts).
      { apply (techradar_scan_true minDistance existingPositions _ _
                                   TechRadar.MAX_VALUE). now rewrite Hscan. }
      assert (Hshift : forall k, (S attempts + k = attempts + S k)%nat) by (intros; lia).
      destruct (Rlt_dec bestDistance m) as [Hlt|Hnlt].
      * destruct (IH (S attempts) (candidate attempts) m)
          as [(k & Hk & Hres & Hfree & Hbefore)|[Hall Hres]].
        -- left. exists (S k). rewrite <- Hshift. repeat split; try assumption; [lia|].
           intros [|j] Hj; [now rewrite Nat.add_0_r|].
           rewrite <- Hshift. apply Hbefore. lia.
        -- right. split.
           ++ intros [|k] Hk; [now rewrite Nat.add_0_r|].
              rewrite <- Hshift. apply Hall. lia.
           ++ right. destruct Hres as [Hres|(k & Hk & Hres)].
              ** exists 0%nat. rewrite Nat.add_0_r. split; [lia|exact Hres].
              ** exists (S k). rewrite <- Hshift. split; [lia|exact Hres].
      * destruct (IH (S attempts) bestPosition bestDistance)
          as [(k & Hk & Hres & Hfree & Hbefore)|[Hall Hres]].
        -- left. exists (S k). rewrite <- Hshift. repeat split; try assumption; [lia|].
           intros [|j] Hj; [now rewrite Nat.add_0_r|].
           rewrite <- Hshift. apply Hbefore. lia.
        -- right. split.
           ++ intros [|k] Hk; [now rewrite Nat.add_0_r|].
              rewrite <- Hshift. apply Hall. lia.
           ++ destruct Hres as [Hres|(k & Hk & Hres)]; [left; exact Hres|].
              right. exists (S k). rewrite <- Hshift. split; [lia|exact Hres].
Qed.

End TechRadarPlace.

Lemma seeded_hits_iff (techName : string) (minDistance : JsNum.num)
      (items : list Seeded.TechnologyPosition) (center : JsNum.num) (p : Seeded.Polar) :
  Seeded.hasCollision techName minDistance items
                      (Seeded.toX center p) (Seeded.toY center p) = true
  <-> seeded_hits techName minDistance items center p.
Proof. apply seeded_hasCollision_iff. Qed.

(** C2 (amended).  Both retry loops accept the first candidate they test
    that has no sibling closer than [minDistance] (at once when there is no
    sibling).  When every tested candidate has such a sibling, [TechRadar]
    returns one of the tested candidates or the centre, and [Seeded], which
    keeps no best candidate, returns the candidate re-seeded after the last
    test; neither loop fails. *)
Theorem resolvers_accept_first_clear_candidate :
  (forall techName items center minDistance maxAttempts first adjusted,
      let c := seeded_candidates first adjusted in
      let hits := seeded_hits techName minDistance items center in
      let p := Seeded.avoidCollisions techName items center minDistance
                                      maxAttempts first adjusted in
      (exists k, (k < maxAttempts)%nat /\ p = c k /\ ~ hits (c k)
                 /\ forall j, (j < k)%nat -> hits (c j))
      \/ ((forall k, (k < maxAttempts)%nat -> hits (c k)) /\ p = c maxAttempts))
  /\ (forall candidate existingPositions minDistance maxAttempts center,
         let p := TechRadar.resolve candidate existingPositions minDistance
                                    maxAttempts center in
         (exists k, (k < maxAttempts)%nat /\ p = candidate k
                    /\ clear_of_siblings candidate existingPositions minDistance k
                    /\ forall j, (j < k)%nat ->
                                 hits_sibling candidate existingPositions minDistance j)
         \/ ((forall k, (k < maxAttempts)%nat ->
                        hits_sibling candidate existingPositions minDistance k)
             /\ (p = mkPosition center center
                 \/ exists k, (k < maxAttempts)%nat /\ p = candidate k))).
Proof.
  split.
  - intros techName items center minDistance maxAttempts first adjusted c hits p.
    subst p. unfold Seeded.avoidCollisions.
    pose proof (seeded_retry_cases
                  (fun q => Seeded.hasCollision techName minDistance items
                              (Seeded.toX center q) (Seeded.toY center q))
                  adjusted maxAttempts 0%nat first) as Hcases.
    cbv zeta in Hcases.
    change (seeded_candidates first (fun j => adjusted (0 + j)%nat)) with c in Hcases.
    destruct Hcases as [(k & Hk & Hres & Hfree & Hbefore)|[Hall Hres]].
    + left. exists k. repeat split; try assumption.
      * intros Hhit. apply seeded_hits_iff in Hhit. congruence.
      * intros j Hj. apply seeded_hits_iff. apply (Hbefore j Hj).
    + right. split; [|exact Hres].
      intros k Hk. apply seeded_hits_iff. apply (Hall k Hk).
  - intros candidate existingPositions minDistance maxAttempts center p.
    exact (techradar_place_cases candidate existingPositions minDistance
                                 maxAttempts 0%nat (mkPosition center center) 0).
Qed.

Lemma axis_distance (r : R) :
  0 <= r ->
  sqrt ((300 + r * cos 0 - 300) * (300 + r * cos 0 - 300)
        + (300 + r * sin 0 - 300) * (300 + r * sin 0 - 300)) = r.
Proof.
  intros Hr. rewrite cos_0, sin_0.
  replace ((300 + r * 1 - 300) * (300 + r * 1 - 300)
           + (300 + r * 0 - 300) * (300 + r * 0 - 300)) with (r * r) by ring.
  now apply sqrt_square.
Qed.

Lemma crowded_radius_range (k : nat) : 0 <= crowded_radius k < 35.
Proof. destruct k; simpl; lra. Qed.

Lemma crowded_all_collide (k : nat) :
  Seeded.hasCollision "Rust" (JsNum.Fin 35) [crowded_sibling]
    (Seeded.toX (JsNum.Fin 300) (seeded_candidates crowded_first crowded_adjusted k))
    (Seeded.toY (JsNum.Fin 300) (seeded_candidates crowded_first crowded_adjusted k))
  = true.
Proof.
  assert (Hc : seeded_candidates crowded_first crowded_adjusted k
               = (JsNum.Fin 0, JsNum.Fin (crowded_radius k)))
    by (destruct k; reflexivity).
  rewrite Hc. pose proof (crowded_radius_range k) as Hr.
  unfold Seeded.hasCollision, Seeded.distanceTo, Seeded.toX, Seeded.toY,
    crowded_sibling. simpl.
  destruct (Rlt_dec _ 0) as [Hneg|_].
  - exfalso. revert Hneg. apply Rle_not_lt.
    apply Rplus_le_le_0_compat; apply Rle_0_sqr.
  - simpl. rewrite axis_distance by lra.
    destruct (Rlt_dec (crowded_radius k) 35) as [_|Hn]; [reflexivity|lra].
Qed.

Lemma crowded_minimumDistance (k : nat) :
  SpecResolver.minimumDistance (crowded_positions k) [mkPosition 300 300]
  = Finite (crowded_radius k).
Proof.
  unfold SpecResolver.minimumDistance, crowded_positions, polar_point. simpl.
  f_equal. rewrite !Rmult_1_r. apply axis_distance.
  apply (crowded_radius_range k).
Qed.

Lemma spec_place_from_S (candidate : nat -> Position) (siblings : list Position)
      (minDistance : R) (remaining attempt : nat) (best : option (Position * Dist)) :
  SpecResolver.place_from candidate siblings minDistance (S remaining) attempt best
  = let p := candidate attempt in
    let m := SpecResolver.minimumDistance p siblings in
    if dist_ge m minDistance then Some p
    else SpecResolver.place_from candidate siblings minDistance remaining (S attempt)
           match best with
           | None => Some (p, m)
           | Some (_, bm) => if dist_gt m bm then Some (p, m) else best
           end.
Proof. reflexivity. Qed.

Lemma crowded_spec_keeps_first (remaining : nat) :
  forall attempt,
    SpecResolver.place_from crowded_positions [mkPosition 300 300] 35 remaining
      (S attempt) (Some (crowded_positions 0, Finite 20))
    = Some (crowded_positions 0).
Proof.
  induction remaining as [|remaining IH]; intros attempt; [reflexivity|].
  rewrite spec_place_from_S. cbv zeta. rewrite crowded_minimumDistance.
  cbn [crowded_radius dist_ge dist_gt].
  destruct (Rge_dec 1 35) as [H|_]; [lra|].
  destruct (Rgt_dec 1 20) as [H|_]; [lra|].
  apply IH.
Qed.

(** C2 (counterexample).  With one sibling at the centre, a first candidate
    at distance 20 and re-seeded candidates at distance 1, no candidate
    reaches the minimum distance 35.  The resolver of the specification
    returns the best candidate seen in attempts 0 to 9, the first one;
    [Seeded] returns the candidate re-seeded after its tenth test, which lies
    at distance 1 and was never tested. *)
Lemma seeded_resolver_not_best_seen :
  let result :=
    Seeded.avoidCollisions "Rust" [crowded_sibling] (JsNum.Fin 300) (JsNum.Fin 35)
                           10 crowded_first crowded_adjusted in
  (forall k,
      Seeded.toX (JsNum.Fin 300) (seeded_candidates crowded_first crowded_adjusted k)
      = JsNum.Fin (x (crowded_positions k))
      /\ Seeded.toY (JsNum.Fin 300) (seeded_candidates crowded_first crowded_adjusted k)
         = JsNum.Fin (y (crowded_positions k)))
  /\ result = seeded_candidates crowded_first crowded_adjusted 10
  /\ SpecResolver.place crowded_positions [mkPosition 300 300] 35 10
     = Some (crowded_positions 0)
  /\ x (crowded_positions 10) <> x (crowded_positions 0).
Proof.
  intros result. repeat split.
  - destruct k; reflexivity.
  - destruct k; reflexivity.
  - subst result. unfold Seeded.avoidCollisions.
    pose proof (seeded_retry_cases
                  (fun q => Seeded.hasCollision "Rust" (JsNum.Fin 35) [crowded_sibling]
                              (Seeded.toX (JsNum.Fin 300) q)
                              (Seeded.toY (JsNum.Fin 300) q))
                  crowded_adjusted 10 0%nat crowded_first) as Hcases.
    cbv zeta in Hcases.
    change (seeded_candidates crowded_first (fun j => crowded_adjusted (0 + j)%nat))
      with (seeded_candidates crowded_first crowded_adjusted) in Hcases.
    destruct Hcases as [(k & _ & _ & Hfree & _)|[_ Hres]]; [|exact Hres].
    rewrite crowded_all_collide in Hfree. discriminate.
  - unfold SpecResolver.place. rewrite spec_place_from_S. cbv zeta.
    rewrite crowded_minimumDistance. cbn [crowded_radius dist_ge].
    destruct (Rge_dec 20 35) as [H|_]; [lra|].
    apply crowded_spec_keeps_first.
  - unfold crowded_positions, polar_point. simpl. rewrite cos_0. lra.
Qed.

(** ** Variant [Grid]: the order of the output *)

Lemma grid_placeTechs_out (ringConfig : Grid.RingConfig)
      (quadrantConfig : Grid.QuadrantConfig) (positions : list Position)
      (techs : list RadarTechnology) :
  forall index st,
    map Grid.tech (Grid.positionedTechnologies
                     (Grid.placeTechs ringConfig quadrantConfig positions techs index st))
    = map Grid.tech (Grid.positionedTechnologies st) ++ techs.
Proof.
  induction techs as [|t techs IH]; intros index st; simpl.
  - now rewrite app_nil_r.
  - rewrite IH. simpl. rewrite map_app. simpl. now rewrite <- app_assoc.
Qed.

Lemma grid_placeGroup_out (config : Grid.RadarConfig) (rand : Grid.Random)
      (quadrantKey : string) (st : Grid.State) (entry : string * list RadarTechnology) :
  map Grid.tech (Grid.positionedTechnologies
                   (Grid.placeGroup config rand quadrantKey st entry))
  = map Grid.tech (Grid.positionedTechnologies st)
    ++ (if resolvable config (quadrantKey, fst entry) then snd entry else []).
Proof.
  destruct entry as [ringKey techs]. unfold Grid.placeGroup, resolvable.
  cbn [fst snd].
  destruct (JsArray.find _ config) as [[i ringConfig]|];
    [|symmetry; apply app_nil_r].
  destruct (JsObject.get Grid.quadrantMap quadrantKey) as [quadrantConfig|];
    [|symmetry; apply app_nil_r].
  destruct (Grid.generateGridPositions _ _ _ _ _ _) as [positions k'].
  now rewrite grid_placeTechs_out.
Qed.

Lemma grid_placeGroups_out (config : Grid.RadarConfig) (rand : Grid.Random)
      (quadrantKey : string) (groups : list (string * list RadarTechnology)) :
  forall st,
    map Grid.tech (Grid.positionedTechnologies
                     (fold_left (Grid.placeGroup config rand quadrantKey) groups st))
    = map Grid.tech (Grid.positionedTechnologies st)
      ++ flat_map (fun e => if resolvable config (quadrantKey, fst e) then snd e else [])
                  groups.
Proof.
  induction groups as [|e groups IH]; intros st; simpl.
  - now rewrite app_nil_r.
  - rewrite IH, grid_placeGroup_out. now rewrite <- app_assoc.
Qed.

Lemma grid_placeQuadrants_out (config : Grid.RadarConfig) (rand : Grid.Random)
      (quadrants : list (string * JsObject.Obj (list RadarTechnology))) :
  forall st,
    map Grid.tech (Grid.positionedTechnologies
                     (fold_left (Grid.placeQuadrant config rand) quadrants st))
    = map Grid.tech (Grid.positionedTechnologies st)
      ++ flat_map (fun g => if resolvable config (fst g) then snd g else [])
           (flat_map (fun e => map (fun e' => ((fst e, fst e'), snd e'))
                                   (JsObject.entries (snd e)))
                     quadrants).
Proof.
  induction quadrants as [|[quadrantKey rings] quadrants IH]; intros st; simpl.
  - now rewrite app_nil_r.
  - rewrite IH. rewrite grid_placeGroups_out.
    rewrite flat_map_app, <- app_assoc. f_equal. f_equal.
    induction (JsObject.entries rings) as [|e l IHl]; simpl; [reflexivity|].
    now rewrite IHl.
Qed.

(** The technologies of the output, in output order: the visited groups
    that resolve, one after the other. *)
Lemma grid_output_techs (technologies : list RadarTechnology)
      (config : Grid.RadarConfig) (heap heap' : Grid.Heap)
      (rand : Grid.Random) (k : nat) (grouped : Grid.Grouped) :
  Grid.group heap [] technologies = Grid.Returns (grouped, heap') ->
  Grid.layoutReadsHeap config heap' grouped = false ->
  exists out k',
    Grid.calculateTechnologyPositions technologies config heap rand k
    = Grid.Returns (out, k', heap')
    /\ map Grid.tech out
       = flat_map (fun g => if resolvable config (fst g) then snd g else [])
                  (visitedGroups grouped).
Proof.
  intros Hg Hreads. unfold Grid.calculateTechnologyPositions. rewrite Hg, Hreads.
  eexists. eexists. split; [reflexivity|].
  now rewrite grid_placeQuadrants_out.
Qed.

(** ** Objects as dictionaries *)

Section ObjectFacts.

Context {A : Type}.
Implicit Types (o : JsObject.Obj A) (k : string) (a : A).

Lemma get_set_same o k a : JsObject.get (JsObject.set o k a) k = Some a.
Proof.
  induction o as [|[k' b] o IH]; simpl.
  - now rewrite String.eqb_refl.
  - destruct (String.eqb k k') eqn:E; simpl; rewrite E; [reflexivity|exact IH].
Qed.

Lemma get_set_other o k k' a :
  k <> k' -> JsObject.get (JsObject.set o k a) k' = JsObject.get o k'.
Proof.
  intros Hne. induction o as [|[k0 b] o IH]; simpl.
  - destruct (String.eqb k' k) eqn:E; [|reflexivity].
    apply String.eqb_eq in E. congruence.
  - destruct (String.eqb k k0) eqn:E; simpl.
    + apply String.eqb_eq in E. subst k0.
      destruct (String.eqb k' k) eqn:E'; [|reflexivity].
      apply String.eqb_eq in E'. congruence.
    + now rewrite IH.
Qed.

Lemma get_None_keys o k : JsObject.get o k = None -> ~ In k (map fst o).
Proof.
  induction o as [|[k' b] o IH]; simpl; [tauto|].
  destruct (String.eqb k k') eqn:E; [discriminate|].
  apply String.eqb_neq in E. intros H [Heq|Hin]; [congruence|now apply IH].
Qed.

Lemma get_Some_In o k a : JsObject.get o k = Some a -> In (k, a) o.
Proof.
  induction o as [|[k' b] o IH]; simpl; [discriminate|].
  destruct (String.eqb k k') eqn:E.
  - apply String.eqb_eq in E. intros [= ->]. left. now subst.
  - intros H. right. now apply IH.
Qed.

Lemma In_get o k a : NoDup (map fst o) -> In (k, a) o -> JsObject.get o k = Some a.
Proof.
  induction o as [|[k' b] o IH]; simpl; [tauto|].
  intros Hnd [Heq|Hin].
  - injection Heq as -> ->. now rewrite String.eqb_refl.
  - inversion Hnd as [|? ? Hnotin Hnd']; subst.
    destruct (String.eqb k k') eqn:E.
    + apply String.eqb_eq in E. subst k'. exfalso. apply Hnotin.
      apply (in_map fst) in Hin. exact Hin.
    + now apply IH.
Qed.

Lemma set_keys o k a :
  map fst (JsObject.set o k a)
  = if in_dec string_dec k (map fst o) then map fst o else map fst o ++ [k].
Proof.
  induction o as [|[k' b] o IH]; simpl; [reflexivity|].
  destruct (String.eqb k k') eqn:E; simpl.
  - apply String.eqb_eq in E. subst k'.
    destruct (string_dec k k) as [Heq|Hn]; [reflexivity|congruence].
  - apply String.eqb_neq in E. rewrite IH.
    destruct (string_dec k' k) as [Heq|Hn]; [congruence|].
    now destruct (in_dec string_dec k (map fst o)).
Qed.

Lemma set_NoDup o k a : NoDup (map fst o) -> NoDup (map fst (JsObject.set o k a)).
Proof.
  intros Hnd. rewrite set_keys.
  destruct (in_dec string_dec k (map fst o)) as [_|Hnotin]; [exact Hnd|].
  apply NoDup_app; [exact Hnd|repeat constructor; simpl; tauto|].
  intros k' Hin [<-|[]]. contradiction.
Qed.

Lemma insert_sorted_perm (n : N) (e : string * A) (l : list (N * (string * A))) :
  Permutation (JsObject.insert_sorted n e l) ((n, e) :: l).
Proof.
  induction l as [|[m e'] l IH]; simpl; [apply Permutation_refl|].
  destruct (n <=? m)%N; [apply Permutation_refl|].
  apply Permutation_trans with ((m, e') :: (n, e) :: l).
  - now apply perm_skip.
  - apply perm_swap.
Qed.

Lemma entries_perm o : Permutation (JsObject.entries o) o.
Proof.
  unfold JsObject.entries. induction o as [|[k a] o IH]; simpl.
  - apply Permutation_refl.
  - unfold JsObject.is_index at 1. simpl.
    destruct (JsObject.array_index k) as [n|]; simpl.
    + apply Permutation_trans
        with (map snd ((n, (k, a)) :: JsObject.index_entries o)
                  ++ filter (fun e => negb (JsObject.is_index e)) o).
      * apply Permutation_app_tail. apply Permutation_map.
        apply insert_sorted_perm.
      * simpl. now apply perm_skip.
    + apply Permutation_sym. apply Permutation_cons_app.
      now apply Permutation_sym.
Qed.

Lemma entries_In o k a : In (k, a) (JsObject.entries o) <-> In (k, a) o.
Proof.
  split; apply Permutation_in;
    [apply entries_perm|apply Permutation_sym, entries_perm].
Qed.

Lemma entries_NoDup o : NoDup (map fst o) -> NoDup (map fst (JsObject.entries o)).
Proof.
  apply Permutation_NoDup. apply Permutation_map. apply Permutation_sym.
  apply entries_perm.
Qed.

End ObjectFacts.

(** ** Variant [Grid]: the grouping *)

Lemma hasKey_groupKey (key : string * string) (t : RadarTechnology) :
  hasKey key t = true <-> groupKey t = key.
Proof.
  destruct key as [kq kr]. unfold hasKey, groupKey. simpl.
  rewrite andb_true_iff, !String.eqb_eq. split.
  - intros [-> ->]. reflexivity.
  - intros [= -> ->]. auto.
Qed.

Lemma GroupInv_init : GroupInv [] [].
Proof.
  constructor; simpl.
  - constructor.
  - discriminate.
  - reflexivity.
  - discriminate.
Qed.

Lemma groupOne_inv (heap : Grid.Heap) (acc : Grid.Grouped)
      (done : list RadarTechnology) (t : RadarTechnology) :
  GroupInv acc done -> plain_keys heap t ->
  exists acc',
    Grid.groupOne heap acc t = Grid.Returns (acc', heap)
    /\ GroupInv acc' (done ++ [t]).
Proof.
  intros [Hk Hrk Hl Hne] [[Hqb Hqp] [Hrb Hrp]].
  set (qk := Grid.quadrantKeyOf t) in *. set (rk := Grid.ringKeyOf t) in *.
  set (rings0 := match JsObject.get acc qk with Some rings => rings | None => [] end).
  set (techs0 := match JsObject.get rings0 rk with Some techs => techs | None => [] end).
  exists (JsObject.set acc qk (JsObject.set rings0 rk (techs0 ++ [t]))).
  split.
  { unfold Grid.groupOne. fold qk rk.
    assert (Hinto : Grid.groupInto heap acc qk rings0 rk t
                    = Grid.Returns
                        (JsObject.set acc qk (JsObject.set rings0 rk (techs0 ++ [t])),
                         heap)).
    { unfold Grid.groupInto. subst techs0.
      destruct (JsObject.get rings0 rk) as [techs|]; [reflexivity|].
      now rewrite Hrb, Hrp. }
    subst rings0. destruct (JsObject.get acc qk) as [rings|] eqn:E; [exact Hinto|].
    unfold Grid.prototypeBuiltin in Hqb. apply orb_false_iff in Hqb as [Hq1 Hq2].
    now rewrite Hq1, Hq2, Hqp. }
  assert (Hrings0 : NoDup (map fst rings0)).
  { subst rings0. destruct (JsObject.get acc qk) as [r|] eqn:E; [|constructor].
    now apply (Hrk qk). }
  assert (Hget0 : forall rk', match JsObject.get rings0 rk' with
                              | Some techs => techs | None => [] end
                              = lookup2 acc (qk, rk')).
  { intros rk'. unfold lookup2. simpl. subst rings0.
    now destruct (JsObject.get acc qk). }
  assert (Hne0 : forall rk' techs, JsObject.get rings0 rk' = Some techs -> techs <> []).
  { intros rk' techs. subst rings0.
    destruct (JsObject.get acc qk) as [r|] eqn:E; [|discriminate].
    now apply (Hne qk r rk'). }
  constructor.
  - now apply set_NoDup.
  - intros qk' rings' Hg. destruct (string_dec qk qk') as [<-|Hd].
    + rewrite get_set_same in Hg. injection Hg as <-. now apply set_NoDup.
    + rewrite get_set_other in Hg by exact Hd. now apply (Hrk qk').
  - intros [kq kr]. rewrite filter_app. rewrite <- Hl. simpl filter.
    unfold lookup2 at 1. cbn [fst snd].
    destruct (string_dec qk kq) as [<-|Hd].
    + rewrite get_set_same.
      destruct (string_dec rk kr) as [<-|Hd'].
      * rewrite get_set_same.
        assert (Hh : hasKey (qk, rk) t = true) by (now apply hasKey_groupKey).
        rewrite Hh. subst techs0. now rewrite Hget0.
      * rewrite get_set_other by exact Hd'.
        assert (Hh : hasKey (qk, kr) t = false).
        { apply not_true_is_false. intros H. apply hasKey_groupKey in H.
          injection H as H. now apply Hd'. }
        rewrite Hh, app_nil_r. apply Hget0.
    + rewrite get_set_other by exact Hd.
      assert (Hh : hasKey (kq, kr) t = false).
      { apply not_true_is_false. intros H. apply hasKey_groupKey in H.
        injection H as H _. now apply Hd. }
      rewrite Hh, app_nil_r. reflexivity.
  - intros qk' rings' rk' techs Hg Hg'. destruct (string_dec qk qk') as [<-|Hd].
    + rewrite get_set_same in Hg. injection Hg as <-.
      destruct (string_dec rk rk') as [<-|Hd'].
      * rewrite get_set_same in Hg'. injection Hg' as <-.
        now destruct techs0.
      * rewrite get_set_other in Hg' by exact Hd'. now apply (Hne0 rk').
    + rewrite get_set_other in Hg by exact Hd. now apply (Hne qk' rings' rk').
Qed.

Lemma group_inv (heap : Grid.Heap) (technologies : list RadarTechnology) :
  forall acc done,
    GroupInv acc done ->
    (forall t, In t technologies -> plain_keys heap t) ->
    exists acc',
      Grid.group heap acc technologies = Grid.Returns (acc', heap)
      /\ GroupInv acc' (done ++ technologies).
Proof.
  induction technologies as [|t ts IH]; intros acc done Hinv Hplain; simpl.
  - exists acc. now rewrite app_nil_r.
  - destruct (groupOne_inv heap acc done t Hinv (Hplain t (or_introl eq_refl)))
      as (acc1 & -> & Hinv1).
    destruct (IH acc1 (done ++ [t]) Hinv1) as (acc' & Hg & Hinv').
    + intros u Hu. apply Hplain. now right.
    + exists acc'. split; [exact Hg|]. now rewrite <- app_assoc in Hinv'.
Qed.

Lemma NoDup_map_pair {K1 K2 : Type} (q : K1) (l : list K2) :
  NoDup l -> NoDup (map (pair q) l).
Proof.
  induction 1 as [|a l Hnotin Hnd IH]; simpl; constructor; [|exact IH].
  intros Hin. apply in_map_iff in Hin as (b & [= ->] & Hb). contradiction.
Qed.

Lemma visited_keys_NoDup {X V : Type} (g : X -> list (string * V))
      (l : list (string * X)) :
  NoDup (map fst l) ->
  (forall e, In e l -> NoDup (map fst (g (snd e)))) ->
  NoDup (map fst (flat_map (fun e => map (fun e' => ((fst e, fst e'), snd e'))
                                         (g (snd e))) l)).
Proof.
  induction l as [|[q r] l IH]; simpl; intros Hnd Hin; [constructor|].
  inversion Hnd as [|? ? Hnotin Hnd']; subst.
  rewrite map_app. apply NoDup_app.
  - rewrite map_map. simpl.
    rewrite <- (map_map fst (pair q)). apply NoDup_map_pair.
    apply (Hin (q, r)). now left.
  - apply IH; [exact Hnd'|]. intros e He. apply Hin. now right.
  - intros [kq kr] H1 H2.
    apply in_map_iff in H1 as ([[kq1 kr1] v1] & Heq1 & H1). simpl in Heq1.
    apply in_map_iff in H1 as (e1 & Heq1' & _). injection Heq1' as <- _ _.
    injection Heq1 as <- _.
    apply in_map_iff in H2 as ([[kq2 kr2] v2] & Heq2 & H2). simpl in Heq2.
    injection Heq2 as -> _.
    apply in_flat_map in H2 as (e2 & He2 & H2).
    apply in_map_iff in H2 as (e2' & Heq2' & _). injection Heq2' as Hq _ _.
    apply Hnotin. rewrite <- Hq. now apply in_map.
Qed.

Section VisitedGroups.

Variable grouped : Grid.Grouped.
Variable technologies : list RadarTechnology.
Hypothesis Hinv : GroupInv grouped technologies.

Lemma visited_In (key : string * string) (techs : list RadarTechnology) :
  In (key, techs) (visitedGroups grouped) <->
  exists rings,
    JsObject.get grouped (fst key) = Some rings
    /\ JsObject.get rings (snd key) = Some techs.
Proof.
  destruct Hinv as [Hk Hrk _ _]. unfold visitedGroups. rewrite in_flat_map. split.
  - intros ([qk rings] & He & Hin). simpl in Hin.
    apply in_map_iff in Hin as ([rk techs'] & [= <- <-] & Hin'). simpl.
    apply (proj1 (entries_In _ _ _)) in He. apply (In_get _ _ _ Hk) in He.
    exists rings. split; [exact He|].
    apply (proj1 (entries_In _ _ _)) in Hin'. apply In_get; [|exact Hin']. now apply (Hrk qk).
  - intros (rings & Hg & Hg'). destruct key as [qk rk]. simpl in *.
    exists (qk, rings). split.
    + apply (proj2 (entries_In _ _ _)). now apply get_Some_In.
    + simpl. apply in_map_iff. exists (rk, techs). split; [reflexivity|].
      apply (proj2 (entries_In _ _ _)). now apply get_Some_In.
Qed.

Lemma visited_techs (key : string * string) (techs : list RadarTechnology) :
  In (key, techs) (visitedGroups grouped) ->
  techs = filter (hasKey key) technologies.
Proof.
  intros Hin. apply visited_In in Hin as (rings & Hg & Hg').
  rewrite <- (inv_lookup _ _ Hinv). unfold lookup2. now rewrite Hg, Hg'.
Qed.

Lemma visited_keys (key : string * string) :
  In key (map fst (visitedGroups grouped)) <->
  exists t, In t technologies /\ groupKey t = key.
Proof.
  split.
  - intros Hin. apply in_map_iff in Hin as ([key' techs] & <- & Hin). simpl.
    pose proof (visited_techs _ _ Hin) as Htechs.
    apply visited_In in Hin as (rings & Hg & Hg').
    pose proof (inv_nonempty _ _ Hinv _ _ _ _ Hg Hg') as Hne.
    destruct techs as [|t techs]; [congruence|].
    assert (Ht : In t (filter (hasKey key') technologies))
      by (rewrite <- Htechs; now left).
    apply filter_In in Ht as [Ht Hh]. exists t. split; [exact Ht|].
    now apply hasKey_groupKey.
  - intros (t & Ht & Hkey).
    assert (Hin : In t (lookup2 grouped key)).
    { rewrite (inv_lookup _ _ Hinv). apply filter_In. split; [exact Ht|].
      now apply hasKey_groupKey. }
    unfold lookup2 in Hin.
    destruct (JsObject.get grouped (fst key)) as [rings|] eqn:Hg; [|destruct Hin].
    destruct (JsObject.get rings (snd key)) as [techs|] eqn:Hg'; [|destruct Hin].
    apply in_map_iff. exists (key, techs). split; [reflexivity|].
    apply visited_In. exists rings. auto.
Qed.

Lemma visited_NoDup : NoDup (map fst (visitedGroups grouped)).
Proof.
  destruct Hinv as [Hk Hrk _ _]. unfold visitedGroups.
  apply (visited_keys_NoDup (@JsObject.entries (list RadarTechnology))).
  - now apply entries_NoDup.
  - intros [qk rings] He. simpl. apply entries_NoDup. apply (Hrk qk).
    apply (proj1 (entries_In _ _ _)) in He. now apply In_get.
Qed.

End VisitedGroups.

(** When every key is plain, no group of the layout reads the heap. *)
Lemma layout_reads_plain (config : Grid.RadarConfig) (heap : Grid.Heap)
      (grouped : Grid.Grouped) (technologies : list RadarTechnology) :
  GroupInv grouped technologies ->
  (forall t, In t technologies -> plain_keys heap t) ->
  Grid.layoutReadsHeap config heap grouped = false.
Proof.
  intros Hinv Hplain. apply not_true_is_false. intros H.
  unfold Grid.layoutReadsHeap in H.
  apply existsb_exists in H as (e & He & H).
  apply existsb_exists in H as (e' & He' & H).
  assert (Hkey : In (fst e, fst e') (map fst (visitedGroups grouped))).
  { apply in_map_iff. exists ((fst e, fst e'), snd e'). split; [reflexivity|].
    unfold visitedGroups. apply in_flat_map. exists e. split; [exact He|].
    apply in_map_iff. exists e'. split; [reflexivity|exact He']. }
  apply (visited_keys grouped technologies Hinv) in Hkey as (t & Ht & Hkey).
  destruct (Hplain t Ht) as [[Hqb Hqp] _].
  injection Hkey as Hq _. rewrite Hq in Hqb, Hqp.
  unfold Grid.groupReadsHeap in H.
  destruct (JsArray.find _ config); [|discriminate].
  destruct (JsObject.get Grid.quadrantMap (fst e)); [discriminate|].
  rewrite Hqb, Hqp in H. discriminate.
Qed.

Lemma v8_processedData_items (radar_data : list RadarTechnology) :
  map V8.item (V8.processedData radar_data) = radar_data.
Proof.
  unfold V8.processedData, JsArray.mapi. rewrite map_from_map. simpl.
  rewrite map_from_noindex. apply map_id.
Qed.

Lemma resolved_keys_NoDup (config : Grid.RadarConfig)
      (groups : list ((string * string) * list RadarTechnology)) :
  NoDup (map fst groups) ->
  NoDup (map fst (filter (fun g => resolvable config (fst g)) groups)).
Proof.
  induction groups as [|g groups IH]; simpl; intros Hnd; [constructor|].
  inversion Hnd as [|? ? Hfresh Hrest]; subst.
  destruct (resolvable config (fst g)); simpl; [|now apply IH].
  constructor; [|now apply IH].
  intros Hin. apply Hfresh. apply in_map_iff in Hin as (g' & Hg' & Hin).
  apply filter_In in Hin as [Hin _]. rewrite <- Hg'. now apply in_map.
Qed.

Lemma resolved_groups_flat
      (config : Grid.RadarConfig) (technologies : list RadarTechnology)
      (groups : list ((string * string) * list RadarTechnology)) :
  (forall g, In g groups -> snd g = filter (hasKey (fst g)) technologies) ->
  flat_map (fun g => if resolvable config (fst g) then snd g else []) groups
  = flat_map (fun key => filter (hasKey key) technologies)
             (map fst (filter (fun g => resolvable config (fst g)) groups)).
Proof.
  induction groups as [|g groups IH]; simpl; intros Hall; [reflexivity|].
  rewrite IH by (intros g' Hg'; apply Hall; now right).
  destruct (resolvable config (fst g)); simpl; [|reflexivity].
  now rewrite (Hall g (or_introl eq_refl)).
Qed.

(** C4 (amended).  The [map]-based layout of [radar V8.tsx] returns one
    entry per input item, in input order.  The [Grid] layout, for items
    none of whose category and level keys is [__proto__], [constructor] or
    the name of a property that a call left on [Object.prototype], returns
    the items group by group and leaves the heap as it found it: every
    (category, level) group that resolves appears once, as a block that
    holds the items of the group in their input order; the groups that do
    not resolve are left out. *)
Theorem output_order :
  (forall radar_data, map V8.item (V8.processedData radar_data) = radar_data)
  /\ (forall technologies config heap rand k,
         (forall t, In t technologies -> plain_keys heap t) ->
         exists out k' keys,
           Grid.calculateTechnologyPositions technologies config heap rand k
           = Grid.Returns (out, k', heap)
           /\ NoDup keys
           /\ (forall key,
                  In key keys <->
                  resolvable config key = true
                  /\ exists t, In t technologies /\ groupKey t = key)
           /\ map Grid.tech out
              = flat_map (fun key => filter (hasKey key) technologies) keys).
Proof.
  split; [exact v8_processedData_items|].
  intros technologies config heap rand k Hplain.
  destruct (group_inv heap technologies [] [] GroupInv_init Hplain)
    as (grouped & Hg & Hinv).
  simpl in Hinv.
  destruct (grid_output_techs technologies config heap heap rand k grouped Hg
              (layout_reads_plain config heap grouped technologies Hinv Hplain))
    as (out & k' & Hcalc & Hout).
  exists out, k',
    (map fst (filter (fun g => resolvable config (fst g)) (visitedGroups grouped))).
  split; [exact Hcalc|]. split; [|split].
  - apply resolved_keys_NoDup. now apply (visited_NoDup grouped technologies).
  - intros key. rewrite <- (visited_keys grouped technologies Hinv key).
    rewrite !in_map_iff. split.
    + intros (g & <- & Hin). apply filter_In in Hin as [Hin Hres].
      split; [exact Hres|]. exists g. auto.
    + intros (Hres & g & <- & Hin). exists g. split; [reflexivity|].
      apply filter_In. auto.
  - rewrite Hout. apply resolved_groups_flat.
    intros [key techs] Hin. simpl.
    now apply (visited_techs grouped technologies Hinv).
Qed.

Lemma interleaved_input_plain :
  forall t, In t interleaved_input -> plain_keys Grid.pristine t.
Proof.
  intros t [<-|[<-|[<-|[<-|[]]]]]; repeat split; reflexivity.
Qed.

Lemma output_order_witness :
  (forall t, In t interleaved_input -> plain_keys Grid.pristine t)
  /\ exists out k' keys,
      Grid.calculateTechnologyPositions interleaved_input four_rings Grid.pristine
                                        constant_half 0
      = Grid.Returns (out, k', Grid.pristine)
      /\ NoDup keys
      /\ (forall key,
             In key keys <->
             resolvable four_rings key = true
             /\ exists t, In t interleaved_input /\ groupKey t = key)
      /\ map Grid.tech out
         = flat_map (fun key => filter (hasKey key) interleaved_input) keys.
Proof.
  split; [exact interleaved_input_plain|].
  exact (proj2 output_order interleaved_input four_rings Grid.pristine constant_half
               0%nat interleaved_input_plain).
Defined.

(** C4 (counterexample).  For the input React (Tools), Kubernetes
    (Platforms), Mystery (unknown category), Docker (Tools), all of level
    Adopt, the [Grid] layout, started on a heap no call has written to,
    returns React, Docker, Kubernetes: three entries for four items, and
    Docker before Kubernetes. *)
Lemma grid_output_reordered_and_shorter :
  exists out k',
    Grid.calculateTechnologyPositions interleaved_input four_rings Grid.pristine
                                      constant_half 0
    = Grid.Returns (out, k', Grid.pristine)
    /\ map Grid.tech out = [tech_react; tech_docker; tech_kubernetes]
    /\ List.length out <> List.length interleaved_input
    /\ map (fun o => name (Grid.tech o)) out <> map name (firstn 3 interleaved_input).
Proof.
  destruct (grid_output_techs interleaved_input four_rings Grid.pristine Grid.pristine
                              constant_half 0%nat interleaved_grouped eq_refl eq_refl)
    as (out & k' & Hcalc & Hout).
  assert (Htechs : map Grid.tech out = [tech_react; tech_docker; tech_kubernetes])
    by (rewrite Hout; reflexivity).
  exists out, k'. repeat split.
  - exact Hcalc.
  - exact Htechs.
  - rewrite <- (length_map Grid.tech out), Htechs. simpl. lia.
  - rewrite <- (map_map Grid.tech name), Htechs. simpl. discriminate.
Qed.

(** ** Variant [Grid]: the draws of [Math.random] *)

Section GridDraws.

Variables rand rand' : Grid.Random.
Variable ringConfig : Grid.RingConfig.
Variable quadrantConfig : Grid.QuadrantConfig.


Lemma same_draws_shift (k k' d : nat) :
  same_draws rand rand' k k' -> same_draws rand rand' (k + d) (k' + d).
Proof.
  intros H j. rewrite <- !Nat.add_assoc. apply H.
Qed.

Lemma gridCandidate_ext (count i k k' : nat) :
  same_draws rand rand' k k' ->
  Grid.gridCandidate ringConfig quadrantConfig count i rand k
  = Grid.gridCandidate ringConfig quadrantConfig count i rand' k'.
Proof.
  intros H. unfold Grid.gridCandidate.
  pose proof (H 0%nat) as H0. pose proof (H 1%nat) as H1.
  rewrite !Nat.add_0_r in H0. rewrite !Nat.add_1_r in H1.
  now rewrite H0, H1.
Qed.

Lemma tryAttempts_ext (count i : nat) (others : list Position) (remaining : nat) :
  forall k k' best maxDistance,
    same_draws rand rand' k k' ->
    fst (Grid.tryAttempts ringConfig quadrantConfig count i others rand
                          remaining k best maxDistance)
    = fst (Grid.tryAttempts ringConfig quadrantConfig count i others rand'
                            remaining k' best maxDistance)
    /\ snd (Grid.tryAttempts ringConfig quadrantConfig count i others rand
                             remaining k best maxDistance)
       = (k + 2 * remaining)%nat
    /\ snd (Grid.tryAttempts ringConfig quadrantConfig count i others rand'
                             remaining k' best maxDistance)
       = (k' + 2 * remaining)%nat.
Proof.
  induction remaining as [|remaining IH]; intros k k' best maxDistance H.
  - simpl. repeat split; lia.
  - cbn [Grid.tryAttempts].
    rewrite <- (gridCandidate_ext count i k k' H).
    set (p := Grid.gridCandidate ringConfig quadrantConfig count i rand k).
    assert (H2 : same_draws rand rand' (S (S k)) (S (S k'))).
    { replace (S (S k)) with (k + 2)%nat by lia.
      replace (S (S k')) with (k' + 2)%nat by lia.
      now apply same_draws_shift. }
    destruct (dist_ge (Grid.minDistanceToOthers (x p) (y p) others) Grid.minDistance
              && dist_gt (Grid.minDistanceToOthers (x p) (y p) others) maxDistance).
    + destruct (IH (S (S k)) (S (S k')) (Some p)
                   (Grid.minDistanceToOthers (x p) (y p) others) H2)
        as (E1 & E2 & E3).
      rewrite E1, E2, E3. repeat split; lia.
    + destruct (IH (S (S k)) (S (S k')) best maxDistance H2) as (E1 & E2 & E3).
      rewrite E1, E2, E3. repeat split; lia.
Qed.

Lemma gridLoop_ext (count : nat) (existingPositions : list Position)
      (remaining : nat) :
  forall i positions k k',
    same_draws rand rand' k k' ->
    fst (Grid.gridLoop ringConfig quadrantConfig count existingPositions rand
                       remaining i positions k)
    = fst (Grid.gridLoop ringConfig quadrantConfig count existingPositions rand'
                         remaining i positions k')
    /\ snd (Grid.gridLoop ringConfig quadrantConfig count existingPositions rand
                          remaining i positions k)
       = (k + 40 * remaining)%nat
    /\ snd (Grid.gridLoop ringConfig quadrantConfig count existingPositions rand'
                          remaining i positions k')
       = (k' + 40 * remaining)%nat.
Proof.
  induction remaining as [|remaining IH]; intros i positions k k' H.
  - simpl. repeat split; lia.
  - cbn [Grid.gridLoop].
    destruct (tryAttempts_ext count i (existingPositions ++ positions) 20 k k'
                              None (Finite 0) H) as (E1 & E2 & E3).
    destruct (Grid.tryAttempts ringConfig quadrantConfig count i
                (existingPositions ++ positions) rand 20 k None (Finite 0))
      as [best k1].
    destruct (Grid.tryAttempts ringConfig quadrantConfig count i
                (existingPositions ++ positions) rand' 20 k' None (Finite 0))
      as [best' k1'].
    simpl in E1, E2, E3. subst best' k1 k1'. cbv beta iota.
    destruct (IH (S i)
                 (positions
                    ++ [match best with
                        | Some p => p
                        | None => Grid.findForceBasedPosition ringConfig quadrantConfig
                                    (existingPositions ++ positions) Grid.minDistance
                        end])
                 (k + 40)%nat (k' + 40)%nat
                 (same_draws_shift k k' 40 H)) as (F1 & F2 & F3).
    rewrite F1, F2, F3. repeat split; lia.
Qed.

End GridDraws.


Section GridRuns.

Variables rand rand' : Grid.Random.
Variables k k' : nat.
Variable config : Grid.RadarConfig.
Hypothesis Hdraws : same_draws rand rand' k k'.

Lemma placeTechs_rel (ringConfig : Grid.RingConfig)
      (quadrantConfig : Grid.QuadrantConfig) (positions : list Position)
      (techs : list RadarTechnology) :
  forall index st st',
    same_layout st st' -> same_progress k k' st st' ->
    same_layout (Grid.placeTechs ringConfig quadrantConfig positions techs index st)
                (Grid.placeTechs ringConfig quadrantConfig positions techs index st')
    /\ same_progress k k'
         (Grid.placeTechs ringConfig quadrantConfig positions techs index st)
         (Grid.placeTechs ringConfig quadrantConfig positions techs index st').
Proof.
  induction techs as [|t techs IH]; intros index st st' Hl Hp; simpl; [auto|].
  destruct Hl as (Ha & Hpt & Hi). apply IH.
  - unfold same_layout. simpl. now rewrite Ha, Hpt, Hi.
  - exact Hp.
Qed.

Lemma placeGroup_rel (quadrantKey : string) (entry : string * list RadarTechnology)
      (st st' : Grid.State) :
  same_layout st st' -> same_progress k k' st st' ->
  same_layout (Grid.placeGroup config rand quadrantKey st entry)
              (Grid.placeGroup config rand' quadrantKey st' entry)
  /\ same_progress k k' (Grid.placeGroup config rand quadrantKey st entry)
                        (Grid.placeGroup config rand' quadrantKey st' entry).
Proof.
  intros Hl Hp. destruct entry as [ringKey techs]. unfold Grid.placeGroup.
  destruct (JsArray.find _ config) as [[i ringConfig]|]; [|auto].
  destruct (JsObject.get Grid.quadrantMap quadrantKey) as [quadrantConfig|]; [|auto].
  destruct Hl as (Ha & Hpt & Hi). destruct Hp as (d & Hd & Hd').
  unfold Grid.generateGridPositions. rewrite <- Ha, Hd, Hd'.
  destruct (gridLoop_ext rand rand' ringConfig quadrantConfig (List.length techs)
              (Grid.allPositioned st) (List.length techs) 0 [] (k + d) (k' + d)
              (same_draws_shift rand rand' k k' d Hdraws)) as (E1 & E2 & E3).
  destruct (Grid.gridLoop ringConfig quadrantConfig (List.length techs)
              (Grid.allPositioned st) rand (List.length techs) 0 [] (k + d))
    as [positions k1].
  destruct (Grid.gridLoop ringConfig quadrantConfig (List.length techs)
              (Grid.allPositioned st) rand' (List.length techs) 0 [] (k' + d))
    as [positions' k1'].
  simpl in E1, E2, E3. subst positions' k1 k1'. cbv beta iota.
  apply placeTechs_rel.
  - unfold same_layout. simpl. now rewrite Hpt, Hi.
  - exists (d + 40 * List.length techs)%nat. simpl. split; lia.
Qed.

Lemma placeGroups_rel (quadrantKey : string)
      (groups : list (string * list RadarTechnology)) :
  forall st st',
    same_layout st st' -> same_progress k k' st st' ->
    same_layout (fold_left (Grid.placeGroup config rand quadrantKey) groups st)
                (fold_left (Grid.placeGroup config rand' quadrantKey) groups st')
    /\ same_progress k k'
         (fold_left (Grid.placeGroup config rand quadrantKey) groups st)
         (fold_left (Grid.placeGroup config rand' quadrantKey) groups st').
Proof.
  induction groups as [|e groups IH]; intros st st' Hl Hp; simpl; [auto|].
  destruct (placeGroup_rel quadrantKey e st st' Hl Hp) as [Hl1 Hp1].
  now apply IH.
Qed.

Lemma placeQuadrants_rel
      (quadrants : list (string * JsObject.Obj (list RadarTechnology))) :
  forall st st',
    same_layout st st' -> same_progress k k' st st' ->
    same_layout (fold_left (Grid.placeQuadrant config rand) quadrants st)
                (fold_left (Grid.placeQuadrant config rand') quadrants st')
    /\ same_progress k k'
         (fold_left (Grid.placeQuadrant config rand) quadrants st)
         (fold_left (Grid.placeQuadrant config rand') quadrants st').
Proof.
  induction quadrants as [|[quadrantKey rings] quadrants IH];
    intros st st' Hl Hp; simpl; [auto|].
  destruct (placeGroups_rel quadrantKey (JsObject.entries rings) st st' Hl Hp)
    as [Hl1 Hp1].
  now apply IH.
Qed.

End GridRuns.

(** ** Variant [Grid]: two runs on the same input *)

Ltac solve_minmax :=
  unfold Rmax, Rmin; repeat (destruct (Rle_dec _ _)); lra.

Lemma PI_bounds : 3 < PI <= 4.
Proof. pose proof PI2_3_2. pose proof PI_4. lra. Qed.

Lemma dist_gt_irrefl (m : Dist) : dist_gt m m = false.
Proof.
  destruct m as [d|]; simpl; [|reflexivity].
  destruct (Rgt_dec d d) as [H|H]; [lra|reflexivity].
Qed.

Section ConstantCandidates.

Variable rand : Grid.Random.
Variable ringConfig : Grid.RingConfig.
Variable quadrantConfig : Grid.QuadrantConfig.
Variables count i : nat.
Variable others : list Position.
Variable p : Position.

Lemma tryAttempts_keep (remaining : nat) :
  forall k,
    (forall j, (j < remaining)%nat ->
               Grid.gridCandidate ringConfig quadrantConfig count i rand (k + 2 * j) = p) ->
    Grid.tryAttempts ringConfig quadrantConfig count i others rand remaining k
                     (Some p) (Grid.minDistanceToOthers (x p) (y p) others)
    = (Some p, (k + 2 * remaining)%nat).
Proof.
  induction remaining as [|remaining IH]; intros k Hc.
  - simpl. f_equal. lia.
  - cbn [Grid.tryAttempts].
    assert (H0 : Grid.gridCandidate ringConfig quadrantConfig count i rand k = p).
    { rewrite <- (Hc 0%nat) by lia. f_equal. lia. }
    rewrite H0, dist_gt_irrefl, andb_false_r.
    rewrite IH.
    + f_equal. lia.
    + intros j Hj. rewrite <- (Hc (S j)) by lia. f_equal. lia.
Qed.

Lemma tryAttempts_first (remaining : nat) (k : nat) :
  (forall j, (j < S remaining)%nat ->
             Grid.gridCandidate ringConfig quadrantConfig count i rand (k + 2 * j) = p) ->
  dist_ge (Grid.minDistanceToOthers (x p) (y p) others) Grid.minDistance = true ->
  dist_gt (Grid.minDistanceToOthers (x p) (y p) others) (Finite 0) = true ->
  Grid.tryAttempts ringConfig quadrantConfig count i others rand (S remaining) k
                   None (Finite 0)
  = (Some p, (k + 2 * S remaining)%nat).
Proof.
  intros Hc Hge Hgt. cbn [Grid.tryAttempts].
  assert (H0 : Grid.gridCandidate ringConfig quadrantConfig count i rand k = p).
  { rewrite <- (Hc 0%nat) by lia. f_equal. lia. }
  rewrite H0, Hge, Hgt. cbn [andb].
  rewrite tryAttempts_keep.
  - f_equal. lia.
  - intros j Hj. rewrite <- (Hc (S j)) by lia. f_equal. lia.
Qed.

End ConstantCandidates.

Lemma platforms_candidate (i : nat) (rand : Grid.Random) (k : nat) :
  Grid.gridCandidate adopt_ring platforms_sector 2 i rand k
  = grid_point
      (Rmax (0.15 + 0.1)
            (Rmin (PI / 2 - 0.15 - 0.1)
                  (0.15 + INR i / 2 * (PI / 2 - 0.15 - 0.15)
                   + (rand k - 0.5) * ((PI / 2 - 0.15 - 0.15) / 6) * 0.8)))
      90.
Proof.
  unfold Grid.gridCandidate, grid_point, Grid.ringMinRadius, Grid.ringMaxRadius.
  cbn [Grid.radius Grid.startAngle Grid.endAngle adopt_ring platforms_sector].
  replace (INR 2) with 2 by (simpl; lra).
  replace (INR (Nat.max 2 6)) with 6 by (simpl; lra).
  assert (Hr : forall radius,
             Rmax (Rmax 60 (120 - 45) + 15) (Rmin (120 - 30 - 15) radius) = 90).
  { intros radius. solve_minmax. }
  now rewrite Hr.
Qed.

Lemma platforms_first_candidate (rand : Grid.Random) (k : nat) :
  0.5 <= rand k <= 0.75 ->
  Grid.gridCandidate adopt_ring platforms_sector 2 0 rand k
  = grid_point (0.15 + 0.1) 90.
Proof.
  intros Hr. rewrite platforms_candidate. f_equal.
  pose proof PI_bounds as Hpi. simpl INR.
  assert (Ht : 0 <= (rand k - 0.5) * ((PI / 2 - 0.15 - 0.15) / 6) * 0.8 <= 0.06)
    by (split; nra).
  set (t := (rand k - 0.5) * ((PI / 2 - 0.15 - 0.15) / 6) * 0.8) in *.
  solve_minmax.
Qed.

Lemma platforms_second_candidate (rand : Grid.Random) (k : nat) :
  0.5 <= rand k <= 0.75 ->
  Grid.gridCandidate adopt_ring platforms_sector 2 1 rand k
  = grid_point (second_angle (rand k)) 90.
Proof.
  intros Hr. rewrite platforms_candidate. f_equal. unfold second_angle.
  pose proof PI_bounds as Hpi. simpl INR.
  assert (Ht : 0 <= (rand k - 0.5) * ((PI / 2 - 0.15 - 0.15) / 6) * 0.8 <= 0.06)
    by (split; nra).
  set (t := (rand k - 0.5) * ((PI / 2 - 0.15 - 0.15) / 6) * 0.8) in *.
  solve_minmax.
Qed.

Lemma second_angle_range (draw : R) :
  0.5 <= draw <= 0.75 -> PI / 4 <= second_angle draw <= PI / 2.
Proof.
  intros Hd. unfold second_angle. pose proof PI_bounds. split; nra.
Qed.

Lemma inv_sqrt2_lower : 0.7 <= 1 / sqrt 2.
Proof.
  assert (Hs : sqrt 2 * sqrt 2 = 2) by (apply sqrt_sqrt; lra).
  assert (Hpos : 0 < sqrt 2) by (apply sqrt_lt_R0; lra).
  assert (Hub : sqrt 2 <= 1.42) by nra.
  apply Rmult_le_reg_r with (sqrt 2); [exact Hpos|].
  unfold Rdiv. rewrite Rmult_assoc, Rinv_l by lra. lra.
Qed.

Lemma second_far_from_first (a : R) :
  PI / 4 <= a <= PI / 2 ->
  32 <= sqrt ((x (grid_point a 90) - x (grid_point (0.15 + 0.1) 90)) ^ 2
              + (y (grid_point a 90) - y (grid_point (0.15 + 0.1) 90)) ^ 2).
Proof.
  intros Ha. simpl. pose proof PI_bounds as Hpi.
  assert (Hsa : 0.7 <= sin a).
  { apply Rle_trans with (sin (PI / 4)).
    - rewrite sin_PI4. apply inv_sqrt2_lower.
    - apply sin_incr_1; lra. }
  assert (Hs0 : sin (0.15 + 0.1) < 0.15 + 0.1) by (apply sin_lt_x; lra).
  set (dx := cos a * 90 - cos (0.15 + 0.1) * 90).
  set (dy := sin a * 90 - sin (0.15 + 0.1) * 90).
  assert (Hdy : 32 <= dy) by (subst dy; lra).
  rewrite <- (sqrt_square 32) by lra.
  apply sqrt_le_1_alt. nra.
Qed.

Lemma two_platforms_positions (rand : Grid.Random) (k : nat) (draw : R) :
  0.5 <= draw <= 0.75 ->
  (forall j, (j < 80)%nat -> rand (k + j)%nat = draw) ->
  Grid.generateGridPositions adopt_ring platforms_sector 2 [] rand k
  = ([grid_point (0.15 + 0.1) 90; grid_point (second_angle draw) 90], (k + 80)%nat).
Proof.
  intros Hd Hrand. unfold Grid.generateGridPositions. cbn [Grid.gridLoop].
  rewrite (tryAttempts_first rand adopt_ring platforms_sector 2 0 ([] ++ [])
                             (grid_point (0.15 + 0.1) 90) 19 k).
  - cbv beta iota. cbn [app].
    rewrite (tryAttempts_first rand adopt_ring platforms_sector 2 1
               [grid_point (0.15 + 0.1) 90]
               (grid_point (second_angle draw) 90) 19 (k + 2 * 20)).
    + cbv beta iota. f_equal. lia.
    + intros j Hj.
      replace (k + 2 * 20 + 2 * j)%nat with (k + (40 + 2 * j))%nat by lia.
      rewrite platforms_second_candidate.
      * now rewrite Hrand by lia.
      * rewrite Hrand by lia. exact Hd.
    + unfold Grid.minDistanceToOthers, Grid.distance. cbn [map fold_left dist_ge].
      pose proof (second_far_from_first (second_angle draw)
                    (second_angle_range draw Hd)) as Hfar.
      unfold Grid.minDistance.
      destruct (Rge_dec _ (8 * 4)) as [_|Hn]; [reflexivity|lra].
    + unfold Grid.minDistanceToOthers, Grid.distance. cbn [map fold_left dist_gt].
      pose proof (second_far_from_first (second_angle draw)
                    (second_angle_range draw Hd)) as Hfar.
      destruct (Rgt_dec _ 0) as [_|Hn]; [reflexivity|lra].
  - intros j Hj. rewrite platforms_first_candidate; [reflexivity|].
    rewrite Hrand by lia. exact Hd.
  - reflexivity.
  - reflexivity.
Qed.

Lemma two_platforms_run (rand : Grid.Random) (k : nat) (draw : R) :
  0.5 <= draw <= 0.75 ->
  (forall j, (j < 80)%nat -> rand (k + j)%nat = draw) ->
  Grid.calculateTechnologyPositions two_platforms four_rings Grid.pristine rand k
  = Grid.Returns (two_platforms_layout draw, (k + 80)%nat, Grid.pristine).
Proof.
  intros Hd Hrand.
  pose proof (two_platforms_positions rand k draw Hd Hrand) as Hgen.
  unfold Grid.calculateTechnologyPositions.
  change (Grid.group Grid.pristine [] two_platforms)
    with (Grid.Returns ([("platforms"%string,
                          [("adopt"%string, [tech_kubernetes; tech_aws])])],
                        Grid.pristine)).
  cbv beta iota.
  change (Grid.layoutReadsHeap four_rings Grid.pristine
            [("platforms"%string, [("adopt"%string, [tech_kubernetes; tech_aws])])])
    with false.
  cbv beta iota.
  change (JsObject.entries [("platforms"%string,
                             [("adopt"%string, [tech_kubernetes; tech_aws])])])
    with [("platforms"%string, [("adopt"%string, [tech_kubernetes; tech_aws])])].
  cbn [fold_left Grid.placeQuadrant].
  change (JsObject.entries [("adopt"%string, [tech_kubernetes; tech_aws])])
    with [("adopt"%string, [tech_kubernetes; tech_aws])].
  cbn [fold_left]. unfold Grid.placeGroup.
  change (JsArray.find
            (fun r => String.eqb (JsString.toLowerCase (Grid.ring_name r)) "adopt")
            four_rings)
    with (Some (0%nat, adopt_ring)).
  change (JsObject.get Grid.quadrantMap "platforms") with (Some platforms_sector).
  cbv beta iota. cbn [Grid.allPositioned Grid.draws List.length].
  rewrite Hgen. reflexivity.
Qed.

(** ** Determinism *)

Lemma v8_positions_from (d1 d2 : list RadarTechnology) :
  map key3 d1 = map key3 d2 ->
  forall l1 l2 i,
    map key3 l1 = map key3 l2 ->
    map V8.position
        (JsArray.map_from
           (fun item globalIndex =>
              V8.mkRadarItem item
                (V8.calculatePosition item (V8.sameRingQuadrant item d1)) globalIndex)
           l1 i)
    = map V8.position
          (JsArray.map_from
             (fun item globalIndex =>
                V8.mkRadarItem item
                  (V8.calculatePosition item (V8.sameRingQuadrant item d2)) globalIndex)
             l2 i).
Proof.
  intros Hd. induction l1 as [|a l1 IH]; intros [|b l2] i Hl; simpl in *;
    try discriminate; [reflexivity|].
  injection Hl as Hn Hq Hr Hl. f_equal.
  - apply v8_calculatePosition_ext.
    + unfold key3. now rewrite Hn, Hq, Hr.
    + now apply v8_sameRingQuadrant_names.
  - now apply IH.
Qed.

(** A run on items whose keys are all plain is followed to its end. *)
Lemma plain_run_followed (technologies : list RadarTechnology)
      (config : Grid.RadarConfig) (heap : Grid.Heap) (rand : Grid.Random) (k : nat) :
  (forall t, In t technologies -> plain_keys heap t) ->
  followed (Grid.calculateTechnologyPositions technologies config heap rand k).
Proof.
  intros Hplain.
  destruct (group_inv heap technologies [] [] GroupInv_init Hplain)
    as (grouped & Hg & Hinv).
  simpl in Hinv. unfold followed, Grid.calculateTechnologyPositions.
  rewrite Hg, (layout_reads_plain config heap grouped technologies Hinv Hplain).
  discriminate.
Qed.

(** C1 (amended).  In the seeded-jitter layout of [radar V8.tsx] the
    coordinate list is a function of the names, categories and levels of
    the items in list order.  The [Grid] layout, whose sampler
    [generateGridPositions] calls [Math.random] and whose grouping reads
    and writes properties of [Object.prototype] and [Object], is a function
    of the items, the configuration, the draws it consumes and the heap it
    starts on: two runs that start on the same heap and receive the same
    draws both return, with the same list and the same heap left behind,
    or both throw, with the same heap left behind.  (Runs in which an array
    left on [Object.prototype] is read as a ring map or as a sector
    configuration are not followed, and nothing is stated about them.) *)
Theorem layout_function_of_items_and_draws :
  (forall d1 d2,
      map key3 d1 = map key3 d2 ->
      map V8.position (V8.processedData d1) = map V8.position (V8.processedData d2))
  /\ (forall technologies config heap rand rand' k k',
         same_draws rand rand' k k' ->
         followed (Grid.calculateTechnologyPositions technologies config heap rand k) ->
         (exists out d d' heap',
             Grid.calculateTechnologyPositions technologies config heap rand k
             = Grid.Returns (out, d, heap')
             /\ Grid.calculateTechnologyPositions technologies config heap rand' k'
                = Grid.Returns (out, d', heap'))
         \/ (exists heap',
                Grid.calculateTechnologyPositions technologies config heap rand k
                = Grid.TypeError heap'
                /\ Grid.calculateTechnologyPositions technologies config heap rand' k'
                   = Grid.TypeError heap')).
Proof.
  split.
  - intros d1 d2 Hd. unfold V8.processedData, JsArray.mapi.
    now apply v8_positions_from.
  - intros technologies config heap rand rand' k k' Hdraws.
    unfold followed, Grid.calculateTechnologyPositions.
    destruct (Grid.group heap [] technologies) as [[grouped heap']|heap'|];
      [|intros _; right; exists heap'; now split|intros H; now destruct H].
    destruct (Grid.layoutReadsHeap config heap' grouped);
      [intros H; now destruct H|].
    intros _. left.
    destruct (placeQuadrants_rel rand rand' k k' config Hdraws
                (JsObject.entries grouped)
                (Grid.mkState [] [] 1 k) (Grid.mkState [] [] 1 k'))
      as [(_ & Hout & _) _].
    + repeat split.
    + exists 0%nat. simpl. split; lia.
    + eexists. eexists. eexists. eexists. split; [reflexivity|].
      now rewrite Hout.
Qed.

Lemma two_platforms_plain :
  forall t, In t two_platforms -> plain_keys Grid.pristine t.
Proof.
  intros t [<-|[<-|[]]]; repeat split; reflexivity.
Qed.

Lemma layout_function_of_items_and_draws_witness :
  (map key3 [dup_rust_1; tech_react] = map key3 [dup_rust_2; tech_react]
   /\ map V8.position (V8.processedData [dup_rust_1; tech_react])
      = map V8.position (V8.processedData [dup_rust_2; tech_react]))
  /\ (same_draws constant_half constant_half 0 7
      /\ followed (Grid.calculateTechnologyPositions two_platforms four_rings
                     Grid.pristine constant_half 0)
      /\ ((exists out d d' heap',
              Grid.calculateTechnologyPositions two_platforms four_rings
                Grid.pristine constant_half 0
              = Grid.Returns (out, d, heap')
              /\ Grid.calculateTechnologyPositions two_platforms four_rings
                   Grid.pristine constant_half 7
                 = Grid.Returns (out, d', heap'))
          \/ (exists heap',
                 Grid.calculateTechnologyPositions two_platforms four_rings
                   Grid.pristine constant_half 0
                 = Grid.TypeError heap'
                 /\ Grid.calculateTechnologyPositions two_platforms four_rings
                      Grid.pristine constant_half 7
                    = Grid.TypeError heap'))).
Proof.
  split.
  - split; [reflexivity|].
    exact (proj1 layout_function_of_items_and_draws
                 [dup_rust_1; tech_react] [dup_rust_2; tech_react] eq_refl).
  - split; [intros j; reflexivity|].
    split; [exact (plain_run_followed two_platforms four_rings Grid.pristine
                                      constant_half 0 two_platforms_plain)|].
    exact (proj2 layout_function_of_items_and_draws two_platforms four_rings
                 Grid.pristine constant_half constant_half 0%nat 7%nat
                 (fun j => eq_refl)
                 (plain_run_followed two_platforms four_rings Grid.pristine
                                     constant_half 0 two_platforms_plain)).
Defined.

Lemma two_phase_draws_first (j : nat) :
  (j < 80)%nat -> two_phase_draws (0 + j)%nat = 0.5.
Proof.
  intros Hj. unfold two_phase_draws. simpl Nat.add.
  now replace (j <? 80)%nat with true by (symmetry; apply Nat.ltb_lt; lia).
Qed.

Lemma two_phase_draws_second (j : nat) :
  (j < 80)%nat -> two_phase_draws (80 + j)%nat = 0.75.
Proof.
  intros Hj. unfold two_phase_draws.
  now replace (80 + j <? 80)%nat with false by (symmetry; apply Nat.ltb_ge; lia).
Qed.

(** C1 (counterexample).  Two technologies of the group Platforms / Adopt
    are laid out twice in a row by the [Grid] variant, started on a heap no
    call has written to, while [Math.random] returns one half during the
    first run and three quarters afterwards.  The first run consumes 80
    draws and leaves the heap as it was; the second run, on the same items,
    configuration and heap, places the second technology at a different
    point. *)
Lemma grid_two_runs_differ :
  Grid.calculateTechnologyPositions two_platforms four_rings Grid.pristine
                                    two_phase_draws 0
  = Grid.Returns (two_platforms_layout 0.5, 80%nat, Grid.pristine)
  /\ Grid.calculateTechnologyPositions two_platforms four_rings Grid.pristine
                                       two_phase_draws 80
     = Grid.Returns (two_platforms_layout 0.75, 160%nat, Grid.pristine)
  /\ two_platforms_layout 0.5 <> two_platforms_layout 0.75.
Proof.
  repeat split.
  - apply (two_platforms_run two_phase_draws 0 0.5); [lra|].
    exact two_phase_draws_first.
  - apply (two_platforms_run two_phase_draws 80 0.75); [lra|].
    exact two_phase_draws_second.
  - unfold two_platforms_layout, grid_point. intros Heq.
    injection Heq as _ Hy.
    pose proof PI_bounds as Hpi.
    assert (Hlt : sin (second_angle 0.5) < sin (second_angle 0.75)).
    { pose proof (second_angle_range 0.5) as H1.
      pose proof (second_angle_range 0.75) as H2.
      apply sin_increasing_1; try lra.
      unfold second_angle. lra. }
    lra.
Qed.

(** ** Polar coordinates *)

Lemma polar_atan_pos (px py : R) :
  0 < px ->
  cos (atan (py / px)) * sqrt (px * px + py * py) = px
  /\ sin (atan (py / px)) * sqrt (px * px + py * py) = py.
Proof.
  intros Hpx.
  assert (Hs : 0 < sqrt (1 + (py / px)²)).
  { apply sqrt_lt_R0. pose proof (Rle_0_sqr (py / px)). lra. }
  assert (Hrho : sqrt (px * px + py * py) = px * sqrt (1 + (py / px)²)).
  { replace (px * px + py * py) with ((px * px) * (1 + (py / px)²))
      by (unfold Rsqr; field; lra).
    rewrite sqrt_mult_alt by nra. now rewrite sqrt_square by lra. }
  rewrite cos_atan, sin_atan, Hrho. split; field; lra.
Qed.


(** ** Jittered polar points *)

Lemma sin_abs_le (t : R) : - Rabs t <= sin t <= Rabs t.
Proof.
  assert (Hpos : forall u, 0 <= u -> - u <= sin u <= u).
  { intros u Hu. destruct (Rle_lt_dec u 1) as [Hsmall|Hbig].
    - pose proof PI_bounds as Hpi.
      assert (0 <= sin u) by (apply sin_ge_0; lra).
      destruct (Req_dec u 0) as [->|Hne]; [rewrite sin_0; lra|].
      assert (sin u < u) by (apply sin_lt_x; lra). lra.
    - pose proof (SIN_bound u). lra. }
  destruct (Rle_lt_dec 0 t) as [Ht|Ht].
  - rewrite Rabs_right by lra. now apply Hpos.
  - rewrite Rabs_left by lra. pose proof (Hpos (- t)) as H.
    rewrite sin_neg in H. lra.
Qed.

Lemma cos_quadratic_lower (t : R) : 1 - t * t / 2 <= cos t.
Proof.
  replace t with (2 * (t / 2)) at 3 by lra. rewrite cos_2a_sin.
  pose proof (sin_abs_le (t / 2)) as Hs.
  assert (Hsq : sin (t / 2) * sin (t / 2) <= (t / 2) * (t / 2)).
  { pose proof (Rabs_pos (t / 2)) as Ha.
    assert (H1 : sin (t / 2) * sin (t / 2) <= Rabs (t / 2) * Rabs (t / 2)) by nra.
    assert (H2 : Rabs (t / 2) * Rabs (t / 2) = (t / 2) * (t / 2)).
    { unfold Rabs. destruct (Rcase_abs _); ring. }
    lra. }
  lra.
Qed.

(** Around the diagonal of a quadrant, cosine and sine stay away from 0. *)
Lemma diagonal_cos_sin (delta : R) :
  Rabs delta <= 0.3 ->
  0.3 <= cos (PI / 4 + delta) /\ 0.3 <= sin (PI / 4 + delta).
Proof.
  intros Hd. rewrite cos_plus, sin_plus, cos_PI4, sin_PI4.
  pose proof inv_sqrt2_lower as Hinv.
  pose proof (sin_abs_le delta) as Hs.
  pose proof (cos_quadratic_lower delta) as Hc.
  assert (Hsq : delta * delta <= 0.09).
  { assert (H2 : Rabs delta * Rabs delta = delta * delta)
      by (unfold Rabs; destruct (Rcase_abs _); ring).
    pose proof (Rabs_pos delta). nra. }
  set (k := 1 / sqrt 2) in *.
  split; nra.
Qed.

Lemma rotated_frame_polar (a0 px py : R) :
  0 < px * cos a0 + py * sin a0 ->
  0 < - px * sin a0 + py * cos a0 ->
  exists angle,
    a0 < angle < a0 + PI / 2
    /\ px = sqrt (px * px + py * py) * cos angle
    /\ py = sqrt (px * px + py * py) * sin angle.
Proof.
  intros Hu Hv.
  set (u := px * cos a0 + py * sin a0) in *.
  set (v := - px * sin a0 + py * cos a0) in *.
  pose proof (sin2_cos2 a0) as Hone. unfold Rsqr in Hone.
  assert (Hnorm : u * u + v * v = px * px + py * py).
  { subst u v.
    replace ((px * cos a0 + py * sin a0) * (px * cos a0 + py * sin a0)
             + (- px * sin a0 + py * cos a0) * (- px * sin a0 + py * cos a0))
      with ((px * px + py * py) * (sin a0 * sin a0 + cos a0 * cos a0)) by ring.
    rewrite Hone. ring. }
  destruct (polar_atan_pos u v Hu) as [Hc Hs]. rewrite Hnorm in Hc, Hs.
  exists (a0 + atan (v / u)). split.
  - pose proof (atan_bound (v / u)) as Hb.
    assert (Hpos : 0 < atan (v / u)).
    { rewrite <- atan_0. apply atan_increasing. now apply Rdiv_lt_0_compat. }
    lra.
  - rewrite cos_plus, sin_plus.
    set (rho := sqrt (px * px + py * py)) in *.
    set (ca := cos (atan (v / u))) in *. set (sa := sin (atan (v / u))) in *.
    assert (Hx : px = u * cos a0 - v * sin a0).
    { subst u v.
      replace ((px * cos a0 + py * sin a0) * cos a0
               - (- px * sin a0 + py * cos a0) * sin a0)
        with (px * (sin a0 * sin a0 + cos a0 * cos a0)) by ring.
      rewrite Hone. ring. }
    assert (Hy : py = u * sin a0 + v * cos a0).
    { subst u v.
      replace ((px * cos a0 + py * sin a0) * sin a0
               + (- px * sin a0 + py * cos a0) * cos a0)
        with (py * (sin a0 * sin a0 + cos a0 * cos a0)) by ring.
      rewrite Hone. ring. }
    split.
    + rewrite Hx at 1. rewrite <- Hc, <- Hs. ring.
    + rewrite Hy at 1. rewrite <- Hc, <- Hs. ring.
Qed.

Lemma product_bound (j t : R) : -4 <= j <= 4 -> -1 <= t <= 1 -> -4 <= j * t <= 4.
Proof. intros Hj Ht. split; nra. Qed.

(** A point sampled at radius [radius] and angle [a0 + phi] and then moved
    by at most 4 along each axis stays strictly inside the quarter sector
    that starts at [a0] and strictly inside a band that leaves a margin of
    18 around the sampled radius. *)
Lemma jittered_point_inside (c a0 phi radius jx jy inner outer : R) :
  -4 <= jx <= 4 -> -4 <= jy <= 4 ->
  28 <= radius -> 0 <= inner -> inner + 18 <= radius <= outer - 18 ->
  0.3 <= cos phi -> 0.3 <= sin phi ->
  strictly_in_sector_band c a0 (a0 + PI / 2) inner outer
    (mkPosition (c + radius * cos (a0 + phi) + jx) (c + radius * sin (a0 + phi) + jy)).
Proof.
  intros Hjx Hjy Hr Hinner Hband Hcos Hsin.
  set (px := radius * cos (a0 + phi) + jx).
  set (py := radius * sin (a0 + phi) + jy).
  pose proof (sin2_cos2 a0) as Hone0. unfold Rsqr in Hone0.
  pose proof (sin2_cos2 (a0 + phi)) as Hone. unfold Rsqr in Hone.
  pose proof (COS_bound a0) as Hc0. pose proof (SIN_bound a0) as Hs0.
  pose proof (COS_bound (a0 + phi)) as Hc. pose proof (SIN_bound (a0 + phi)) as Hs.
  pose proof (product_bound jx (cos a0) Hjx Hc0) as B1.
  pose proof (product_bound jy (sin a0) Hjy Hs0) as B2.
  pose proof (product_bound jx (sin a0) Hjx Hs0) as B3.
  pose proof (product_bound jy (cos a0) Hjy Hc0) as B4.
  pose proof (product_bound jx (cos (a0 + phi)) Hjx Hc) as B5.
  pose proof (product_bound jy (sin (a0 + phi)) Hjy Hs) as B6.
  assert (Hu : px * cos a0 + py * sin a0
               = radius * cos phi + (jx * cos a0 + jy * sin a0)).
  { subst px py. rewrite cos_plus, sin_plus.
    replace ((radius * (cos a0 * cos phi - sin a0 * sin phi) + jx) * cos a0
             + (radius * (sin a0 * cos phi + cos a0 * sin phi) + jy) * sin a0)
      with (radius * cos phi * (sin a0 * sin a0 + cos a0 * cos a0)
            + (jx * cos a0 + jy * sin a0)) by ring.
    rewrite Hone0. ring. }
  assert (Hv : - px * sin a0 + py * cos a0
               = radius * sin phi + (- (jx * sin a0) + jy * cos a0)).
  { subst px py. rewrite cos_plus, sin_plus.
    replace (- (radius * (cos a0 * cos phi - sin a0 * sin phi) + jx) * sin a0
             + (radius * (sin a0 * cos phi + cos a0 * sin phi) + jy) * cos a0)
      with (radius * sin phi * (sin a0 * sin a0 + cos a0 * cos a0)
            + (- (jx * sin a0) + jy * cos a0)) by ring.
    rewrite Hone0. ring. }
  assert (Hupos : 0 < px * cos a0 + py * sin a0) by (rewrite Hu; nra).
  assert (Hvpos : 0 < - px * sin a0 + py * cos a0) by (rewrite Hv; nra).
  destruct (rotated_frame_polar a0 px py Hupos Hvpos) as (angle & Hangle & Hx & Hy).
  assert (Hsq : px * px + py * py
                = radius * radius
                  + 2 * radius * (jx * cos (a0 + phi) + jy * sin (a0 + phi))
                  + (jx * jx + jy * jy)).
  { subst px py.
    replace ((radius * cos (a0 + phi) + jx) * (radius * cos (a0 + phi) + jx)
             + (radius * sin (a0 + phi) + jy) * (radius * sin (a0 + phi) + jy))
      with (radius * radius
            * (sin (a0 + phi) * sin (a0 + phi) + cos (a0 + phi) * cos (a0 + phi))
            + 2 * radius * (jx * cos (a0 + phi) + jy * sin (a0 + phi))
            + (jx * jx + jy * jy)) by ring.
    rewrite Hone. ring. }
  assert (Hjj : 0 <= jx * jx + jy * jy <= 32) by (split; nra).
  set (w := jx * cos (a0 + phi) + jy * sin (a0 + phi)) in *.
  assert (Hw : -8 <= w <= 8) by (subst w; lra).
  assert (Hlow : inner * inner < px * px + py * py) by (rewrite Hsq; nra).
  assert (Hhigh : px * px + py * py < (outer - 10) * (outer - 10)).
  { rewrite Hsq. nra. }
  exists (sqrt (px * px + py * py)), angle. repeat split.
  - rewrite <- (sqrt_square inner) by exact Hinner.
    apply sqrt_lt_1_alt. split; [nra|exact Hlow].
  - apply Rlt_trans with (outer - 10); [|lra].
    rewrite <- (sqrt_square (outer - 10)) by lra.
    apply sqrt_lt_1_alt. split; [nra|exact Hhigh].
  - apply Hangle.
  - apply Hangle.
  - simpl. rewrite <- Hx. subst px. ring.
  - simpl. rewrite <- Hy. subst py. ring.
Qed.

(** ** Variant [V8]: a group of one item *)

Lemma v8_quadrant_quarter (item : RadarTechnology) (qi : nat) (q : V8.Quadrant) :
  V8.findQuadrant item = Some (qi, q) ->
  In q V8.quadrants /\ V8.endAngle q = V8.startAngle q + 90 /\ 0 <= V8.startAngle q.
Proof.
  unfold V8.findQuadrant, JsArray.find, V8.quadrants. cbn [JsArray.find_from].
  repeat match goal with
         | |- context [if ?b then _ else _] => destruct b
         end;
    intros [= <- <-] || discriminate; cbn [V8.startAngle V8.endAngle];
    (split; [simpl; tauto|split; lra]).
Qed.

Lemma v8_ring_band (item : RadarTechnology) (ri : nat) (r : V8.Ring) :
  V8.findRing item = Some (ri, r) ->
  0 <= v8_bandInner ri
  /\ v8_bandInner ri + 15 <= V8.ringMinRadius ri
  /\ 25 <= V8.ringMinRadius ri
  /\ V8.ringMinRadius ri + 6 <= V8.radius r - 15.
Proof.
  unfold V8.findRing, JsArray.find, V8.rings. cbn [JsArray.find_from].
  repeat match goal with
         | |- context [if ?b then _ else _] => destruct b
         end;
    intros [= <- <-] || discriminate;
    unfold v8_bandInner, V8.ringMinRadius, V8.rings, V8.maxRadius, V8.center, V8.size;
    cbn [nth V8.radius]; repeat split; lra.
Qed.

Lemma v8_hash_range (t : R) : 0 <= sin t * 0.5 + 0.5 <= 1.
Proof. pose proof (SIN_bound t). lra. Qed.

(** The angular range of a quadrant of [V8], in radians. *)
Lemma v8_angleRange (q : V8.Quadrant) :
  V8.endAngle q = V8.startAngle q + 90 ->
  (if Rle_dec (V8.endAngle q * PI / 180 - V8.startAngle q * PI / 180) 0
   then V8.endAngle q * PI / 180 - V8.startAngle q * PI / 180 + 2 * PI
   else V8.endAngle q * PI / 180 - V8.startAngle q * PI / 180)
  = PI / 2.
Proof.
  intros ->. pose proof PI_bounds as Hpi.
  destruct (Rle_dec _ 0) as [H|H]; lra.
Qed.

Lemma v8_single_sample (item : RadarTechnology) (only : RadarTechnology)
      (q : V8.Quadrant) (ri : nat) (r : V8.Ring) :
  V8.endAngle q = V8.startAngle q + 90 ->
  V8.ringMinRadius ri + 6 <= V8.radius r - 15 ->
  let s := V8.sample item [only] q ri r in
  V8.angle s
  = V8.startAngle q * PI / 180 + PI / 2 * 0.5 + (V8.random1 s - 0.5) * (PI / 2) * 0.3
  /\ V8.ringMinRadius ri + 3 <= V8.sample_radius s <= V8.radius r - 15 - 3
  /\ 0 <= V8.random1 s <= 1 /\ 0 <= V8.random2 s <= 1 /\ 0 <= V8.random3 s <= 1.
Proof.
  intros Hq Hr s. subst s. unfold V8.sample.
  cbn [V8.angle V8.sample_radius V8.random1 V8.random2 V8.random3 List.length Nat.eqb].
  rewrite (v8_angleRange q Hq). split; [reflexivity|]. split.
  - unfold Rmax, Rmin. repeat (destruct (Rle_dec _ _)); lra.
  - repeat split; apply v8_hash_range.
Qed.

(** C9. When the group of an item holds exactly one item, [radar V8.tsx]
    samples its angle around the middle of the sector (the middle plus a
    jitter of at most 15% of the range) instead of the index-proportional
    formula, and the point it returns lies strictly inside the sector of
    its category and strictly inside the band of its level. *)
Theorem v8_single_item_strictly_inside
        (item only : RadarTechnology) (qi ri : nat) (q : V8.Quadrant) (r : V8.Ring) :
  V8.findQuadrant item = Some (qi, q) ->
  V8.findRing item = Some (ri, r) ->
  let s := V8.sample item [only] q ri r in
  let middle := (V8.startAngle q * PI / 180 + V8.endAngle q * PI / 180) / 2 in
  V8.angle s = middle + (V8.random1 s - 0.5) * (PI / 2) * 0.3
  /\ Rabs (V8.angle s - middle) <= 0.15 * (PI / 2)
  /\ strictly_in_sector_band V8.center
       (V8.startAngle q * PI / 180) (V8.endAngle q * PI / 180)
       (v8_bandInner ri) (V8.radius r)
       (V8.calculatePosition item [only]).
Proof.
  intros Hfq Hfr s middle.
  destruct (v8_quadrant_quarter item qi q Hfq) as (_ & Hq & Hstart).
  destruct (v8_ring_band item ri r Hfr) as (Hinner & Hmargin & Hmin & Hwidth).
  destruct (v8_single_sample item only q ri r Hq Hwidth)
    as (Hangle & Hradius & H1 & H2 & H3).
  fold s in Hangle, Hradius, H1, H2, H3.
  pose proof PI_bounds as Hpi.
  assert (Hmiddle : middle = V8.startAngle q * PI / 180 + PI / 2 * 0.5).
  { subst middle. rewrite Hq. lra. }
  assert (Hdelta : Rabs ((V8.random1 s - 0.5) * (PI / 2) * 0.3) <= 0.15 * (PI / 2)).
  { apply Rabs_le. split; nra. }
  split; [rewrite Hangle, Hmiddle; reflexivity|]. split.
  - rewrite Hangle, Hmiddle.
    replace (V8.startAngle q * PI / 180 + PI / 2 * 0.5
             + (V8.random1 s - 0.5) * (PI / 2) * 0.3
             - (V8.startAngle q * PI / 180 + PI / 2 * 0.5))
      with ((V8.random1 s - 0.5) * (PI / 2) * 0.3) by ring.
    exact Hdelta.
  - unfold V8.calculatePosition. rewrite Hfq, Hfr. fold s. cbv zeta.
    rewrite Hangle.
    replace (V8.endAngle q * PI / 180) with (V8.startAngle q * PI / 180 + PI / 2)
      by (rewrite Hq; lra).
    replace (V8.startAngle q * PI / 180 + PI / 2 * 0.5
             + (V8.random1 s - 0.5) * (PI / 2) * 0.3)
      with (V8.startAngle q * PI / 180
            + (PI / 4 + (V8.random1 s - 0.5) * (PI / 2) * 0.3)) by lra.
    assert (Hdiag : Rabs ((V8.random1 s - 0.5) * (PI / 2) * 0.3) <= 0.3)
      by (apply Rabs_le; split; nra).
    destruct (diagonal_cos_sin _ Hdiag) as [Hcos Hsin].
    apply jittered_point_inside; try assumption; try lra.
Qed.

Lemma v8_single_item_strictly_inside_witness :
  strictly_in_sector_band V8.center (270 * PI / 180) (360 * PI / 180)
    0 (V8.maxRadius * 0.25)
    (V8.calculatePosition dup_rust_1 [dup_rust_1]).
Proof.
  exact (proj2 (proj2 (v8_single_item_strictly_inside
                         dup_rust_1 dup_rust_1 1 0
                         (V8.mkQuadrant "Tools" "tools" 270 360)
                         (V8.mkRing "Adopt" "ADOPT" (V8.maxRadius * 0.25))
                         eq_refl eq_refl))).
Defined.

(** ** The hash of the name "Vue" *)

Lemma PI_tight : 3.1415926495 <= PI <= 3.1415926597.
Proof.
  pose proof (PI_2_3_7_ineq 4) as [Hlo Hhi].
  unfold sum_f_R0, tg_alt, PI_2_3_7_tg, Ratan_seq in Hlo, Hhi.
  simpl in Hlo, Hhi.
  split; lra.
Qed.

Ltac expand_sin_approx H :=
  unfold sin_approx, sin_term in H;
  cbn [sum_f_R0 Nat.mul Nat.add] in H;
  repeat rewrite fact_simpl in H;
  change (fact 0) with 1%nat in H;
  repeat rewrite mult_INR in H;
  simpl in H.

Lemma sin_304_reduced : sin 304 = sin (97 * PI - 304).
Proof.
  rewrite <- (sin_PI_x (97 * PI - 304)).
  rewrite <- (sin_period (PI - (97 * PI - 304)) 48).
  f_equal. rewrite INR_IZR_INZ. simpl. lra.
Qed.

Lemma sin_304_bounds : 0.67020 <= sin 304 <= 0.67021.
Proof.
  rewrite sin_304_reduced. pose proof PI_tight as Hpi.
  assert (Ha : 0.734487 <= 97 * PI - 304 <= 0.734488) by lra.
  split.
  - apply Rle_trans with (sin 0.734487).
    + destruct (pre_sin_bound 0.734487 2) as [Hlo _]; [lra|lra|].
      expand_sin_approx Hlo. lra.
    + apply sin_incr_1; lra.
  - apply Rle_trans with (sin 0.734488).
    + apply sin_incr_1; lra.
    + destruct (pre_sin_bound 0.734488 2) as [_ Hhi]; [lra|lra|].
      expand_sin_approx Hhi. lra.
Qed.

Lemma random_304 : 0 <= TechRadar.random 304 <= 0.1.
Proof.
  unfold TechRadar.random, floor. pose proof sin_304_bounds as Hs.
  assert (Hfloor : Int_part (sin 304 * 10000) = 6702%Z).
  { symmetry. apply Int_part_spec. lra. }
  rewrite Hfloor. lra.
Qed.

(** ** Variant [TechRadar]: where the candidates lie *)

Lemma techradar_random_range (seedValue : R) : 0 <= TechRadar.random seedValue < 1.
Proof. exact (seededRandom_range seedValue). Qed.

Lemma vue_seed : INR (generateSeed "Vue") = 304.
Proof.
  replace (generateSeed "Vue") with 304%nat by reflexivity.
  rewrite INR_IZR_INZ. reflexivity.
Qed.

Lemma vue_processed :
  TechRadar.processedData [vue_item]
  = [TechRadar.mkRadarItem vue_item
       (TechRadar.candidate tools_quadrant 0 adopt_band (INR (generateSeed "Vue")) 0 1 0)
       0].
Proof. reflexivity. Qed.

Lemma tools_angleRange : TechRadar.angleRange tools_quadrant = PI / 2.
Proof.
  unfold TechRadar.angleRange, tools_quadrant. simpl.
  pose proof PI_bounds as Hpi. destruct (Rle_dec _ 0) as [H|H]; lra.
Qed.

(** C3 (evaluation at the failing input).  [tech-radar.tsx] keeps the
    base angle of an item 10% of the range inside its sector and then adds
    an offset of up to 15% of the range, which can carry the angle past the
    padding and past the sector.  For the single item "Vue" of category
    Tools and level ADOPT, which resolves, the name hashes to a value below
    one sixth: the angle is sampled below the start of the sector (270
    degrees) and the point lies to the left of the centre, outside the
    sector of Tools whatever the band. *)
Lemma techradar_vue_leaves_sector :
  exists p,
    map TechRadar.position (TechRadar.processedData [vue_item]) = [p]
    /\ TechRadar.findQuadrant vue_item = Some (1%nat, tools_quadrant)
    /\ TechRadar.findRing vue_item = Some (0%nat, adopt_band)
    /\ x p < TechRadar.center
    /\ ~ in_sector_band TechRadar.center
           (TechRadar.startAngle tools_quadrant * PI / 180)
           (TechRadar.endAngle tools_quadrant * PI / 180)
           0 (TechRadar.radius adopt_band) p.
Proof.
  rewrite vue_processed. eexists. split; [reflexivity|].
  split; [reflexivity|]. split; [reflexivity|].
  pose proof PI_bounds as Hpi.
  assert (Hx : x (TechRadar.candidate tools_quadrant 0 adopt_band
                    (INR (generateSeed "Vue")) 0 1 0) < TechRadar.center).
  { unfold TechRadar.candidate, TechRadar.candidateAngle, TechRadar.candidateRadius.
    cbn [x]. rewrite tools_angleRange, vue_seed.
    replace (304 + INR 0 * 1337) with 304 by (simpl; lra).
    pose proof random_304 as Hr.
    pose proof (techradar_random_range (304 + 1)) as Hp.
    set (rnd := TechRadar.random 304) in *.
    set (progress := TechRadar.random (304 + 1)) in *.
    unfold tools_quadrant, adopt_band, TechRadar.ringMinRadius.
    cbn [TechRadar.startAngle TechRadar.radius].
    replace (INR 0 / Rmax (INR 1 - 1) 1) with 0 by (simpl; lra).
    set (a := 270 * PI / 180 + PI / 2 * 0.8 * 0 + PI / 2 * 0.1
              + (rnd - 0.5) * (PI / 2) * 0.3).
    assert (Ha : PI / 2 < a < 3 * (PI / 2)) by (subst a; split; nra).
    pose proof (cos_lt_0 a (proj1 Ha) (proj2 Ha)) as Hcos.
    assert (Hrad : 25 <= 25 + progress * (60 - 15 - 25)) by nra.
    nra. }
  split; [exact Hx|].
  intros (radius & angle & Hr & Ha & Hxp & _).
  cbn [TechRadar.position] in Hxp.
  unfold tools_quadrant in Ha. cbn [TechRadar.startAngle TechRadar.endAngle] in Ha.
  assert (Hcos : 0 <= cos angle) by (apply cos_ge_0_3PI2; lra).
  assert (Hprod : 0 <= radius * cos angle) by (apply Rmult_le_pos; lra).
  lra.
Qed.

Lemma assign_length {A} (arr : list A) (a : A) :
  forall i, List.length (TechRadar.assign arr i a) = List.length arr.
Proof.
  induction arr as [|b arr IH]; intros [|i]; simpl; try reflexivity.
  now rewrite IH.
Qed.

Lemma techradar_processOne_placed (st : list TechRadar.RadarItem * list TechRadar.RadarItem)
      (globalIndex : nat) :
  (globalIndex < List.length (fst st))%nat ->
  Forall techradar_placed (snd st) ->
  List.length (fst (TechRadar.processOne st globalIndex)) = List.length (fst st)
  /\ Forall techradar_placed (snd (TechRadar.processOne st globalIndex)).
Proof.
  destruct st as [tempItems out]. simpl. intros Hlt Hout.
  unfold TechRadar.processOne.
  destruct (nth_error tempItems globalIndex) as [it|] eqn:E; simpl; [|auto].
  split; [apply assign_length|].
  apply Forall_app. split; [exact Hout|].
  constructor; [|constructor].
  exists tempItems, globalIndex. simpl. auto.
Qed.

Lemma techradar_fold_placed (indices : list nat) :
  forall st,
    (forall k, In k indices -> (k < List.length (fst st))%nat) ->
    Forall techradar_placed (snd st) ->
    Forall techradar_placed (snd (fold_left TechRadar.processOne indices st)).
Proof.
  induction indices as [|k indices IH]; intros st Hidx Hout; simpl; [exact Hout|].
  destruct (techradar_processOne_placed st k (Hidx k (or_introl eq_refl)) Hout)
    as [Hlen Hout'].
  apply IH; [|exact Hout'].
  intros j Hj. rewrite Hlen. apply Hidx. now right.
Qed.

Lemma techradar_processedData_placed (radar_data : list RadarTechnology)
      (o : TechRadar.RadarItem) :
  In o (TechRadar.processedData radar_data) -> techradar_placed o.
Proof.
  unfold TechRadar.processedData. intros Hin.
  assert (Hall : Forall techradar_placed
                   (snd (fold_left TechRadar.processOne
                           (seq 0 (List.length
                                     (JsArray.mapi
                                        (fun t globalIndex =>
                                           TechRadar.mkRadarItem t
                                             (mkPosition TechRadar.center TechRadar.center)
                                             globalIndex)
                                        radar_data)))
                           (JsArray.mapi
                              (fun t globalIndex =>
                                 TechRadar.mkRadarItem t
                                   (mkPosition TechRadar.center TechRadar.center)
                                   globalIndex)
                              radar_data, [])))).
  { apply techradar_fold_placed; [|constructor].
    intros k Hk. simpl. apply in_seq in Hk. lia. }
  rewrite Forall_forall in Hall. now apply Hall.
Qed.

Lemma techradar_quadrant_quarter (t : RadarTechnology) (qi : nat) (q : TechRadar.Quadrant) :
  TechRadar.findQuadrant t = Some (qi, q) ->
  TechRadar.endAngle q = TechRadar.startAngle q + 90.
Proof.
  unfold TechRadar.findQuadrant, JsArray.find, TechRadar.quadrants.
  cbn [JsArray.find_from].
  repeat match goal with
         | |- context [if ?b then _ else _] => destruct b
         end;
    intros [= <- <-] || discriminate; cbn [TechRadar.startAngle TechRadar.endAngle]; lra.
Qed.

Lemma techradar_ring_band (t : RadarTechnology) (ri : nat) (r : TechRadar.Ring) :
  TechRadar.findRing t = Some (ri, r) ->
  25 <= TechRadar.ringMinRadius ri <= TechRadar.radius r - 15.
Proof.
  unfold TechRadar.findRing, JsArray.find, TechRadar.rings. cbn [JsArray.find_from].
  repeat match goal with
         | |- context [if ?b then _ else _] => destruct b
         end;
    intros [= <- <-] || discriminate;
    unfold TechRadar.ringMinRadius, TechRadar.rings;
    cbn [nth TechRadar.radius]; lra.
Qed.

Lemma techradar_angleRange (q : TechRadar.Quadrant) :
  TechRadar.endAngle q = TechRadar.startAngle q + 90 ->
  TechRadar.angleRange q = PI / 2.
Proof.
  intros Hq. unfold TechRadar.angleRange. rewrite Hq.
  pose proof PI_bounds as Hpi. destruct (Rle_dec _ 0) as [H|H]; lra.
Qed.

Lemma normalizedIndex_range (itemIndex total : nat) :
  (itemIndex < total)%nat ->
  0 <= INR itemIndex / Rmax (INR total - 1) 1 <= 1.
Proof.
  intros Hlt.
  assert (Hi : 0 <= INR itemIndex) by apply pos_INR.
  assert (Ht : INR itemIndex <= INR total - 1).
  { replace (INR total - 1) with (INR (total - 1)).
    - apply le_INR. lia.
    - rewrite minus_INR by lia. simpl. lra. }
  assert (Hm : 1 <= Rmax (INR total - 1) 1) by apply Rmax_r.
  assert (Hm' : INR total - 1 <= Rmax (INR total - 1) 1) by apply Rmax_l.
  set (m := Rmax (INR total - 1) 1) in *.
  split.
  - apply Rmult_le_pos; [exact Hi|]. apply Rlt_le, Rinv_0_lt_compat. lra.
  - apply Rmult_le_reg_r with m; [lra|].
    unfold Rdiv. rewrite Rmult_assoc, Rinv_l by lra. lra.
Qed.

(** Every candidate of [tech-radar.tsx] has its radius in the band shrunk
    by the margin and its angle in the sector widened by 5% of the range. *)
Lemma techradar_candidate_region (q : TechRadar.Quadrant) (ri : nat) (r : TechRadar.Ring)
      (seed : R) (itemIndex total attempts : nat) :
  TechRadar.endAngle q = TechRadar.startAngle q + 90 ->
  25 <= TechRadar.ringMinRadius ri <= TechRadar.radius r - 15 ->
  (itemIndex < total)%nat ->
  in_sector_band TechRadar.center
    (TechRadar.startAngle q * PI / 180 - 0.05 * (PI / 2))
    (TechRadar.endAngle q * PI / 180 + 0.05 * (PI / 2))
    (TechRadar.ringMinRadius ri) (TechRadar.radius r - 15)
    (TechRadar.candidate q ri r seed itemIndex total attempts).
Proof.
  intros Hq Hband Hlt. unfold TechRadar.candidate.
  exists (TechRadar.candidateRadius ri r seed attempts),
         (TechRadar.candidateAngle q seed itemIndex total attempts).
  pose proof PI_bounds as Hpi. repeat split; try reflexivity.
  - unfold TechRadar.candidateRadius.
    pose proof (techradar_random_range (seed + INR attempts * 1337 + 1)) as Hp. nra.
  - unfold TechRadar.candidateRadius.
    pose proof (techradar_random_range (seed + INR attempts * 1337 + 1)) as Hp. nra.
  - unfold TechRadar.candidateAngle. rewrite (techradar_angleRange q Hq).
    pose proof (techradar_random_range (seed + INR attempts * 1337)) as Hp.
    pose proof (normalizedIndex_range itemIndex total Hlt) as Hn.
    set (ni := INR itemIndex / Rmax (INR total - 1) 1) in *. nra.
  - unfold TechRadar.candidateAngle. rewrite (techradar_angleRange q Hq), Hq.
    pose proof (techradar_random_range (seed + INR attempts * 1337)) as Hp.
    pose proof (normalizedIndex_range itemIndex total Hlt) as Hn.
    set (ni := INR itemIndex / Rmax (INR total - 1) 1) in *. nra.
Qed.

(** ** Variant [V8]: where the samples lie *)

Lemma find_from_range {A} (p : A -> bool) (l : list A) :
  forall i,
    (exists a, In a l /\ p a = true) ->
    exists j a, JsArray.find_from p l i = Some (j, a)
                /\ (i <= j < i + List.length l)%nat.
Proof.
  induction l as [|b l IH]; intros i (a & Hin & Hp); [destruct Hin|].
  simpl. destruct (p b) eqn:Hb.
  - exists i, b. split; [reflexivity|lia].
  - destruct Hin as [->|Hin]; [congruence|].
    destruct (IH (S i) (ex_intro _ a (conj Hin Hp))) as (j & c & Hf & Hj).
    exists j, c. split; [exact Hf|lia].
Qed.

Lemma findIndex_range {A} (p : A -> bool) (l : list A) :
  (exists a, In a l /\ p a = true) ->
  (0 <= JsArray.findIndex p l < Z.of_nat (List.length l))%Z.
Proof.
  intros Hex. unfold JsArray.findIndex, JsArray.find.
  destruct (find_from_range p l 0 Hex) as (j & a & -> & Hj). lia.
Qed.

Lemma v8_sample_region (item : RadarTechnology) (group : list RadarTechnology)
      (q : V8.Quadrant) (ri : nat) (r : V8.Ring) :
  V8.endAngle q = V8.startAngle q + 90 ->
  V8.ringMinRadius ri + 6 <= V8.radius r - 15 ->
  (exists i, In i group /\ name i = name item) ->
  let s := V8.sample item group q ri r in
  V8.startAngle q * PI / 180 + 0.15 * (PI / 2) <= V8.angle s
    <= V8.endAngle q * PI / 180 - 0.15 * (PI / 2)
  /\ V8.ringMinRadius ri + 3 <= V8.sample_radius s <= V8.radius r - 15 - 3
  /\ 0 <= V8.random2 s <= 1 /\ 0 <= V8.random3 s <= 1.
Proof.
  intros Hq Hr Hex s. subst s. unfold V8.sample.
  cbn [V8.angle V8.sample_radius V8.random2 V8.random3].
  rewrite (v8_angleRange q Hq). pose proof PI_bounds as Hpi.
  pose proof (v8_hash_range (INR (generateSeed (name item)) * 0.1)) as H1.
  set (random1 := sin (INR (generateSeed (name item)) * 0.1) * 0.5 + 0.5) in *.
  split; [|split; [|split; apply v8_hash_range]].
  - destruct (Nat.eqb (List.length group) 1) eqn:Hone.
    + rewrite Hq. split; nra.
    + assert (Hidx : (0 <= JsArray.findIndex
                               (fun i => String.eqb (name i) (name item)) group
                        < Z.of_nat (List.length group))%Z).
      { apply findIndex_range. destruct Hex as (i & Hin & Hn).
        exists i. split; [exact Hin|]. now apply String.eqb_eq. }
      set (idx := JsArray.findIndex (fun i => String.eqb (name i) (name item)) group) in *.
      assert (Hlen : (0 < List.length group)%nat) by lia.
      assert (HT : 1 <= INR (List.length group)).
      { replace 1 with (INR 1) by reflexivity. apply le_INR. lia. }
      assert (HI : 0 <= IZR idx <= INR (List.length group) - 1).
      { rewrite INR_IZR_INZ. split.
        - apply IZR_le. lia.
        - rewrite <- minus_IZR. apply IZR_le. lia. }
      set (T := INR (List.length group)) in *.
      set (step := PI / 2 * 0.7 / T).
      assert (Hstep : 0 <= step).
      { subst step. apply Rmult_le_pos; [lra|].
        apply Rlt_le, Rinv_0_lt_compat. lra. }
      assert (HstepT : step * T = PI / 2 * 0.7) by (subst step; field; lra).
      rewrite Hq. split; nra.
  - unfold Rmax, Rmin. repeat (destruct (Rle_dec _ _)); lra.
Qed.

Lemma v8_sameRingQuadrant_self (item : RadarTechnology) (radar_data : list RadarTechnology) :
  In item radar_data -> In item (V8.sameRingQuadrant item radar_data).
Proof.
  intros Hin. unfold V8.sameRingQuadrant. apply filter_In. split; [exact Hin|].
  now rewrite !String.eqb_refl.
Qed.

(** In exact arithmetic, an output item of [tech-radar.tsx] whose category
    and level are found is at the centre or at one of the sampled
    candidates: at most 5% of the sector width beyond an edge of the
    sector, between [minRadius] and [maxRadius] of its level. *)
Lemma techradar_sampled_region
        (radar_data : list RadarTechnology) (out : TechRadar.RadarItem)
        (qi ri : nat) (q : TechRadar.Quadrant) (r : TechRadar.Ring) :
  In out (TechRadar.processedData radar_data) ->
  TechRadar.findQuadrant (TechRadar.item out) = Some (qi, q) ->
  TechRadar.findRing (TechRadar.item out) = Some (ri, r) ->
  TechRadar.position out = mkPosition TechRadar.center TechRadar.center
  \/ in_sector_band TechRadar.center
       (TechRadar.startAngle q * PI / 180 - 0.05 * (PI / 2))
       (TechRadar.endAngle q * PI / 180 + 0.05 * (PI / 2))
       (TechRadar.ringMinRadius ri) (TechRadar.radius r - 15)
       (TechRadar.position out).
Proof.
  intros Hin Hfq Hfr.
  destruct (techradar_processedData_placed radar_data out Hin)
    as (allItems & itemIndex & Hlt & ->).
  unfold TechRadar.calculatePosition. rewrite Hfq, Hfr.
  pose proof (techradar_quadrant_quarter _ _ _ Hfq) as Hq.
  pose proof (techradar_ring_band _ _ _ Hfr) as Hband.
  unfold TechRadar.resolve.
  destruct (techradar_place_cases
              (TechRadar.candidate q ri r (INR (generateSeed (name (TechRadar.item out))))
                                   itemIndex (List.length allItems))
              (TechRadar.existingPositions (TechRadar.item out) allItems itemIndex)
              TechRadar.minDistance TechRadar.maxAttempts 0%nat
              (mkPosition TechRadar.center TechRadar.center) 0)
    as [(k & _ & -> & _)|[_ [->|(k & _ & ->)]]].
  - right. now apply techradar_candidate_region.
  - left. reflexivity.
  - right. now apply techradar_candidate_region.
Qed.

(** In exact arithmetic, an output item of [radar V8.tsx] whose category
    and level are found is at most 4 along each axis from a point of the
    padded region the clamp keeps: 15% of the sector width from either
    edge, 3 inside [minRadius] and [maxRadius]. *)
Lemma v8_jitter_region
        (radar_data : list RadarTechnology) (out : V8.RadarItem)
        (qi ri : nat) (q : V8.Quadrant) (r : V8.Ring) :
  In out (V8.processedData radar_data) ->
  V8.findQuadrant (V8.item out) = Some (qi, q) ->
  V8.findRing (V8.item out) = Some (ri, r) ->
  exists base,
    in_sector_band V8.center
      (V8.startAngle q * PI / 180 + 0.15 * (PI / 2))
      (V8.endAngle q * PI / 180 - 0.15 * (PI / 2))
      (V8.ringMinRadius ri + 3) (V8.radius r - 15 - 3) base
    /\ Rabs (x (V8.position out) - x base) <= 4
    /\ Rabs (y (V8.position out) - y base) <= 4.
Proof.
  intros Hin Hfq Hfr.
  destruct (v8_processedData_In radar_data out Hin) as [Hitem ->].
  destruct (v8_quadrant_quarter _ _ _ Hfq) as (_ & Hq & _).
  destruct (v8_ring_band _ _ _ Hfr) as (_ & _ & _ & Hwidth).
  destruct (v8_sample_region (V8.item out)
              (V8.sameRingQuadrant (V8.item out) radar_data) q ri r Hq Hwidth)
    as (Hangle & Hradius & H2 & H3).
  { exists (V8.item out). split; [now apply v8_sameRingQuadrant_self|reflexivity]. }
  unfold V8.calculatePosition. rewrite Hfq, Hfr. cbv zeta.
  set (s := V8.sample (V8.item out)
                      (V8.sameRingQuadrant (V8.item out) radar_data) q ri r) in *.
  exists (polar_point V8.center (V8.angle s) (V8.sample_radius s)).
  split; [|split].
  - exists (V8.sample_radius s), (V8.angle s). repeat split; try lra.
  - unfold polar_point. cbn [x y]. apply Rabs_le. lra.
  - unfold polar_point. cbn [x y]. apply Rabs_le. lra.
Qed.

(** ** Margins *)

(** A point of a sector and band lies strictly inside every sector and
    band that leaves a margin around them. *)
Lemma in_sector_band_margin (c a0 a1 inner outer a0' a1' inner' outer' : R)
      (p : Position) :
  in_sector_band c a0 a1 inner outer p ->
  a0' < a0 -> a1 < a1' -> inner' < inner -> outer < outer' ->
  strictly_in_sector_band c a0' a1' inner' outer' p.
Proof.
  intros (radius & angle & Hr & Ha & Hx & Hy) H1 H2 H3 H4.
  exists radius, angle. repeat split; try assumption; lra.
Qed.

(** ** [Seeded]: shape of the output and region of the resolved items *)

Lemma seeded_fold_shape (technologies : list RadarTechnology) :
  forall positioned idCounter,
    let st := fold_left Seeded.positionOne technologies (positioned, idCounter) in
    map Seeded.tech (fst st) = map Seeded.tech positioned ++ technologies
    /\ map Seeded.id (fst st)
       = map Seeded.id positioned ++ seq idCounter (List.length technologies).
Proof.
  induction technologies as [|t technologies IH]; intros positioned idCounter; simpl.
  - now rewrite !app_nil_r.
  - destruct (IH (positioned
                    ++ [Seeded.mkTechnologyPosition t idCounter
                          (fst (Seeded.calculateOptimizedPosition t
                                  (filter (Seeded.sameGroup
                                             (JsString.normalizeKey (quadrant t))
                                             (JsString.toLowerCase (ring t)))
                                          positioned)
                                  (JsNum.Fin 300)))
                          (snd (Seeded.calculateOptimizedPosition t
                                  (filter (Seeded.sameGroup
                                             (JsString.normalizeKey (quadrant t))
                                             (JsString.toLowerCase (ring t)))
                                          positioned)
                                  (JsNum.Fin 300)))])
                 (S idCounter)) as [Ht Hi].
    cbv zeta in Ht, Hi. rewrite Ht, Hi, !map_app. simpl.
    now rewrite <- !app_assoc.
Qed.

(** X1. [Seeded.calculateTechnologyPositions] returns one entry per input
    item, in input order, and numbers the entries 1, 2, ... in that order,
    whether or not the category and level of an item resolve. *)
Theorem seeded_output_in_input_order (technologies : list RadarTechnology) :
  map Seeded.tech (Seeded.calculateTechnologyPositions technologies) = technologies
  /\ map Seeded.id (Seeded.calculateTechnologyPositions technologies)
     = seq 1 (List.length technologies).
Proof.
  unfold Seeded.calculateTechnologyPositions.
  exact (seeded_fold_shape technologies [] 1%nat).
Qed.

(** Every entry of the output of [Seeded] carries the coordinates that
    [calculateOptimizedPosition] returned for its item. *)
Lemma seeded_fold_positioned (P : Seeded.TechnologyPosition -> Prop)
      (HP : forall t items idCounter,
          P (Seeded.mkTechnologyPosition t idCounter
               (fst (Seeded.calculateOptimizedPosition t items (JsNum.Fin 300)))
               (snd (Seeded.calculateOptimizedPosition t items (JsNum.Fin 300)))))
      (technologies : list RadarTechnology) :
  forall positioned idCounter,
    Forall P positioned ->
    Forall P (fst (fold_left Seeded.positionOne technologies (positioned, idCounter))).
Proof.
  induction technologies as [|t technologies IH]; intros positioned idCounter Hall;
    simpl; [exact Hall|].
  apply IH. apply Forall_app. split; [exact Hall|].
  constructor; [apply HP|constructor].
Qed.

Lemma seeded_own_lookup_In {A} (k : string) (obj : list (string * A)) (a : A) :
  Seeded.own_lookup k obj = Some a -> In (k, a) obj.
Proof.
  induction obj as [|[k' b] obj IH]; simpl; [discriminate|].
  destruct (String.eqb k k') eqn:E.
  - apply String.eqb_eq in E. subst k'. intros [= ->]. now left.
  - intros H. right. now apply IH.
Qed.

Lemma seeded_quadrant_own (k : string) (q : Seeded.QuadrantConfig) :
  Seeded.own_lookup k Seeded.quadrantMap = Some q ->
  exists s e,
    Seeded.startAngle q = JsNum.Fin s /\ Seeded.endAngle q = JsNum.Fin e
    /\ e - s = PI / 2 - 0.2.
Proof.
  intros H. apply seeded_own_lookup_In in H. unfold Seeded.quadrantMap in H.
  simpl in H.
  destruct H as [H|[H|[H|[H|[]]]]]; injection H as _ <-; simpl;
    eexists; eexists; (split; [reflexivity|split; [reflexivity|lra]]).
Qed.

Lemma seeded_ring_own (k : string) (r : Seeded.RingConfig) :
  Seeded.own_lookup k Seeded.ringMap = Some r ->
  exists lo hi,
    Seeded.minRadius r = JsNum.Fin lo /\ Seeded.maxRadius r = JsNum.Fin hi
    /\ hi - lo = 60.
Proof.
  intros H. apply seeded_own_lookup_In in H. unfold Seeded.ringMap in H.
  simpl in H.
  destruct H as [H|[H|[H|[H|[]]]]]; injection H as _ <-; simpl;
    eexists; eexists; (split; [reflexivity|split; [reflexivity|lra]]).
Qed.

(** The candidate of any seed lies in the padded sector and band. *)
Lemma seeded_candidate_region (q : Seeded.QuadrantConfig) (r : Seeded.RingConfig)
      (s e lo hi seed : R) :
  Seeded.startAngle q = JsNum.Fin s -> Seeded.endAngle q = JsNum.Fin e ->
  Seeded.minRadius r = JsNum.Fin lo -> Seeded.maxRadius r = JsNum.Fin hi ->
  0 < e - s -> 20 <= hi - lo ->
  exists angle radius,
    Seeded.candidate q r seed = (JsNum.Fin angle, JsNum.Fin radius)
    /\ s + 0.1 * (e - s) <= angle <= e - 0.1 * (e - s)
    /\ lo + 10 <= radius <= hi - 10.
Proof.
  intros Hs He Hlo Hhi Hrange Hband.
  unfold Seeded.candidate. rewrite Hs, He, Hlo, Hhi. simpl.
  destruct (Rle_dec (e - s) 0) as [Hle|_]; [lra|].
  eexists; eexists. split; [reflexivity|].
  pose proof (seededRandom_range seed) as H1.
  pose proof (seededRandom_range (seed + 1)) as H2.
  split; split; nra.
Qed.

(** The loop of [calculateOptimizedPosition] returns the first candidate
    or one of the re-seeded ones. *)
Lemma seeded_retry_is_candidate (collides : Seeded.Polar -> bool)
      (adjusted : nat -> Seeded.Polar) (remaining : nat) :
  forall attempts final,
    Seeded.retry collides adjusted remaining attempts final = final
    \/ exists j, Seeded.retry collides adjusted remaining attempts final = adjusted j.
Proof.
  induction remaining as [|remaining IH]; intros attempts final; simpl; [now left|].
  destruct (collides final); [|now left].
  destruct (IH (S attempts) (adjusted attempts)) as [H|[j H]]; right.
  - now exists attempts.
  - now exists j.
Qed.

Lemma seeded_position_region (t : RadarTechnology)
      (items : list Seeded.TechnologyPosition)
      (q : Seeded.QuadrantConfig) (r : Seeded.RingConfig) :
  Seeded.own_lookup (JsString.normalizeKey (quadrant t)) Seeded.quadrantMap = Some q ->
  Seeded.own_lookup (JsString.toLowerCase (ring t)) Seeded.ringMap = Some r ->
  exists s e lo hi angle radius,
    Seeded.startAngle q = JsNum.Fin s /\ Seeded.endAngle q = JsNum.Fin e
    /\ Seeded.minRadius r = JsNum.Fin lo /\ Seeded.maxRadius r = JsNum.Fin hi
    /\ s + 0.1 * (e - s) <= angle <= e - 0.1 * (e - s)
    /\ lo + 10 <= radius <= hi - 10
    /\ Seeded.calculateOptimizedPosition t items (JsNum.Fin 300)
       = (JsNum.Fin (300 + radius * cos angle), JsNum.Fin (300 + radius * sin angle)).
Proof.
  intros Hq Hr.
  destruct (seeded_quadrant_own _ _ Hq) as (s & e & Hs & He & Hse).
  destruct (seeded_ring_own _ _ Hr) as (lo & hi & Hlo & Hhi & Hband).
  exists s, e, lo, hi.
  unfold Seeded.calculateOptimizedPosition, Seeded.lookup. rewrite Hq, Hr. simpl.
  unfold Seeded.avoidCollisions.
  pose proof PI_bounds as HPI.
  assert (Hcand : forall seed, exists angle radius,
             Seeded.candidate q r seed = (JsNum.Fin angle, JsNum.Fin radius)
             /\ s + 0.1 * (e - s) <= angle <= e - 0.1 * (e - s)
             /\ lo + 10 <= radius <= hi - 10).
  { intros seed. apply seeded_candidate_region; try assumption; lra. }
  match goal with
  | |- context [Seeded.retry ?c ?a ?n ?k ?f] =>
      destruct (seeded_retry_is_candidate c a n k f) as [H|[j H]]; rewrite H
  end.
  - destruct (Hcand (INR (generateSeed (name t)))) as (angle & radius & Hc & Ha & Hrad).
    exists angle, radius. rewrite Hc. repeat split; try tauto.
  - destruct (Hcand (INR (generateSeed (name t)) + INR j + 10))
      as (angle & radius & Hc & Ha & Hrad).
    exists angle, radius. rewrite Hc. repeat split; try tauto.
Qed.

(** X2. In [Seeded], every output item whose category and level are own
    keys of [quadrantMap] and [ringMap] lies, around the centre (300, 300),
    strictly inside its sector and strictly inside its band, whichever
    candidate the retry loop ended on: every candidate is sampled at least
    10% of the angular range from either edge of the sector and at least 10
    from either circle of the band. *)
Theorem seeded_resolved_strictly_inside
        (technologies : list RadarTechnology) (out : Seeded.TechnologyPosition)
        (q : Seeded.QuadrantConfig) (r : Seeded.RingConfig) :
  In out (Seeded.calculateTechnologyPositions technologies) ->
  Seeded.own_lookup (JsString.normalizeKey (quadrant (Seeded.tech out)))
                    Seeded.quadrantMap = Some q ->
  Seeded.own_lookup (JsString.toLowerCase (ring (Seeded.tech out)))
                    Seeded.ringMap = Some r ->
  exists s e lo hi px py,
    Seeded.startAngle q = JsNum.Fin s /\ Seeded.endAngle q = JsNum.Fin e
    /\ Seeded.minRadius r = JsNum.Fin lo /\ Seeded.maxRadius r = JsNum.Fin hi
    /\ Seeded.x out = JsNum.Fin px /\ Seeded.y out = JsNum.Fin py
    /\ strictly_in_sector_band 300 s e lo hi (mkPosition px py).
Proof.
  intros Hin Hq Hr.
  assert (Hall : Forall
                   (fun o => exists items,
                        (Seeded.x o, Seeded.y o)
                        = Seeded.calculateOptimizedPosition (Seeded.tech o) items
                                                            (JsNum.Fin 300))
                   (Seeded.calculateTechnologyPositions technologies)).
  { unfold Seeded.calculateTechnologyPositions.
    apply seeded_fold_positioned; [|constructor].
    intros t items idCounter. exists items. simpl.
    now destruct (Seeded.calculateOptimizedPosition t items (JsNum.Fin 300)). }
  rewrite Forall_forall in Hall. destruct (Hall out Hin) as [items Hpos].
  destruct (seeded_position_region (Seeded.tech out) items q r Hq Hr)
    as (s & e & lo & hi & angle & radius & Hs & He & Hlo & Hhi & Ha & Hrad & Hc).
  rewrite Hc in Hpos. injection Hpos as Hx Hy.
  destruct (seeded_quadrant_own _ q Hq) as (s' & e' & Hs' & He' & Hse).
  rewrite Hs in Hs'. rewrite He in He'. injection Hs' as <-. injection He' as <-.
  pose proof PI_bounds as HPI.
  exists s, e, lo, hi, (300 + radius * cos angle), (300 + radius * sin angle).
  repeat split; try assumption.
  exists radius, angle. simpl. repeat split; try tauto; try lra.
Qed.

Lemma seeded_resolved_strictly_inside_witness :
  exists s e lo hi px py,
    JsNum.Fin (3 * PI / 2 + 0.1) = JsNum.Fin s /\ JsNum.Fin (2 * PI - 0.1) = JsNum.Fin e
    /\ JsNum.Fin 20 = JsNum.Fin lo /\ JsNum.Fin 80 = JsNum.Fin hi
    /\ fst (Seeded.calculateOptimizedPosition tech_react [] (JsNum.Fin 300))
       = JsNum.Fin px
    /\ snd (Seeded.calculateOptimizedPosition tech_react [] (JsNum.Fin 300))
       = JsNum.Fin py
    /\ strictly_in_sector_band 300 s e lo hi (mkPosition px py).
Proof.
  exact (seeded_resolved_strictly_inside [tech_react]
           (Seeded.mkTechnologyPosition tech_react 1
              (fst (Seeded.calculateOptimizedPosition tech_react [] (JsNum.Fin 300)))
              (snd (Seeded.calculateOptimizedPosition tech_react [] (JsNum.Fin 300))))
           (Seeded.mkQuadrantConfig (JsNum.Fin (3 * PI / 2 + 0.1))
                                    (JsNum.Fin (2 * PI - 0.1)) (JsNum.Fin 1))
           (Seeded.mkRingConfig (JsNum.Fin 20) (JsNum.Fin 80) (JsNum.Fin 0))
           (or_introl eq_refl) eq_refl eq_refl).
Defined.

(** ** [radar V8.tsx]: every resolved item, whatever the size of its group *)

(** Within 35% of a quarter turn of the diagonal of a quadrant, cosine and
    sine stay above 0.205. *)
Lemma quarter_cos_sin (delta : R) :
  Rabs delta <= 0.55 ->
  0.205 <= cos (PI / 4 + delta) /\ 0.205 <= sin (PI / 4 + delta).
Proof.
  intros Hd. rewrite cos_plus, sin_plus, cos_PI4, sin_PI4.
  pose proof inv_sqrt2_lower as Hinv.
  pose proof (sin_abs_le delta) as Hs.
  pose proof (cos_quadratic_lower delta) as Hc.
  assert (Hsq : delta * delta <= 0.3025).
  { assert (H2 : Rabs delta * Rabs delta = delta * delta)
      by (unfold Rabs; destruct (Rcase_abs _); ring).
    pose proof (Rabs_pos delta). nra. }
  set (k := 1 / sqrt 2) in *.
  split; nra.
Qed.

(** A move by at most 4 along each axis is a move by less than 5.7 along
    any direction. *)
Lemma jitter_along (jx jy c s : R) :
  -4 <= jx <= 4 -> -4 <= jy <= 4 -> s * s + c * c = 1 ->
  -5.7 < jx * c + jy * s < 5.7.
Proof.
  intros Hjx Hjy Hone.
  assert (Hcs : (jx * c + jy * s) * (jx * c + jy * s)
                + (jx * s - jy * c) * (jx * s - jy * c)
                = (jx * jx + jy * jy) * (s * s + c * c)) by ring.
  rewrite Hone in Hcs.
  assert (Hjj : jx * jx + jy * jy <= 32) by nra.
  set (t := jx * c + jy * s) in *. set (n := jx * s - jy * c) in *.
  assert (Ht : t * t <= 32) by (pose proof (Rle_0_sqr n) as Hn; unfold Rsqr in Hn; lra).
  split; nra.
Qed.

(** The same as [jittered_point_inside] for every sampled angle that keeps
    15% of the quarter turn from either edge of the sector. *)
Lemma jittered_point_inside_sector (c a0 phi radius jx jy inner outer : R) :
  -4 <= jx <= 4 -> -4 <= jy <= 4 ->
  28 <= radius -> 0 <= inner -> inner + 18 <= radius <= outer - 18 ->
  0.205 <= cos phi -> 0.205 <= sin phi ->
  strictly_in_sector_band c a0 (a0 + PI / 2) inner outer
    (mkPosition (c + radius * cos (a0 + phi) + jx) (c + radius * sin (a0 + phi) + jy)).
Proof.
  intros Hjx Hjy Hr Hinner Hband Hcos Hsin.
  set (px := radius * cos (a0 + phi) + jx).
  set (py := radius * sin (a0 + phi) + jy).
  pose proof (sin2_cos2 a0) as Hone0. unfold Rsqr in Hone0.
  pose proof (sin2_cos2 (a0 + phi)) as Hone. unfold Rsqr in Hone.
  pose proof (jitter_along jx jy (cos a0) (sin a0) Hjx Hjy Hone0) as Balong.
  assert (Hone0' : (- sin a0) * (- sin a0) + cos a0 * cos a0 = 1) by lra.
  pose proof (jitter_along jy jx (cos a0) (- sin a0) Hjy Hjx Hone0') as Bacross.
  pose proof (jitter_along jx jy (cos (a0 + phi)) (sin (a0 + phi)) Hjx Hjy Hone) as Bw.
  assert (Hu : px * cos a0 + py * sin a0
               = radius * cos phi + (jx * cos a0 + jy * sin a0)).
  { subst px py. rewrite cos_plus, sin_plus.
    replace ((radius * (cos a0 * cos phi - sin a0 * sin phi) + jx) * cos a0
             + (radius * (sin a0 * cos phi + cos a0 * sin phi) + jy) * sin a0)
      with (radius * cos phi * (sin a0 * sin a0 + cos a0 * cos a0)
            + (jx * cos a0 + jy * sin a0)) by ring.
    rewrite Hone0. ring. }
  assert (Hv : - px * sin a0 + py * cos a0
               = radius * sin phi + (jy * cos a0 + jx * - sin a0)).
  { subst px py. rewrite cos_plus, sin_plus.
    replace (- (radius * (cos a0 * cos phi - sin a0 * sin phi) + jx) * sin a0
             + (radius * (sin a0 * cos phi + cos a0 * sin phi) + jy) * cos a0)
      with (radius * sin phi * (sin a0 * sin a0 + cos a0 * cos a0)
            + (jy * cos a0 + jx * - sin a0)) by ring.
    rewrite Hone0. ring. }
  assert (Hupos : 0 < px * cos a0 + py * sin a0) by (rewrite Hu; nra).
  assert (Hvpos : 0 < - px * sin a0 + py * cos a0) by (rewrite Hv; nra).
  destruct (rotated_frame_polar a0 px py Hupos Hvpos) as (angle & Hangle & Hx & Hy).
  assert (Hsq : px * px + py * py
                = radius * radius
                  + 2 * radius * (jx * cos (a0 + phi) + jy * sin (a0 + phi))
                  + (jx * jx + jy * jy)).
  { subst px py.
    replace ((radius * cos (a0 + phi) + jx) * (radius * cos (a0 + phi) + jx)
             + (radius * sin (a0 + phi) + jy) * (radius * sin (a0 + phi) + jy))
      with (radius * radius
            * (sin (a0 + phi) * sin (a0 + phi) + cos (a0 + phi) * cos (a0 + phi))
            + 2 * radius * (jx * cos (a0 + phi) + jy * sin (a0 + phi))
            + (jx * jx + jy * jy)) by ring.
    rewrite Hone. ring. }
  assert (Hjj : 0 <= jx * jx + jy * jy <= 32) by (split; nra).
  set (w := jx * cos (a0 + phi) + jy * sin (a0 + phi)) in *.
  assert (Hlow : inner * inner < px * px + py * py) by (rewrite Hsq; nra).
  assert (Hhigh : px * px + py * py < (outer - 10) * (outer - 10)).
  { rewrite Hsq. nra. }
  exists (sqrt (px * px + py * py)), angle. repeat split.
  - rewrite <- (sqrt_square inner) by exact Hinner.
    apply sqrt_lt_1_alt. split; [nra|exact Hlow].
  - apply Rlt_trans with (outer - 10); [|lra].
    rewrite <- (sqrt_square (outer - 10)) by lra.
    apply sqrt_lt_1_alt. split; [nra|exact Hhigh].
  - apply Hangle.
  - apply Hangle.
  - simpl. rewrite <- Hx. subst px. ring.
  - simpl. rewrite <- Hy. subst py. ring.
Qed.

(** X3. In [radar V8.tsx] every output item whose category and level are
    found lies strictly inside the sector of its category and strictly
    inside the band of its level, whatever the size of its group: the
    angle keeps 15% of the sector from either edge, the clamp keeps the
    radius 18 from either circle, and the final jitter of at most 4 along
    each axis is smaller than both margins. *)
Theorem v8_resolved_strictly_inside
        (radar_data : list RadarTechnology) (out : V8.RadarItem)
        (qi ri : nat) (q : V8.Quadrant) (r : V8.Ring) :
  In out (V8.processedData radar_data) ->
  V8.findQuadrant (V8.item out) = Some (qi, q) ->
  V8.findRing (V8.item out) = Some (ri, r) ->
  strictly_in_sector_band V8.center
    (V8.startAngle q * PI / 180) (V8.endAngle q * PI / 180)
    (v8_bandInner ri) (V8.radius r)
    (V8.position out).
Proof.
  intros Hin Hfq Hfr.
  destruct (v8_processedData_In radar_data out Hin) as [Hitem ->].
  destruct (v8_quadrant_quarter _ _ _ Hfq) as (_ & Hq & _).
  destruct (v8_ring_band _ _ _ Hfr) as (Hinner & Hmargin & Hmin & Hwidth).
  destruct (v8_sample_region (V8.item out)
              (V8.sameRingQuadrant (V8.item out) radar_data) q ri r Hq Hwidth)
    as (Hangle & Hradius & H2 & H3).
  { exists (V8.item out). split; [now apply v8_sameRingQuadrant_self|reflexivity]. }
  unfold V8.calculatePosition. rewrite Hfq, Hfr. cbv zeta.
  set (s := V8.sample (V8.item out)
                      (V8.sameRingQuadrant (V8.item out) radar_data) q ri r) in *.
  pose proof PI_tight as Hpi.
  set (a0 := V8.startAngle q * PI / 180) in *.
  assert (Hend : V8.endAngle q * PI / 180 = a0 + PI / 2) by (subst a0; rewrite Hq; lra).
  rewrite Hend in *.
  set (delta := V8.angle s - a0 - PI / 4).
  assert (Hdelta : Rabs delta <= 0.55) by (apply Rabs_le; subst delta; split; lra).
  destruct (quarter_cos_sin delta Hdelta) as [Hcos Hsin].
  replace (V8.angle s) with (a0 + (PI / 4 + delta)) by (subst delta; ring).
  apply jittered_point_inside_sector; try assumption; try lra.
Qed.

Lemma v8_resolved_strictly_inside_witness :
  strictly_in_sector_band V8.center (270 * PI / 180) (360 * PI / 180)
    0 (V8.maxRadius * 0.25)
    (V8.calculatePosition tech_react
                          (V8.sameRingQuadrant tech_react [tech_react; tech_docker])).
Proof.
  exact (v8_resolved_strictly_inside [tech_react; tech_docker]
           (V8.mkRadarItem tech_react
              (V8.calculatePosition tech_react
                 (V8.sameRingQuadrant tech_react [tech_react; tech_docker])) 0)
           1 0
           (V8.mkQuadrant "Tools" "tools" 270 360)
           (V8.mkRing "Adopt" "ADOPT" (V8.maxRadius * 0.25))
           (or_introl eq_refl) eq_refl eq_refl).
Defined.

(** ** [tech-radar.tsx]: where the resolved items lie *)

(** X4. In [tech-radar.tsx] every output item whose category and level are
    found is either at the centre or strictly inside the band of its level
    (more than 15 from the circle of the level and from the circle of the
    level before it) at an angle less than 10% of the sector width beyond
    either edge of the sector of its category: the padding of 10% is
    overshot by the random offset of up to 15%. *)
Theorem techradar_points_region
        (radar_data : list RadarTechnology) (out : TechRadar.RadarItem)
        (qi ri : nat) (q : TechRadar.Quadrant) (r : TechRadar.Ring) :
  In out (TechRadar.processedData radar_data) ->
  TechRadar.findQuadrant (TechRadar.item out) = Some (qi, q) ->
  TechRadar.findRing (TechRadar.item out) = Some (ri, r) ->
  TechRadar.position out = mkPosition TechRadar.center TechRadar.center
  \/ strictly_in_sector_band TechRadar.center
       (TechRadar.startAngle q * PI / 180 - 0.1 * (PI / 2))
       (TechRadar.endAngle q * PI / 180 + 0.1 * (PI / 2))
       (TechRadar.ringMinRadius ri - 15) (TechRadar.radius r)
       (TechRadar.position out).
Proof.
  intros Hin Hfq Hfr.
  destruct (techradar_sampled_region radar_data out qi ri q r Hin Hfq Hfr) as [H|H];
    [now left|right].
  pose proof PI_bounds as Hpi.
  apply (in_sector_band_margin _ _ _ _ _ _ _ _ _ _ H); lra.
Qed.

Lemma techradar_points_region_witness :
  TechRadar.calculatePosition vue_item
    [TechRadar.mkRadarItem vue_item (mkPosition TechRadar.center TechRadar.center) 0] 0
  = mkPosition TechRadar.center TechRadar.center
  \/ strictly_in_sector_band TechRadar.center
       (270 * PI / 180 - 0.1 * (PI / 2)) (360 * PI / 180 + 0.1 * (PI / 2))
       (25 - 15) 60
       (TechRadar.calculatePosition vue_item
          [TechRadar.mkRadarItem vue_item
             (mkPosition TechRadar.center TechRadar.center) 0] 0).
Proof.
  exact (techradar_points_region [vue_item]
           (TechRadar.mkRadarItem vue_item
              (TechRadar.calculatePosition vue_item
                 [TechRadar.mkRadarItem vue_item
                    (mkPosition TechRadar.center TechRadar.center) 0] 0) 0)
           1%nat 0%nat tools_quadrant adopt_band
           (or_introl eq_refl) eq_refl eq_refl).
Defined.

(** ** [tech-radar.tsx]: what the second pass of [processedData] builds *)

Lemma techradar_assign_at {A} (done : list A) (it o : A) (rest : list A) :
  TechRadar.assign (done ++ it :: rest) (List.length done) o = done ++ o :: rest.
Proof.
  induction done as [|d done IH]; simpl; [reflexivity|]. now rewrite IH.
Qed.

Lemma techradar_second_pass (rest : list TechRadar.RadarItem) :
  forall done acc,
    exists new,
      fold_left TechRadar.processOne (seq (List.length done) (List.length rest))
                (done ++ rest, acc)
      = (done ++ new, acc ++ new)
      /\ map TechRadar.item new = map TechRadar.item rest
      /\ map TechRadar.id new = map TechRadar.id rest
      /\ forall i o,
          nth_error new i = Some o ->
          TechRadar.position o
          = TechRadar.calculatePosition (TechRadar.item o)
              (done ++ firstn i new ++ skipn i rest) (List.length done + i).
Proof.
  induction rest as [|it rest IH]; intros done acc.
  - exists []. simpl. rewrite !app_nil_r. repeat split.
    intros [|i] o; discriminate.
  - cbn [List.length seq fold_left]. unfold TechRadar.processOne at 2.
    rewrite nth_error_app2 by lia. rewrite Nat.sub_diag. cbn [nth_error].
    rewrite techradar_assign_at.
    set (o := TechRadar.mkRadarItem (TechRadar.item it)
                (TechRadar.calculatePosition (TechRadar.item it) (done ++ it :: rest)
                                             (List.length done))
                (TechRadar.id it)).
    destruct (IH (done ++ [o]) (acc ++ [o])) as (new & Hfold & Hitem & Hid & Hpos).
    rewrite length_app in Hfold, Hpos. simpl in Hfold, Hpos.
    rewrite Nat.add_1_r in Hfold. rewrite <- app_assoc in Hfold. simpl in Hfold.
    exists (o :: new). rewrite Hfold, <- !app_assoc. simpl.
    repeat split; try (f_equal; assumption).
    intros [|i] o' Hnth.
    + simpl in Hnth. injection Hnth as <-. simpl. now rewrite Nat.add_0_r.
    + simpl in Hnth. rewrite (Hpos i o' Hnth). rewrite <- app_assoc. simpl.
      f_equal. lia.
Qed.

Lemma techradar_mapi_temp (radar_data : list RadarTechnology) :
  forall i,
    map TechRadar.item
        (JsArray.map_from
           (fun t globalIndex =>
              TechRadar.mkRadarItem t (mkPosition TechRadar.center TechRadar.center)
                                    globalIndex)
           radar_data i) = radar_data
    /\ map TechRadar.id
           (JsArray.map_from
              (fun t globalIndex =>
                 TechRadar.mkRadarItem t (mkPosition TechRadar.center TechRadar.center)
                                       globalIndex)
              radar_data i) = seq i (List.length radar_data).
Proof.
  induction radar_data as [|t radar_data IH]; intros i; simpl; [now split|].
  destruct (IH (S i)) as [H1 H2]. now rewrite H1, H2.
Qed.

(** The output of [processedData], entry by entry: the items and ids of
    the input, and for each entry the position [calculatePosition] returns
    when the entries before it carry their final positions. *)
Lemma techradar_processedData_entries (radar_data : list RadarTechnology) :
  let out := TechRadar.processedData radar_data in
  map TechRadar.item out = radar_data
  /\ map TechRadar.id out = seq 0 (List.length radar_data)
  /\ forall i o,
      nth_error out i = Some o ->
      exists later,
        List.length (firstn i out ++ later) = List.length radar_data
        /\ TechRadar.position o
           = TechRadar.calculatePosition (TechRadar.item o) (firstn i out ++ later) i.
Proof.
  intros out. subst out. unfold TechRadar.processedData. cbv zeta.
  set (temp := JsArray.mapi _ radar_data).
  destruct (techradar_mapi_temp radar_data 0) as [Htitem Htid].
  fold (JsArray.mapi
          (fun t globalIndex =>
             TechRadar.mkRadarItem t (mkPosition TechRadar.center TechRadar.center)
                                   globalIndex) radar_data) in Htitem, Htid.
  fold temp in Htitem, Htid.
  destruct (techradar_second_pass temp [] []) as (new & Hfold & Hitem & Hid & Hpos).
  simpl in Hfold, Hpos. rewrite Hfold. simpl.
  assert (Hlen : List.length new = List.length radar_data).
  { rewrite <- (length_map TechRadar.item), Hitem, Htitem. reflexivity. }
  assert (Hlent : List.length temp = List.length radar_data).
  { rewrite <- (length_map TechRadar.item temp), Htitem. reflexivity. }
  split; [congruence|]. split; [congruence|].
  intros i o Hnth. exists (skipn i temp). split.
  - assert (Hi : (i < List.length new)%nat) by (apply nth_error_Some; congruence).
    rewrite length_app, length_firstn, length_skipn. lia.
  - now apply Hpos.
Qed.

(** X5. [processedData] of [tech-radar.tsx] returns one entry per input
    item, in input order, with [id] equal to the index of the item, even
    though the second pass overwrites the shared array [tempItems] while
    it maps over it. *)
Theorem techradar_output_in_input_order (radar_data : list RadarTechnology) :
  map TechRadar.item (TechRadar.processedData radar_data) = radar_data
  /\ map TechRadar.id (TechRadar.processedData radar_data)
     = seq 0 (List.length radar_data).
Proof.
  destruct (techradar_processedData_entries radar_data) as (H1 & H2 & _).
  now split.
Qed.

Lemma techradar_existing_siblings (t : RadarTechnology)
      (earlier later : list TechRadar.RadarItem) :
  TechRadar.existingPositions t (earlier ++ later) (List.length earlier)
  = techradar_siblings t earlier.
Proof.
  unfold TechRadar.existingPositions, techradar_siblings.
  now rewrite firstn_app, Nat.sub_diag, firstn_all, app_nil_r.
Qed.

Lemma techradar_resolve_cases (candidate : nat -> Position)
      (existingPositions : list Position) (minDistance : R) (maxAttempts : nat)
      (center : R) :
  (exists k, (k < maxAttempts)%nat
             /\ TechRadar.resolve candidate existingPositions minDistance maxAttempts center
                = candidate k
             /\ clear_of_siblings candidate existingPositions minDistance k)
  \/ forall k, (k < maxAttempts)%nat ->
               hits_sibling candidate existingPositions minDistance k.
Proof.
  unfold TechRadar.resolve.
  destruct (techradar_place_cases candidate existingPositions minDistance maxAttempts 0
              (mkPosition center center) 0)
    as [(k & Hk & Hres & Hclear & _)|[Hall _]].
  - left. exists k. simpl in Hres, Hclear. auto.
  - right. intros k Hk. exact (Hall k Hk).
Qed.

(** X6. In the output of [tech-radar.tsx], an item whose category and
    level resolve keeps the distance [minDistance] (25) from every earlier
    item of the same ring and quadrant, unless each of its fifty candidates
    was closer than that to one of those earlier items. *)
Theorem techradar_no_overlap_unless_exhausted
        (radar_data : list RadarTechnology) (i j : nat)
        (oi oj : TechRadar.RadarItem)
        (qi ri : nat) (q : TechRadar.Quadrant) (r : TechRadar.Ring) :
  (i < j)%nat ->
  nth_error (TechRadar.processedData radar_data) i = Some oi ->
  nth_error (TechRadar.processedData radar_data) j = Some oj ->
  ring (TechRadar.item oi) = ring (TechRadar.item oj) ->
  quadrant (TechRadar.item oi) = quadrant (TechRadar.item oj) ->
  TechRadar.findQuadrant (TechRadar.item oj) = Some (qi, q) ->
  TechRadar.findRing (TechRadar.item oj) = Some (ri, r) ->
  TechRadar.minDistance
  <= TechRadar.distance (x (TechRadar.position oj)) (y (TechRadar.position oj))
                        (TechRadar.position oi)
  \/ forall k,
      (k < TechRadar.maxAttempts)%nat ->
      hits_sibling
        (TechRadar.candidate q ri r (INR (generateSeed (name (TechRadar.item oj))))
                             j (List.length radar_data))
        (techradar_siblings (TechRadar.item oj)
                            (firstn j (TechRadar.processedData radar_data)))
        TechRadar.minDistance k.
Proof.
  intros Hij Hi Hj Hring Hquadrant Hq Hr.
  destruct (techradar_processedData_entries radar_data) as (_ & _ & Hpos).
  cbv zeta in Hpos. destruct (Hpos j oj Hj) as (later & Hlen & Hp).
  remember (TechRadar.processedData radar_data) as out eqn:Hout. clear Hout.
  assert (Hjlt : (j < List.length out)%nat) by (apply nth_error_Some; congruence).
  assert (Hfj : List.length (firstn j out) = j) by (rewrite length_firstn; lia).
  pose proof (techradar_existing_siblings (TechRadar.item oj) (firstn j out) later)
    as Hsib.
  rewrite Hfj in Hsib.
  unfold TechRadar.calculatePosition in Hp. rewrite Hq, Hr, Hlen, Hsib in Hp.
  destruct (techradar_resolve_cases
              (TechRadar.candidate q ri r (INR (generateSeed (name (TechRadar.item oj))))
                                   j (List.length radar_data))
              (techradar_siblings (TechRadar.item oj) (firstn j out))
              TechRadar.minDistance TechRadar.maxAttempts TechRadar.center)
    as [(k & Hk & Hres & Hclear)|Hall].
  - left. rewrite Hp, Hres. apply Hclear.
    unfold techradar_siblings. apply in_map. apply filter_In. split.
    + assert (H : nth_error (firstn j out) i = Some oi).
      { rewrite nth_error_firstn.
        replace (i <? j)%nat with true by (symmetry; apply Nat.ltb_lt; lia).
        exact Hi. }
      now apply nth_error_In in H.
    + rewrite Hring, Hquadrant, !String.eqb_refl. reflexivity.
  - right. exact Hall.
Qed.

Lemma techradar_no_overlap_unless_exhausted_witness :
  TechRadar.minDistance
  <= TechRadar.distance (x (TechRadar.position (vue_and_svelte_out 1)))
                        (y (TechRadar.position (vue_and_svelte_out 1)))
                        (TechRadar.position (vue_and_svelte_out 0))
  \/ forall k,
      (k < TechRadar.maxAttempts)%nat ->
      hits_sibling
        (TechRadar.candidate tools_quadrant 0 adopt_band
           (INR (generateSeed (name (TechRadar.item (vue_and_svelte_out 1)))))
           1 (List.length vue_and_svelte))
        (techradar_siblings (TechRadar.item (vue_and_svelte_out 1))
                            (firstn 1 (TechRadar.processedData vue_and_svelte)))
        TechRadar.minDistance k.
Proof.
  exact (techradar_no_overlap_unless_exhausted vue_and_svelte 0 1
           (vue_and_svelte_out 0) (vue_and_svelte_out 1)
           1 0 tools_quadrant adopt_band
           (le_n 1) eq_refl eq_refl eq_refl eq_refl eq_refl eq_refl).
Defined.

(** ** [tech-radar.tsx]: the position kept when every candidate collides *)

Lemma techradar_scan_hit (minDistance : R) (existingPositions : list Position)
      (px py m : R) :
  (exists e, In e existingPositions /\ TechRadar.distance px py e < minDistance) ->
  fst (TechRadar.scan minDistance existingPositions px py m) = true.
Proof.
  intros (e & He & Hd).
  destruct (fst (TechRadar.scan minDistance existingPositions px py m)) eqn:E;
    [reflexivity|].
  pose proof (techradar_scan_false minDistance existingPositions px py m E e He). lra.
Qed.

Lemma techradar_place_keeps_farthest (candidate : nat -> Position)
      (existingPositions : list Position) (minDistance : R) (remaining : nat) :
  forall attempts bestPosition bestDistance,
    (forall k, (k < remaining)%nat ->
               hits_sibling candidate existingPositions minDistance (attempts + k)) ->
    let p := TechRadar.place candidate existingPositions minDistance remaining attempts
                             bestPosition bestDistance in
    let m := techradar_scanned candidate existingPositions minDistance in
    (p = bestPosition
     /\ forall k, (k < remaining)%nat -> m (attempts + k)%nat <= bestDistance)
    \/ exists k,
        (k < remaining)%nat /\ p = candidate (attempts + k)%nat
        /\ bestDistance < m (attempts + k)%nat
        /\ (forall j, (j < remaining)%nat -> m (attempts + j)%nat <= m (attempts + k)%nat)
        /\ (forall j, (j < k)%nat -> m (attempts + j)%nat < m (attempts + k)%nat).
Proof.
  induction remaining as [|remaining IH]; intros attempts bestPosition bestDistance Hhits p m.
  - left. split; [reflexivity|]. intros k Hk. lia.
  - subst p. cbn [TechRadar.place].
    assert (Hhit0 : hits_sibling candidate existingPositions minDistance attempts).
    { specialize (Hhits 0%nat). rewrite Nat.add_0_r in Hhits. apply Hhits. lia. }
    assert (Hm0 : m attempts
                  = snd (TechRadar.scan minDistance existingPositions
                           (x (candidate attempts)) (y (candidate attempts))
                           TechRadar.MAX_VALUE)) by reflexivity.
    pose proof (techradar_scan_hit minDistance existingPositions
                  (x (candidate attempts)) (y (candidate attempts))
                  TechRadar.MAX_VALUE Hhit0) as Hfst.
    destruct (TechRadar.scan minDistance existingPositions
                (x (candidate attempts)) (y (candidate attempts)) TechRadar.MAX_VALUE)
      as [hasCollision m0].
    simpl in Hfst, Hm0. subst hasCollision.
    assert (Hne : Nat.eqb (List.length existingPositions) 0 = false).
    { destruct Hhit0 as (e & He & _). destruct existingPositions; [destruct He|reflexivity]. }
    rewrite Hne. cbn [negb orb].
    assert (Hshift : forall k, (S attempts + k = attempts + S k)%nat) by (intros; lia).
    assert (Hhits' : forall k, (k < remaining)%nat ->
                               hits_sibling candidate existingPositions minDistance
                                            (S attempts + k)).
    { intros k Hk. rewrite Hshift. apply Hhits. lia. }
    destruct (Rlt_dec bestDistance m0) as [Hlt|Hnlt].
    + destruct (IH (S attempts) (candidate attempts) m0 Hhits')
        as [[Hp Hall]|(k & Hk & Hp & Hbd & Hall & Hbefore)].
      * right. exists 0%nat. rewrite Nat.add_0_r. fold m in Hall.
        repeat split; [lia|exact Hp|rewrite Hm0; exact Hlt| |intros j Hj; lia].
        intros [|j] Hj; [rewrite Nat.add_0_r; lra|].
        rewrite <- Hshift, Hm0. apply Hall. lia.
      * right. exists (S k). rewrite <- !Hshift. fold m in Hbd, Hall, Hbefore.
        repeat split; [lia|exact Hp|lra| |].
        -- intros [|j] Hj; [rewrite Nat.add_0_r; lra|].
           rewrite <- Hshift. apply Hall. lia.
        -- intros [|j] Hj; [rewrite Nat.add_0_r; lra|].
           rewrite <- Hshift. apply Hbefore. lia.
    + destruct (IH (S attempts) bestPosition bestDistance Hhits')
        as [[Hp Hall]|(k & Hk & Hp & Hbd & Hall & Hbefore)].
      * left. fold m in Hall. split; [exact Hp|].
        intros [|j] Hj; [rewrite Nat.add_0_r; lra|].
        rewrite <- Hshift. apply Hall. lia.
      * right. exists (S k). rewrite <- !Hshift. fold m in Hbd, Hall, Hbefore.
        repeat split; [lia|exact Hp|exact Hbd| |].
        -- intros [|j] Hj; [rewrite Nat.add_0_r; lra|].
           rewrite <- Hshift. apply Hall. lia.
        -- intros [|j] Hj; [rewrite Nat.add_0_r; lra|].
           rewrite <- Hshift. apply Hbefore. lia.
Qed.

(** X7. When every candidate of [calculatePosition] in [tech-radar.tsx]
    is closer than [minDistance] to a sibling, the position returned is the
    first candidate for which [minDistanceToExisting], as the scan left it
    when it stopped at the first colliding sibling, is largest; it is the
    centre only when that value is 0 for every candidate. *)
Theorem techradar_fallback_is_farthest_scanned
        (candidate : nat -> Position) (existingPositions : list Position)
        (minDistance : R) (maxAttempts : nat) (center : R) :
  (forall k, (k < maxAttempts)%nat ->
             hits_sibling candidate existingPositions minDistance k) ->
  (TechRadar.resolve candidate existingPositions minDistance maxAttempts center
   = mkPosition center center
   /\ forall k, (k < maxAttempts)%nat ->
                techradar_scanned candidate existingPositions minDistance k <= 0)
  \/ exists k,
      (k < maxAttempts)%nat
      /\ TechRadar.resolve candidate existingPositions minDistance maxAttempts center
         = candidate k
      /\ 0 < techradar_scanned candidate existingPositions minDistance k
      /\ (forall j, (j < maxAttempts)%nat ->
                    techradar_scanned candidate existingPositions minDistance j
                    <= techradar_scanned candidate existingPositions minDistance k)
      /\ (forall j, (j < k)%nat ->
                    techradar_scanned candidate existingPositions minDistance j
                    < techradar_scanned candidate existingPositions minDistance k).
Proof.
  intros Hhits. unfold TechRadar.resolve.
  exact (techradar_place_keeps_farthest candidate existingPositions minDistance
           maxAttempts 0 (mkPosition center center) 0 Hhits).
Qed.

Lemma origin_candidate_hits (k : nat) :
  (k < 3)%nat -> hits_sibling origin_candidate origin_sibling 25 k.
Proof.
  intros _. exists (mkPosition 0 0). split; [now left|].
  unfold TechRadar.distance, origin_candidate. simpl.
  replace ((0 - 0) * ((0 - 0) * 1) + (0 - 0) * ((0 - 0) * 1)) with 0 by ring.
  rewrite sqrt_0. lra.
Qed.

Lemma techradar_fallback_is_farthest_scanned_witness :
  (TechRadar.resolve origin_candidate origin_sibling 25 3 200 = mkPosition 200 200
   /\ forall k, (k < 3)%nat ->
                techradar_scanned origin_candidate origin_sibling 25 k <= 0)
  \/ exists k,
      (k < 3)%nat
      /\ TechRadar.resolve origin_candidate origin_sibling 25 3 200 = origin_candidate k
      /\ 0 < techradar_scanned origin_candidate origin_sibling 25 k
      /\ (forall j, (j < 3)%nat ->
                    techradar_scanned origin_candidate origin_sibling 25 j
                    <= techradar_scanned origin_candidate origin_sibling 25 k)
      /\ (forall j, (j < k)%nat ->
                    techradar_scanned origin_candidate origin_sibling 25 j
                    < techradar_scanned origin_candidate origin_sibling 25 k).
Proof.
  exact (techradar_fallback_is_farthest_scanned origin_candidate origin_sibling 25 3 200
           origin_candidate_hits).
Defined.

(** ** [Grid]: the sampler [generateGridPositions] *)

(** X8. In [generateGridPositions] the bounds of the radial clamp are
    crossed ([maxRadius - 15] lies 15 below [minRadius + 15] or more, for
    every ring radius), so
    [Math.max(minRadius + 15, Math.min(maxRadius - 15, radius))] is
    [minRadius + 15] whatever was sampled: every candidate is
    [(cos(a) * (minRadius + 15), sin(a) * (minRadius + 15))] for the
    clamped angle [a], which is on or beyond the outer bound [maxRadius] of
    the band the sampler computes, and the second draw of an attempt has no
    effect on the candidate. *)
Theorem grid_candidate_radius_is_fixed
        (ringConfig : Grid.RingConfig) (quadrantConfig : Grid.QuadrantConfig)
        (count i : nat) (rand : Grid.Random) (k : nat) :
  (exists angle,
      Grid.gridCandidate ringConfig quadrantConfig count i rand k
      = grid_point angle (Grid.ringMinRadius ringConfig + 15))
  /\ Grid.ringMaxRadius ringConfig - 15 + 15 <= Grid.ringMinRadius ringConfig + 15
  /\ (forall rand' : Grid.Random,
         rand' k = rand k ->
         Grid.gridCandidate ringConfig quadrantConfig count i rand' k
         = Grid.gridCandidate ringConfig quadrantConfig count i rand k).
Proof.
  assert (Hclamp : forall v,
             Rmax (Grid.ringMinRadius ringConfig + 15)
                  (Rmin (Grid.ringMaxRadius ringConfig - 15) v)
             = Grid.ringMinRadius ringConfig + 15).
  { intros v. unfold Grid.ringMinRadius, Grid.ringMaxRadius, Rmax, Rmin.
    repeat (destruct (Rle_dec _ _)); lra. }
  assert (Hmax : Grid.ringMaxRadius ringConfig - 15 <= Grid.ringMinRadius ringConfig).
  { unfold Grid.ringMinRadius, Grid.ringMaxRadius, Rmax.
    destruct (Rle_dec _ _); lra. }
  split; [|split; [lra|]].
  - eexists. unfold Grid.gridCandidate. cbv zeta. rewrite Hclamp. reflexivity.
  - intros rand' Hk. unfold Grid.gridCandidate. cbv zeta.
    now rewrite !Hclamp, Hk.
Qed.

Lemma fold_Rmin_le (ds : list R) :
  forall d, fold_left Rmin ds d <= d
            /\ forall e, In e ds -> fold_left Rmin ds d <= e.
Proof.
  induction ds as [|c ds IH]; intros d; simpl.
  - split; [lra|intros e []].
  - destruct (IH (Rmin d c)) as [H1 H2]. split.
    + pose proof (Rmin_l d c). lra.
    + intros e [<-|He]; [|now apply H2].
      pose proof (Rmin_r d c). lra.
Qed.

Lemma grid_minDistance_clear (px py bound : R) (others : list Position) :
  dist_ge (Grid.minDistanceToOthers px py others) bound = true ->
  forall o, In o others -> bound <= Grid.distance px py o.
Proof.
  unfold Grid.minDistanceToOthers. intros H o Ho.
  apply (in_map (Grid.distance px py)) in Ho.
  destruct (map (Grid.distance px py) others) as [|d ds]; [destruct Ho|].
  simpl in H. destruct (Rge_dec _ _) as [Hge|]; [|discriminate].
  destruct (fold_Rmin_le ds d) as [H1 H2].
  destruct Ho as [<-|Ho]; [lra|]. specialize (H2 _ Ho). lra.
Qed.

(** The candidate kept by the twenty attempts, if any, is one of the
    sampled candidates and clear of the other positions. *)
Lemma grid_tryAttempts_clear (ringConfig : Grid.RingConfig)
      (quadrantConfig : Grid.QuadrantConfig) (count i : nat)
      (others : list Position) (rand : Grid.Random) (k0 : nat) (remaining : nat) :
  forall k bestPosition maxDistance,
    (forall b, bestPosition = Some b ->
               (exists j, b = Grid.gridCandidate ringConfig quadrantConfig count i rand
                                                 (k0 + 2 * j))
               /\ forall o, In o others -> Grid.minDistance <= Grid.distance (x b) (y b) o) ->
    (exists j0, k = (k0 + 2 * j0)%nat) ->
    forall p k',
      Grid.tryAttempts ringConfig quadrantConfig count i others rand remaining k
                       bestPosition maxDistance = (Some p, k') ->
      (exists j, p = Grid.gridCandidate ringConfig quadrantConfig count i rand
                                        (k0 + 2 * j))
      /\ forall o, In o others -> Grid.minDistance <= Grid.distance (x p) (y p) o.
Proof.
  induction remaining as [|remaining IH]; intros k bestPosition maxDistance Hbest [j0 Hk] p k'.
  - simpl. intros [= -> _]. now apply Hbest.
  - cbn [Grid.tryAttempts].
    destruct (dist_ge _ _ && dist_gt _ _) eqn:Hacc.
    + apply IH.
      * intros b [= <-]. apply andb_prop in Hacc. destruct Hacc as [Hge _]. split.
        -- exists j0. now rewrite Hk.
        -- now apply grid_minDistance_clear.
      * exists (S j0). lia.
    + apply IH; [exact Hbest|]. exists (S j0). lia.
Qed.

Lemma grid_tryAttempts_draws (ringConfig : Grid.RingConfig)
      (quadrantConfig : Grid.QuadrantConfig) (count i : nat)
      (others : list Position) (rand : Grid.Random) (remaining : nat) :
  forall k bestPosition maxDistance,
    snd (Grid.tryAttempts ringConfig quadrantConfig count i others rand remaining k
                          bestPosition maxDistance)
    = (k + 2 * remaining)%nat.
Proof.
  induction remaining as [|remaining IH]; intros k bestPosition maxDistance.
  - simpl. lia.
  - cbn [Grid.tryAttempts]. destruct (dist_ge _ _ && dist_gt _ _); rewrite IH; lia.
Qed.

Lemma grid_gridLoop_positions (ringConfig : Grid.RingConfig)
      (quadrantConfig : Grid.QuadrantConfig) (count : nat)
      (existingPositions : list Position) (rand : Grid.Random) (remaining : nat) :
  forall i positions k,
    let res := Grid.gridLoop ringConfig quadrantConfig count existingPositions rand
                             remaining i positions k in
    List.length (fst res) = (List.length positions + remaining)%nat
    /\ snd res = (k + 40 * remaining)%nat
    /\ firstn (List.length positions) (fst res) = positions
    /\ forall n p,
        (List.length positions <= n)%nat ->
        nth_error (fst res) n = Some p ->
        (forall o, In o (existingPositions ++ firstn n (fst res)) ->
                   Grid.minDistance <= Grid.distance (x p) (y p) o)
        \/ p = Grid.findForceBasedPosition ringConfig quadrantConfig
                 (existingPositions ++ firstn n (fst res)) Grid.minDistance.
Proof.
  induction remaining as [|remaining IH]; intros i positions k res.
  - subst res. simpl. repeat split; try lia.
    + apply firstn_all.
    + intros n p Hn Hnth.
      assert (Hlt : (n < List.length positions)%nat).
      { apply nth_error_Some. congruence. }
      lia.
  - subst res. cbn [Grid.gridLoop].
    destruct (Grid.tryAttempts ringConfig quadrantConfig count i
                               (existingPositions ++ positions) rand 20 k None (Finite 0))
      as [bestPosition k1] eqn:Htry.
    set (chosen := match bestPosition with
                   | Some p => p
                   | None => Grid.findForceBasedPosition ringConfig quadrantConfig
                               (existingPositions ++ positions) Grid.minDistance
                   end).
    specialize (IH (S i) (positions ++ [chosen]) k1). cbv zeta in IH.
    destruct IH as (Hlen & Hk & Hpre & Hpos).
    rewrite length_app in Hlen, Hpre, Hpos. simpl in Hlen, Hpre, Hpos.
    assert (Hk1 : k1 = (k + 40)%nat).
    { pose proof (grid_tryAttempts_draws ringConfig quadrantConfig count i
                    (existingPositions ++ positions) rand 20 k None (Finite 0)) as H.
      rewrite Htry in H. simpl in H. lia. }
    assert (Hfirst : firstn (List.length positions)
                            (fst (Grid.gridLoop ringConfig quadrantConfig count
                                    existingPositions rand remaining (S i)
                                    (positions ++ [chosen]) k1)) = positions).
    { transitivity
        (firstn (List.length positions)
                (firstn (List.length positions + 1)
                        (fst (Grid.gridLoop ringConfig quadrantConfig count
                                existingPositions rand remaining (S i)
                                (positions ++ [chosen]) k1)))).
      - rewrite firstn_firstn. f_equal. lia.
      - rewrite Hpre, firstn_app, Nat.sub_diag, firstn_all. simpl. apply app_nil_r. }
    split; [lia|]. split; [lia|]. split; [exact Hfirst|].
    intros n p Hn Hnth.
    destruct (Nat.eq_dec n (List.length positions)) as [->|Hne].
    + rewrite Hfirst.
      assert (Hp : p = chosen).
      { assert (H : nth_error (firstn (List.length positions + 1)
                                 (fst (Grid.gridLoop ringConfig quadrantConfig count
                                         existingPositions rand remaining (S i)
                                         (positions ++ [chosen]) k1)))
                              (List.length positions) = Some p).
        { rewrite nth_error_firstn.
          replace (List.length positions <? List.length positions + 1)%nat with true
            by (symmetry; apply Nat.ltb_lt; lia).
          exact Hnth. }
        rewrite Hpre in H. rewrite nth_error_app2 in H by lia.
        rewrite Nat.sub_diag in H. simpl in H. congruence. }
      subst p. unfold chosen. destruct bestPosition as [b|]; [left|now right].
      destruct (grid_tryAttempts_clear ringConfig quadrantConfig count i
                  (existingPositions ++ positions) rand k 20 k None (Finite 0))
        with (p := b) (k' := k1) as [_ Hclear].
      * intros b' Hb'. discriminate.
      * exists 0%nat. lia.
      * exact Htry.
      * exact Hclear.
    + apply Hpos; [lia|exact Hnth].
Qed.

Lemma grid_positions_length_draws (ringConfig : Grid.RingConfig)
      (quadrantConfig : Grid.QuadrantConfig) (count : nat)
      (existingPositions : list Position) (rand : Grid.Random) (k : nat) :
  List.length (fst (Grid.generateGridPositions ringConfig quadrantConfig count
                                               existingPositions rand k)) = count
  /\ snd (Grid.generateGridPositions ringConfig quadrantConfig count
                                     existingPositions rand k) = (k + 40 * count)%nat.
Proof.
  unfold Grid.generateGridPositions.
  destruct (grid_gridLoop_positions ringConfig quadrantConfig count existingPositions
              rand count 0 [] k) as (Hlen & Hk & _ & _).
  simpl in Hlen. now split.
Qed.

(** X9. [generateGridPositions] returns exactly [count] positions and
    consumes exactly 40 draws of [Math.random] for each (20 attempts of two
    draws).  Every position it returns either keeps the distance
    [minDistance] (32) from all positions that existed before the call and
    from all positions the call returned before it, or is the result of
    [findForceBasedPosition] on those positions. *)
Theorem grid_positions_clear_or_relaxed
        (ringConfig : Grid.RingConfig) (quadrantConfig : Grid.QuadrantConfig)
        (count : nat) (existingPositions : list Position)
        (rand : Grid.Random) (k : nat) :
  let res := Grid.generateGridPositions ringConfig quadrantConfig count
                                        existingPositions rand k in
  List.length (fst res) = count
  /\ snd res = (k + 40 * count)%nat
  /\ forall n p,
      nth_error (fst res) n = Some p ->
      (forall o, In o (existingPositions ++ firstn n (fst res)) ->
                 Grid.minDistance <= Grid.distance (x p) (y p) o)
      \/ p = Grid.findForceBasedPosition ringConfig quadrantConfig
               (existingPositions ++ firstn n (fst res)) Grid.minDistance.
Proof.
  intros res. subst res. unfold Grid.generateGridPositions.
  destruct (grid_gridLoop_positions ringConfig quadrantConfig count existingPositions
              rand count 0 [] k) as (Hlen & Hk & _ & Hpos).
  simpl in Hlen. repeat split; [exact Hlen|exact Hk|].
  intros n p Hnth. apply Hpos; [simpl; lia|exact Hnth].
Qed.

(** ** [Grid]: positions and ids handed to the technologies *)

Lemma grid_placeTechs_state (ringConfig : Grid.RingConfig)
      (quadrantConfig : Grid.QuadrantConfig) (positions : list Position)
      (techs : list RadarTechnology) :
  forall index st,
    (index + List.length techs <= List.length positions)%nat ->
    let st' := Grid.placeTechs ringConfig quadrantConfig positions techs index st in
    Grid.allPositioned st'
    = Grid.allPositioned st ++ firstn (List.length techs) (skipn index positions)
    /\ map Grid.position (Grid.positionedTechnologies st')
       = map Grid.position (Grid.positionedTechnologies st)
         ++ firstn (List.length techs) (skipn index positions)
    /\ map Grid.id (Grid.positionedTechnologies st')
       = map Grid.id (Grid.positionedTechnologies st)
         ++ seq (Grid.idCounter st) (List.length techs)
    /\ Grid.idCounter st' = (Grid.idCounter st + List.length techs)%nat
    /\ Grid.draws st' = Grid.draws st.
Proof.
  induction techs as [|t techs IH]; intros index st Hlen st'; subst st'.
  - simpl. rewrite !app_nil_r. repeat split. lia.
  - cbn [Grid.placeTechs]. simpl in Hlen.
    destruct (nth_error positions index) as [p|] eqn:Hnth.
    2:{ apply nth_error_None in Hnth. lia. }
    assert (Hskip : skipn index positions = p :: skipn (S index) positions).
    { clear -Hnth. revert index Hnth.
      induction positions as [|a positions IHp]; intros [|index] Hnth;
        try discriminate; simpl in *.
      - congruence.
      - now apply IHp. }
    specialize (IH (S index)
                   (Grid.mkState (Grid.allPositioned st ++ [p])
                      (Grid.positionedTechnologies st
                         ++ [Grid.mkTechnologyPosition t (Grid.idCounter st) p])
                      (S (Grid.idCounter st)) (Grid.draws st))).
    cbv zeta in IH. destruct IH as (Ha & Hp & Hi & Hc & Hd); [lia|].
    rewrite Ha, Hp, Hi, Hc, Hd, Hskip. cbn [Grid.allPositioned
      Grid.positionedTechnologies Grid.idCounter Grid.draws List.length firstn seq].
    rewrite !map_app. cbn [map Grid.position Grid.id].
    rewrite <- !app_assoc. repeat split. lia.
Qed.

(** X10. Within a group that is laid out, the technology at index [i] of
    the group receives the [i]-th position returned by
    [generateGridPositions]: the list always holds one position per
    technology, so the alternative [findEmergencyPosition] of
    [positions[index] || findEmergencyPosition(...)] is never taken.  The
    positions of the group are appended, in order, to [allPositioned] and
    to the output. *)
Theorem grid_group_uses_generated_positions
        (config : Grid.RadarConfig) (rand : Grid.Random) (quadrantKey ringKey : string)
        (techs : list RadarTechnology) (st : Grid.State)
        (ringIndex : nat) (ringConfig : Grid.RingConfig)
        (quadrantConfig : Grid.QuadrantConfig) :
  JsArray.find (fun r => String.eqb (JsString.toLowerCase (Grid.ring_name r)) ringKey)
               config = Some (ringIndex, ringConfig) ->
  JsObject.get Grid.quadrantMap quadrantKey = Some quadrantConfig ->
  let positions :=
    fst (Grid.generateGridPositions ringConfig quadrantConfig (List.length techs)
                                    (Grid.allPositioned st) rand (Grid.draws st)) in
  let st' := Grid.placeGroup config rand quadrantKey st (ringKey, techs) in
  Grid.allPositioned st' = Grid.allPositioned st ++ positions
  /\ map Grid.position (Grid.positionedTechnologies st')
     = map Grid.position (Grid.positionedTechnologies st) ++ positions
  /\ Grid.draws st' = (Grid.draws st + 40 * List.length techs)%nat.
Proof.
  intros Hring Hquadrant positions st'. subst positions st'.
  unfold Grid.placeGroup. rewrite Hring, Hquadrant.
  pose proof (grid_positions_length_draws ringConfig quadrantConfig (List.length techs)
                (Grid.allPositioned st) rand (Grid.draws st)) as [Hlen Hk].
  destruct (Grid.generateGridPositions ringConfig quadrantConfig (List.length techs)
              (Grid.allPositioned st) rand (Grid.draws st)) as [positions k'].
  cbn [fst snd] in *.
  destruct (grid_placeTechs_state ringConfig quadrantConfig positions techs 0
              (Grid.mkState (Grid.allPositioned st) (Grid.positionedTechnologies st)
                            (Grid.idCounter st) k'))
    as (Ha & Hp & _ & _ & Hd); [simpl; lia|].
  rewrite Ha, Hp, Hd. cbn [Grid.allPositioned Grid.positionedTechnologies Grid.draws skipn].
  rewrite <- Hlen, firstn_all. repeat split. lia.
Qed.

Lemma grid_group_uses_generated_positions_witness :
  let st := Grid.mkState [] [] 1 0 in
  let positions :=
    fst (Grid.generateGridPositions (Grid.mkRingConfig "Adopt" 120)
           (Grid.mkQuadrantConfig (3 * PI / 2 + 0.15) (2 * PI - 0.15) 1)
           (List.length [tech_react]) (Grid.allPositioned st) constant_half
           (Grid.draws st)) in
  let st' := Grid.placeGroup four_rings constant_half "tools" st ("adopt"%string, [tech_react]) in
  Grid.allPositioned st' = Grid.allPositioned st ++ positions
  /\ map Grid.position (Grid.positionedTechnologies st')
     = map Grid.position (Grid.positionedTechnologies st) ++ positions
  /\ Grid.draws st' = (Grid.draws st + 40 * List.length [tech_react])%nat.
Proof.
  exact (grid_group_uses_generated_positions four_rings constant_half "tools" "adopt"
           [tech_react] (Grid.mkState [] [] 1 0) 0%nat (Grid.mkRingConfig "Adopt" 120)
           (Grid.mkQuadrantConfig (3 * PI / 2 + 0.15) (2 * PI - 0.15) 1)
           eq_refl eq_refl).
Defined.

Lemma grid_placeGroup_ids (config : Grid.RadarConfig) (rand : Grid.Random)
      (quadrantKey : string) (st : Grid.State) (entry : string * list RadarTechnology) :
  grid_ids_consecutive st ->
  grid_ids_consecutive (Grid.placeGroup config rand quadrantKey st entry).
Proof.
  intros [Hids Hc]. destruct entry as [ringKey techs]. unfold Grid.placeGroup.
  destruct (JsArray.find _ config) as [[i ringConfig]|]; [|now split].
  destruct (JsObject.get Grid.quadrantMap quadrantKey) as [quadrantConfig|]; [|now split].
  pose proof (grid_positions_length_draws ringConfig quadrantConfig (List.length techs)
                (Grid.allPositioned st) rand (Grid.draws st)) as [Hlen _].
  destruct (Grid.generateGridPositions ringConfig quadrantConfig (List.length techs)
              (Grid.allPositioned st) rand (Grid.draws st)) as [positions k'].
  cbn [fst] in Hlen.
  destruct (grid_placeTechs_state ringConfig quadrantConfig positions techs 0
              (Grid.mkState (Grid.allPositioned st) (Grid.positionedTechnologies st)
                            (Grid.idCounter st) k'))
    as (_ & Hp & Hi & Hcount & _); [simpl; lia|].
  cbn [Grid.positionedTechnologies Grid.idCounter] in Hp, Hi, Hcount.
  assert (Hl : List.length
                 (Grid.positionedTechnologies
                    (Grid.placeTechs ringConfig quadrantConfig positions techs 0
                       (Grid.mkState (Grid.allPositioned st)
                          (Grid.positionedTechnologies st) (Grid.idCounter st) k')))
               = (List.length (Grid.positionedTechnologies st) + List.length techs)%nat).
  { rewrite <- (length_map Grid.id), Hi, length_app, length_map, length_seq.
    reflexivity. }
  split.
  - rewrite Hi, Hl, Hids, Hc, seq_app. reflexivity.
  - rewrite Hcount, Hl, Hc. lia.
Qed.

Lemma grid_fold_ids {X} (body : Grid.State -> X -> Grid.State) (l : list X) :
  (forall st e, grid_ids_consecutive st -> grid_ids_consecutive (body st e)) ->
  forall st, grid_ids_consecutive st -> grid_ids_consecutive (fold_left body l st).
Proof.
  intros Hbody. induction l as [|e l IH]; intros st Hst; simpl; [exact Hst|].
  apply IH. now apply Hbody.
Qed.

(** X11. Whenever the [Grid] layout returns, the ids of its output are
    1, 2, ..., n in output order: an id reflects the order in which the
    groups are visited, not the index of the item in the input. *)
Theorem grid_ids_in_visit_order
        (technologies : list RadarTechnology) (config : Grid.RadarConfig)
        (heap heap' : Grid.Heap) (rand : Grid.Random) (k k' : nat)
        (out : list Grid.TechnologyPosition) :
  Grid.calculateTechnologyPositions technologies config heap rand k
  = Grid.Returns (out, k', heap') ->
  map Grid.id out = seq 1 (List.length out).
Proof.
  unfold Grid.calculateTechnologyPositions.
  destruct (Grid.group heap [] technologies) as [[grouped heap1]| |]; try discriminate.
  destruct (Grid.layoutReadsHeap config heap1 grouped); [discriminate|].
  intros [= <- _ _].
  apply (grid_fold_ids (Grid.placeQuadrant config rand) (JsObject.entries grouped)).
  - intros st [quadrantKey rings] Hst. unfold Grid.placeQuadrant.
    apply grid_fold_ids; [|exact Hst].
    intros st0 e Hst0. now apply grid_placeGroup_ids.
  - now split.
Qed.

Lemma constant_half_draws (k j : nat) : (j < 80)%nat -> constant_half (k + j)%nat = 0.5.
Proof. reflexivity. Qed.

Lemma grid_ids_in_visit_order_witness :
  map Grid.id (two_platforms_layout 0.5) = seq 1 (List.length (two_platforms_layout 0.5)).
Proof.
  apply (grid_ids_in_visit_order two_platforms four_rings Grid.pristine
           Grid.pristine constant_half 0 (0 + 80) (two_platforms_layout 0.5)).
  apply (two_platforms_run constant_half 0 0.5); [lra|].
  exact (constant_half_draws 0).
Defined.

(** ** [Grid]: the draws a layout consumes *)

Lemma grid_placeGroup_lengths
      (config : Grid.RadarConfig) (rand : Grid.Random) (quadrantKey ringKey : string)
      (techs : list RadarTechnology) (st : Grid.State)
      (ringIndex : nat) (ringConfig : Grid.RingConfig)
      (quadrantConfig : Grid.QuadrantConfig) :
  JsArray.find (fun r => String.eqb (JsString.toLowerCase (Grid.ring_name r)) ringKey)
               config = Some (ringIndex, ringConfig) ->
  JsObject.get Grid.quadrantMap quadrantKey = Some quadrantConfig ->
  let st' := Grid.placeGroup config rand quadrantKey st (ringKey, techs) in
  List.length (Grid.positionedTechnologies st')
  = (List.length (Grid.positionedTechnologies st) + List.length techs)%nat
  /\ Grid.draws st' = (Grid.draws st + 40 * List.length techs)%nat.
Proof.
  intros Hring Hquadrant st'. subst st'.
  unfold Grid.placeGroup. rewrite Hring, Hquadrant.
  pose proof (grid_positions_length_draws ringConfig quadrantConfig (List.length techs)
                (Grid.allPositioned st) rand (Grid.draws st)) as [Hlen Hk].
  destruct (Grid.generateGridPositions ringConfig quadrantConfig (List.length techs)
              (Grid.allPositioned st) rand (Grid.draws st)) as [positions k0].
  cbn [fst snd] in *.
  destruct (grid_placeTechs_state ringConfig quadrantConfig positions techs 0
              (Grid.mkState (Grid.allPositioned st) (Grid.positionedTechnologies st)
                            (Grid.idCounter st) k0))
    as (_ & _ & Hi & _ & Hd); [simpl; lia|].
  cbn [Grid.positionedTechnologies Grid.idCounter Grid.draws] in Hi, Hd.
  split.
  - rewrite <- (length_map Grid.id), Hi, length_app, length_map, length_seq.
    reflexivity.
  - rewrite Hd, Hk. reflexivity.
Qed.

Lemma grid_placeGroup_draws (config : Grid.RadarConfig) (rand : Grid.Random)
      (quadrantKey : string) (k : nat) (st : Grid.State)
      (entry : string * list RadarTechnology) :
  Grid.draws st = (k + 40 * List.length (Grid.positionedTechnologies st))%nat ->
  Grid.draws (Grid.placeGroup config rand quadrantKey st entry)
  = (k + 40 * List.length
             (Grid.positionedTechnologies
                (Grid.placeGroup config rand quadrantKey st entry)))%nat.
Proof.
  intros Hst. destruct entry as [ringKey techs].
  destruct (JsArray.find
              (fun r => String.eqb (JsString.toLowerCase (Grid.ring_name r)) ringKey)
              config) as [[i ringConfig]|] eqn:Hring.
  2:{ unfold Grid.placeGroup. now rewrite Hring. }
  destruct (JsObject.get Grid.quadrantMap quadrantKey) as [quadrantConfig|] eqn:Hq.
  2:{ unfold Grid.placeGroup. now rewrite Hring, Hq. }
  destruct (grid_placeGroup_lengths config rand quadrantKey ringKey
              techs st i ringConfig quadrantConfig Hring Hq) as [Hlen Hd].
  rewrite Hd, Hlen, Hst. lia.
Qed.

Lemma grid_fold_draws {X} (k : nat) (body : Grid.State -> X -> Grid.State)
      (l : list X) :
  (forall st e,
      Grid.draws st = (k + 40 * List.length (Grid.positionedTechnologies st))%nat ->
      Grid.draws (body st e)
      = (k + 40 * List.length (Grid.positionedTechnologies (body st e)))%nat) ->
  forall st,
    Grid.draws st = (k + 40 * List.length (Grid.positionedTechnologies st))%nat ->
    Grid.draws (fold_left body l st)
    = (k + 40 * List.length (Grid.positionedTechnologies (fold_left body l st)))%nat.
Proof.
  intros Hbody. induction l as [|e l IH]; intros st Hst; simpl; [exact Hst|].
  apply IH. now apply Hbody.
Qed.

(** X12. Whenever the [Grid] layout returns, it has called [Math.random]
    exactly 40 times for each item of its output (twenty attempts of two
    draws for each position, whether or not an attempt is kept), and not at
    all for the items of the groups it leaves out. *)
Theorem grid_forty_draws_per_item
        (technologies : list RadarTechnology) (config : Grid.RadarConfig)
        (heap heap' : Grid.Heap) (rand : Grid.Random) (k k' : nat)
        (out : list Grid.TechnologyPosition) :
  Grid.calculateTechnologyPositions technologies config heap rand k
  = Grid.Returns (out, k', heap') ->
  k' = (k + 40 * List.length out)%nat.
Proof.
  unfold Grid.calculateTechnologyPositions.
  destruct (Grid.group heap [] technologies) as [[grouped heap1]| |]; try discriminate.
  destruct (Grid.layoutReadsHeap config heap1 grouped); [discriminate|].
  intros [= <- <- _].
  apply (grid_fold_draws k (Grid.placeQuadrant config rand) (JsObject.entries grouped)).
  - intros st [quadrantKey rings] Hst. unfold Grid.placeQuadrant.
    apply grid_fold_draws; [|exact Hst].
    intros st0 e Hst0. now apply grid_placeGroup_draws.
  - simpl. lia.
Qed.

Lemma grid_forty_draws_per_item_witness :
  (0 + 80 = 0 + 40 * List.length (two_platforms_layout 0.5))%nat.
Proof.
  apply (grid_forty_draws_per_item two_platforms four_rings Grid.pristine
           Grid.pristine constant_half 0 (0 + 80) (two_platforms_layout 0.5)).
  apply (two_platforms_run constant_half 0 0.5); [lra|].
  exact (constant_half_draws 0).
Defined.

(** ** [Grid]: the heap the grouping reads and writes *)

Lemma prototype_extended_names (heap heap' : Grid.Heap)
      (technologies : list RadarTechnology) :
  prototype_extended heap heap' technologies -> same_prototype_names heap heap'.
Proof.
  intros [_ H] k. rewrite (H k).
  destruct (JsObject.get (Grid.prototypeProperties heap) k); split; congruence.
Qed.

Lemma prototype_extended_refl (heap : Grid.Heap) : prototype_extended heap heap [].
Proof.
  split; [reflexivity|]. intros r. unfold pushed_on. simpl.
  destruct (JsObject.get (Grid.prototypeProperties heap) r); [|reflexivity].
  now rewrite app_nil_r.
Qed.

(** One round of the grouping, for a plain category key and a level key
    that is no built-in name. *)
Lemma groupOne_levels (heap0 heap : Grid.Heap) (acc : Grid.Grouped)
      (done : list RadarTechnology) (t : RadarTechnology) :
  prototype_extended heap0 heap done ->
  GroupInv acc (visible heap0 done) ->
  plain_key heap0 (Grid.quadrantKeyOf t) ->
  Grid.prototypeBuiltin (Grid.ringKeyOf t) = false ->
  exists acc' heap',
    Grid.groupOne heap acc t = Grid.Returns (acc', heap')
    /\ prototype_extended heap0 heap' (done ++ [t])
    /\ GroupInv acc' (visible heap0 (done ++ [t])).
Proof.
  intros Hext Hinv [Hqb Hqp] Hrb.
  pose proof (prototype_extended_names heap0 heap done Hext) as Hnames.
  destruct Hext as [Hobj Hproto].
  unfold visible. rewrite filter_app. simpl filter. fold (visible heap0 done).
  destruct (JsObject.get (Grid.prototypeProperties heap0) (Grid.ringKeyOf t))
    as [techs0|] eqn:Hr0.
  - (* the level is hidden: the technology goes to the array of the prototype *)
    assert (Hhid : level_hidden heap0 t = true) by (unfold level_hidden; now rewrite Hr0).
    rewrite Hhid. simpl. rewrite app_nil_r.
    set (qk := Grid.quadrantKeyOf t) in *. set (rk := Grid.ringKeyOf t) in *.
    set (rings0 := match JsObject.get acc qk with Some rings => rings | None => [] end).
    assert (Hr : JsObject.get (Grid.prototypeProperties heap) rk
                 = Some (techs0 ++ pushed_on rk done))
      by (now rewrite Hproto, Hr0).
    assert (Hown : JsObject.get rings0 rk = None).
    { subst rings0. destruct (JsObject.get acc qk) as [rings|] eqn:Hq; [|reflexivity].
      destruct (JsObject.get rings rk) as [techs|] eqn:Hrk; [|reflexivity].
      exfalso.
      pose proof (inv_nonempty _ _ Hinv _ _ _ _ Hq Hrk) as Hne.
      pose proof (inv_lookup _ _ Hinv (qk, rk)) as Hl.
      unfold lookup2 in Hl. cbn [fst snd] in Hl. rewrite Hq, Hrk in Hl.
      destruct techs as [|u techs]; [congruence|].
      assert (Hu : In u (filter (hasKey (qk, rk)) (visible heap0 done)))
        by (rewrite <- Hl; now left).
      apply filter_In in Hu as [Hu Hk]. apply filter_In in Hu as [_ Hv].
      apply hasKey_groupKey in Hk. injection Hk as _ Hk.
      unfold level_hidden in Hv. rewrite Hk in Hv. fold rk in Hv.
      rewrite Hr0 in Hv. discriminate. }
    exists (JsObject.set acc qk rings0),
      (Grid.mkHeap (JsObject.set (Grid.prototypeProperties heap) rk
                                 ((techs0 ++ pushed_on rk done) ++ [t]))
                   (Grid.objectProperties heap)).
    split; [|split].
    + assert (Hinto : Grid.groupInto heap acc qk rings0 rk t
                      = Grid.Returns
                          (JsObject.set acc qk rings0,
                           Grid.mkHeap (JsObject.set (Grid.prototypeProperties heap) rk
                                          ((techs0 ++ pushed_on rk done) ++ [t]))
                                       (Grid.objectProperties heap))).
      { unfold Grid.groupInto. now rewrite Hown, Hrb, Hr. }
      unfold Grid.groupOne. fold qk rk. subst rings0.
      destruct (JsObject.get acc qk) as [rings|] eqn:E; [exact Hinto|].
      unfold Grid.prototypeBuiltin in Hqb. apply orb_false_iff in Hqb as [Hq1 Hq2].
      rewrite Hq1, Hq2.
      assert (Hqh : JsObject.get (Grid.prototypeProperties heap) qk = None)
        by (now apply Hnames).
      rewrite Hqh. exact Hinto.
    + split; [exact Hobj|]. intros r. cbn [Grid.prototypeProperties].
      unfold pushed_on. rewrite filter_app. simpl filter. fold (pushed_on r done).
      destruct (string_dec rk r) as [<-|Hd].
      * rewrite get_set_same, Hr0.
        replace (String.eqb (Grid.ringKeyOf t) rk) with true
          by (symmetry; apply String.eqb_refl).
        now rewrite app_assoc.
      * rewrite get_set_other by exact Hd. rewrite Hproto.
        replace (String.eqb (Grid.ringKeyOf t) r) with false
          by (symmetry; now apply String.eqb_neq).
        destruct (JsObject.get (Grid.prototypeProperties heap0) r); [|reflexivity].
        now rewrite app_nil_r.
    + destruct Hinv as [Hk Hrk Hl Hne]. constructor.
      * now apply set_NoDup.
      * intros qk' rings' Hg. destruct (string_dec qk qk') as [<-|Hd].
        -- rewrite get_set_same in Hg. injection Hg as <-. subst rings0.
           destruct (JsObject.get acc qk) as [rings|] eqn:E; [|constructor].
           now apply (Hrk qk).
        -- rewrite get_set_other in Hg by exact Hd. now apply (Hrk qk').
      * intros [kq kr]. rewrite <- Hl. unfold lookup2. cbn [fst snd].
        destruct (string_dec qk kq) as [<-|Hd].
        -- rewrite get_set_same. subst rings0.
           now destruct (JsObject.get acc qk).
        -- now rewrite get_set_other by exact Hd.
      * intros qk' rings' rk' techs Hg Hg'. destruct (string_dec qk qk') as [<-|Hd].
        -- rewrite get_set_same in Hg. injection Hg as <-. subst rings0.
           destruct (JsObject.get acc qk) as [rings|] eqn:E; [|discriminate].
           now apply (Hne qk rings rk').
        -- rewrite get_set_other in Hg by exact Hd. now apply (Hne qk' rings' rk').
  - (* the level is visible: the technology joins its group *)
    assert (Hvis : level_hidden heap0 t = false) by (unfold level_hidden; now rewrite Hr0).
    rewrite Hvis. simpl.
    assert (Hplain : plain_keys heap t).
    { repeat split; try assumption; now apply Hnames. }
    destruct (groupOne_inv heap acc (visible heap0 done) t Hinv Hplain)
      as (acc' & Hg & Hinv').
    exists acc', heap. split; [exact Hg|]. split; [|exact Hinv'].
    split; [exact Hobj|]. intros r. rewrite Hproto.
    unfold pushed_on. rewrite filter_app. simpl filter.
    destruct (JsObject.get (Grid.prototypeProperties heap0) r) as [techs|] eqn:Hr;
      [|reflexivity].
    destruct (String.eqb (Grid.ringKeyOf t) r) eqn:E; [|now rewrite app_nil_r].
    apply String.eqb_eq in E. congruence.
Qed.

Lemma group_levels (heap0 : Grid.Heap) (technologies : list RadarTechnology) :
  forall heap acc done,
    prototype_extended heap0 heap done ->
    GroupInv acc (visible heap0 done) ->
    (forall t, In t technologies ->
               plain_key heap0 (Grid.quadrantKeyOf t)
               /\ Grid.prototypeBuiltin (Grid.ringKeyOf t) = false) ->
    exists acc' heap',
      Grid.group heap acc technologies = Grid.Returns (acc', heap')
      /\ prototype_extended heap0 heap' (done ++ technologies)
      /\ GroupInv acc' (visible heap0 (done ++ technologies)).
Proof.
  induction technologies as [|t ts IH]; intros heap acc done Hext Hinv Hkeys; simpl.
  - exists acc, heap. now rewrite app_nil_r.
  - destruct (Hkeys t (or_introl eq_refl)) as [Hq Hr].
    destruct (groupOne_levels heap0 heap acc done t Hext Hinv Hq Hr)
      as (acc1 & heap1 & -> & Hext1 & Hinv1).
    destruct (IH heap1 acc1 (done ++ [t]) Hext1 Hinv1) as (acc' & heap' & Hg & He & Hi).
    + intros u Hu. apply Hkeys. now right.
    + exists acc', heap'. rewrite <- app_assoc in He, Hi. auto.
Qed.

(** When every category key is plain, no group of the layout reads the
    heap, whatever the level keys are. *)
Lemma layout_reads_plain_categories (config : Grid.RadarConfig) (heap : Grid.Heap)
      (grouped : Grid.Grouped) (technologies : list RadarTechnology) :
  GroupInv grouped technologies ->
  (forall t, In t technologies -> plain_key heap (Grid.quadrantKeyOf t)) ->
  Grid.layoutReadsHeap config heap grouped = false.
Proof.
  intros Hinv Hplain. apply not_true_is_false. intros H.
  unfold Grid.layoutReadsHeap in H.
  apply existsb_exists in H as (e & He & H).
  apply existsb_exists in H as (e' & He' & H).
  assert (Hkey : In (fst e, fst e') (map fst (visitedGroups grouped))).
  { apply in_map_iff. exists ((fst e, fst e'), snd e'). split; [reflexivity|].
    unfold visitedGroups. apply in_flat_map. exists e. split; [exact He|].
    apply in_map_iff. exists e'. split; [reflexivity|exact He']. }
  apply (visited_keys grouped technologies Hinv) in Hkey as (t & Ht & Hkey).
  destruct (Hplain t Ht) as [Hqb Hqp].
  injection Hkey as Hq _. rewrite Hq in Hqb, Hqp.
  unfold Grid.groupReadsHeap in H.
  destruct (JsArray.find _ config); [|discriminate].
  destruct (JsObject.get Grid.quadrantMap (fst e)); [discriminate|].
  rewrite Hqb, Hqp in H. discriminate.
Qed.

Lemma visible_In (heap : Grid.Heap) (technologies : list RadarTechnology)
      (t : RadarTechnology) :
  In t (visible heap technologies) <->
  In t technologies
  /\ JsObject.get (Grid.prototypeProperties heap) (Grid.ringKeyOf t) = None.
Proof.
  unfold visible, level_hidden. rewrite filter_In.
  destruct (JsObject.get (Grid.prototypeProperties heap) (Grid.ringKeyOf t));
    simpl; split; intros [H1 H2]; split; congruence.
Qed.

(** X13. State carried between calls.  When the category keys are plain
    and no level key is [__proto__] or [constructor], the [Grid] layout
    returns, but the technologies whose level key names a property that an
    earlier call left on [Object.prototype] are missing from its output:
    they are pushed, in input order, on the array that property holds.  The
    other technologies are returned group by group as usual. *)
Theorem grid_levels_on_prototype_vanish
        (technologies : list RadarTechnology) (config : Grid.RadarConfig)
        (heap : Grid.Heap) (rand : Grid.Random) (k : nat) :
  (forall t, In t technologies ->
             plain_key heap (Grid.quadrantKeyOf t)
             /\ Grid.prototypeBuiltin (Grid.ringKeyOf t) = false) ->
  exists out k' heap' keys,
    Grid.calculateTechnologyPositions technologies config heap rand k
    = Grid.Returns (out, k', heap')
    /\ prototype_extended heap heap' technologies
    /\ NoDup keys
    /\ (forall key,
           In key keys <->
           resolvable config key = true
           /\ exists t, In t (visible heap technologies) /\ groupKey t = key)
    /\ map Grid.tech out
       = flat_map (fun key => filter (hasKey key) (visible heap technologies)) keys.
Proof.
  intros Hkeys.
  destruct (group_levels heap technologies heap [] [] (prototype_extended_refl heap)
              GroupInv_init Hkeys) as (grouped & heap' & Hg & Hext & Hinv).
  simpl in Hext, Hinv.
  pose proof (prototype_extended_names heap heap' technologies Hext) as Hnames.
  assert (Hreads : Grid.layoutReadsHeap config heap' grouped = false).
  { apply (layout_reads_plain_categories config heap' grouped
                                         (visible heap technologies) Hinv).
    intros t Ht. apply visible_In in Ht as [Ht _].
    destruct (Hkeys t Ht) as [[Hqb Hqp] _]. split; [exact Hqb|now apply Hnames]. }
  destruct (grid_output_techs technologies config heap heap' rand k grouped Hg Hreads)
    as (out & k' & Hcalc & Hout).
  exists out, k', heap',
    (map fst (filter (fun g => resolvable config (fst g)) (visitedGroups grouped))).
  split; [exact Hcalc|]. split; [exact Hext|]. split; [|split].
  - apply resolved_keys_NoDup.
    now apply (visited_NoDup grouped (visible heap technologies)).
  - intros key. rewrite <- (visited_keys grouped (visible heap technologies) Hinv key).
    rewrite !in_map_iff. split.
    + intros (g & <- & Hin). apply filter_In in Hin as [Hin Hres].
      split; [exact Hres|]. exists g. auto.
    + intros (Hres & g & <- & Hin). exists g. split; [reflexivity|].
      apply filter_In. auto.
  - rewrite Hout. apply resolved_groups_flat.
    intros [key techs] Hin. simpl.
    now apply (visited_techs grouped (visible heap technologies) Hinv).
Qed.

Lemma grid_levels_on_prototype_vanish_witness :
  exists out k' heap' keys,
    Grid.calculateTechnologyPositions [tech_kubernetes; tech_react] four_rings
                                      adopt_left_behind constant_half 0
    = Grid.Returns (out, k', heap')
    /\ prototype_extended adopt_left_behind heap' [tech_kubernetes; tech_react]
    /\ NoDup keys
    /\ (forall key,
           In key keys <->
           resolvable four_rings key = true
           /\ exists t, In t (visible adopt_left_behind [tech_kubernetes; tech_react])
                        /\ groupKey t = key)
    /\ map Grid.tech out
       = flat_map (fun key => filter (hasKey key)
                                     (visible adopt_left_behind
                                              [tech_kubernetes; tech_react]))
                  keys.
Proof.
  apply (grid_levels_on_prototype_vanish [tech_kubernetes; tech_react] four_rings
           adopt_left_behind constant_half 0).
  intros t [<-|[<-|[]]]; repeat split; reflexivity.
Defined.

Lemma group_app (l l' : list RadarTechnology) :
  forall heap acc acc' heap',
    Grid.group heap acc l = Grid.Returns (acc', heap') ->
    Grid.group heap acc (l ++ l') = Grid.group heap' acc' l'.
Proof.
  induction l as [|t l IH]; intros heap acc acc' heap'; simpl.
  - now intros [= -> ->].
  - destruct (Grid.groupOne heap acc t) as [[acc1 heap1]| |]; try discriminate.
    apply IH.
Qed.

(** In a grouping built from plain keys, an own category key is the key of
    a technology and an own level key is the key of a technology. *)
Lemma GroupInv_level_key (acc : Grid.Grouped) (done : list RadarTechnology)
      (qk rk : string) (rings : JsObject.Obj (list RadarTechnology))
      (techs : list RadarTechnology) :
  GroupInv acc done ->
  JsObject.get acc qk = Some rings -> JsObject.get rings rk = Some techs ->
  exists u, In u done /\ groupKey u = (qk, rk).
Proof.
  intros Hinv Hq Hr.
  pose proof (inv_nonempty _ _ Hinv _ _ _ _ Hq Hr) as Hne.
  pose proof (inv_lookup _ _ Hinv (qk, rk)) as Hl.
  unfold lookup2 in Hl. cbn [fst snd] in Hl. rewrite Hq, Hr in Hl.
  destruct techs as [|u techs]; [congruence|].
  assert (Hu : In u (filter (hasKey (qk, rk)) done)) by (rewrite <- Hl; now left).
  apply filter_In in Hu as [Hu Hk]. exists u. split; [exact Hu|].
  now apply hasKey_groupKey.
Qed.

Lemma prototypeBuiltin_objectBuiltin (k : string) :
  Grid.prototypeBuiltin k = true -> Grid.objectBuiltin k = true.
Proof.
  unfold Grid.prototypeBuiltin. intros H. apply orb_true_iff in H.
  destruct H as [H|H]; apply String.eqb_eq in H; subst k; reflexivity.
Qed.

(** X14. One malformed item aborts the batch.  When the items before it
    have plain keys, an item whose lower-cased level is [__proto__] or
    [constructor] makes the whole call throw a [TypeError], whatever its
    category and whatever follows it (its category key naming no array left
    on [Object.prototype], its level key no array left on [Object]): no
    item is laid out, and the heap is left as it was. *)
Theorem grid_builtin_level_throws
        (before after : list RadarTechnology) (t : RadarTechnology)
        (config : Grid.RadarConfig) (heap : Grid.Heap) (rand : Grid.Random) (k : nat) :
  (forall u, In u before -> plain_keys heap u) ->
  Grid.prototypeBuiltin (Grid.ringKeyOf t) = true ->
  JsObject.get (Grid.prototypeProperties heap) (Grid.quadrantKeyOf t) = None ->
  JsObject.get (Grid.objectProperties heap) (Grid.ringKeyOf t) = None ->
  Grid.calculateTechnologyPositions (before ++ t :: after) config heap rand k
  = Grid.TypeError heap.
Proof.
  intros Hplain Hrb Hqp Hro.
  destruct (group_inv heap before [] [] GroupInv_init Hplain) as (grouped & Hg & Hinv).
  simpl in Hinv.
  unfold Grid.calculateTechnologyPositions.
  rewrite (group_app before (t :: after) heap [] grouped heap Hg).
  cbn [Grid.group].
  assert (Hone : Grid.groupOne heap grouped t = Grid.TypeError heap).
  { assert (Hinto : forall rings,
               (forall techs, JsObject.get rings (Grid.ringKeyOf t) <> Some techs) ->
               Grid.groupInto heap grouped (Grid.quadrantKeyOf t) rings
                              (Grid.ringKeyOf t) t = Grid.TypeError heap).
    { intros rings Hnone. unfold Grid.groupInto.
      destruct (JsObject.get rings (Grid.ringKeyOf t)) as [techs|];
        [now destruct (Hnone techs)|].
      now rewrite Hrb. }
    unfold Grid.groupOne.
    destruct (JsObject.get grouped (Grid.quadrantKeyOf t)) as [rings|] eqn:Hq.
    - apply Hinto. intros techs Hr.
      destruct (GroupInv_level_key grouped before _ _ rings techs Hinv Hq Hr)
        as (u & Hu & Hkey).
      destruct (Hplain u Hu) as [_ [Hub _]].
      injection Hkey as _ Hkey. rewrite Hkey in Hub. congruence.
    - destruct (String.eqb (Grid.quadrantKeyOf t) "__proto__").
      + unfold Grid.groupOnPrototype. now rewrite Hrb.
      + destruct (String.eqb (Grid.quadrantKeyOf t) "constructor").
        * unfold Grid.groupOnObject.
          now rewrite Hro, (prototypeBuiltin_objectBuiltin _ Hrb).
        * rewrite Hqp. apply Hinto. intros techs. discriminate. }
  now rewrite Hone.
Qed.

Lemma grid_builtin_level_throws_witness :
  Grid.calculateTechnologyPositions
    ([tech_react; tech_kubernetes] ++ constructor_ring_item :: [tech_docker])
    four_rings Grid.pristine constant_half 0
  = Grid.TypeError Grid.pristine.
Proof.
  apply (grid_builtin_level_throws [tech_react; tech_kubernetes] [tech_docker]
           constructor_ring_item four_rings Grid.pristine constant_half 0).
  - intros u [<-|[<-|[]]]; repeat split; reflexivity.
  - reflexivity.
  - reflexivity.
  - reflexivity.
Defined.

Lemma groupOne_category_keys (heap : Grid.Heap) (acc : Grid.Grouped)
      (t : RadarTechnology) (acc' : Grid.Grouped) (heap' : Grid.Heap) (q : string) :
  Grid.groupOne heap acc t = Grid.Returns (acc', heap') ->
  In q (map fst acc') -> In q (map fst acc) \/ Grid.quadrantKeyOf t = q.
Proof.
  assert (Hset : forall rings,
             In q (map fst (JsObject.set acc (Grid.quadrantKeyOf t) rings)) ->
             In q (map fst acc) \/ Grid.quadrantKeyOf t = q).
  { intros rings. rewrite set_keys.
    destruct (in_dec string_dec (Grid.quadrantKeyOf t) (map fst acc)); [tauto|].
    rewrite in_app_iff. simpl. tauto. }
  assert (Hinto : forall rings,
             Grid.groupInto heap acc (Grid.quadrantKeyOf t) rings (Grid.ringKeyOf t) t
             = Grid.Returns (acc', heap') ->
             In q (map fst acc') -> In q (map fst acc) \/ Grid.quadrantKeyOf t = q).
  { intros rings. unfold Grid.groupInto.
    destruct (JsObject.get rings (Grid.ringKeyOf t)).
    - intros [= <- _]. apply Hset.
    - destruct (Grid.prototypeBuiltin (Grid.ringKeyOf t)); [discriminate|].
      destruct (JsObject.get (Grid.prototypeProperties heap) (Grid.ringKeyOf t));
        intros [= <- _]; apply Hset. }
  unfold Grid.groupOne.
  destruct (JsObject.get acc (Grid.quadrantKeyOf t)); [apply Hinto|].
  destruct (String.eqb (Grid.quadrantKeyOf t) "__proto__").
  { unfold Grid.groupOnPrototype.
    destruct (Grid.prototypeBuiltin (Grid.ringKeyOf t)); [discriminate|].
    destruct (JsObject.get (Grid.prototypeProperties heap) (Grid.ringKeyOf t));
      intros [= <- _]; tauto. }
  destruct (String.eqb (Grid.quadrantKeyOf t) "constructor").
  { unfold Grid.groupOnObject.
    destruct (JsObject.get (Grid.objectProperties heap) (Grid.ringKeyOf t));
      [intros [= <- _]; tauto|].
    destruct (Grid.objectBuiltin (Grid.ringKeyOf t)); [discriminate|].
    destruct (JsObject.get (Grid.prototypeProperties heap) (Grid.ringKeyOf t));
      intros [= <- _]; tauto. }
  destruct (JsObject.get (Grid.prototypeProperties heap) (Grid.quadrantKeyOf t));
    [discriminate|apply Hinto].
Qed.

(** Every own category key of a grouping is the category key of one of
    the items grouped. *)
Lemma group_category_keys (technologies : list RadarTechnology) (q : string) :
  forall heap acc acc' heap',
    Grid.group heap acc technologies = Grid.Returns (acc', heap') ->
    In q (map fst acc') ->
    In q (map fst acc) \/ exists t, In t technologies /\ Grid.quadrantKeyOf t = q.
Proof.
  induction technologies as [|t l IH]; intros heap acc acc' heap'; simpl.
  - intros [= <- _]. tauto.
  - destruct (Grid.groupOne heap acc t) as [[acc1 heap1]| |] eqn:E; try discriminate.
    intros Hg Hin. destruct (IH _ _ _ _ Hg Hin) as [H|(u & Hu & Hk)].
    + destruct (groupOne_category_keys _ _ _ _ _ _ E H) as [H'|H']; [tauto|].
      right. exists t. tauto.
    + right. exists u. tauto.
Qed.

(** X15. How a property comes to be on [Object.prototype].  After items
    with plain keys, one more item of category [__proto__] whose level key
    is new is not laid out at all: the output and the number of draws are
    those of the list without it, and the call leaves on [Object.prototype]
    a property named by that level key which holds the item. *)
Theorem grid_proto_category_leaves_level
        (technologies : list RadarTechnology) (p : RadarTechnology)
        (config : Grid.RadarConfig) (heap : Grid.Heap) (rand : Grid.Random) (k : nat) :
  (forall t, In t technologies -> plain_keys heap t) ->
  (forall t, In t technologies -> Grid.quadrantKeyOf t <> Grid.ringKeyOf p) ->
  Grid.quadrantKeyOf p = "__proto__"%string ->
  plain_key heap (Grid.ringKeyOf p) ->
  exists out k',
    Grid.calculateTechnologyPositions technologies config heap rand k
    = Grid.Returns (out, k', heap)
    /\ Grid.calculateTechnologyPositions (technologies ++ [p]) config heap rand k
       = Grid.Returns
           (out, k',
            Grid.mkHeap (JsObject.set (Grid.prototypeProperties heap)
                                      (Grid.ringKeyOf p) [p])
                        (Grid.objectProperties heap)).
Proof.
  intros Hplain Hne Hq [Hrb Hrp].
  destruct (group_inv heap technologies [] [] GroupInv_init Hplain)
    as (grouped & Hg & Hinv).
  simpl in Hinv.
  set (heap' := Grid.mkHeap (JsObject.set (Grid.prototypeProperties heap)
                                          (Grid.ringKeyOf p) [p])
                            (Grid.objectProperties heap)).
  assert (Hreads : Grid.layoutReadsHeap config heap grouped = false).
  { apply (layout_reads_plain_categories config heap grouped technologies Hinv).
    intros t Ht. apply (Hplain t Ht). }
  assert (Hreads' : Grid.layoutReadsHeap config heap' grouped = false).
  { apply (layout_reads_plain_categories config heap' grouped technologies Hinv).
    intros t Ht. destruct (Hplain t Ht) as [[Hb Hp] _]. split; [exact Hb|].
    unfold heap'. cbn [Grid.prototypeProperties].
    rewrite get_set_other; [exact Hp|]. intros E. now apply (Hne t Ht). }
  assert (Hown : JsObject.get grouped "__proto__" = None).
  { destruct (JsObject.get grouped "__proto__") as [rings|] eqn:E; [|reflexivity].
    exfalso.
    assert (Hin : In "__proto__"%string (map fst grouped))
      by (apply get_Some_In in E; apply in_map_iff;
          now exists ("__proto__"%string, rings)).
    destruct (group_category_keys technologies "__proto__" _ _ _ _ Hg Hin)
      as [[]|(t & Ht & Hk)].
    destruct (Hplain t Ht) as [[Hb _] _]. rewrite Hk in Hb. discriminate. }
  assert (Hone : Grid.groupOne heap grouped p = Grid.Returns (grouped, heap')).
  { unfold Grid.groupOne. rewrite Hq, Hown. cbn [String.eqb Ascii.eqb Bool.eqb].
    unfold Grid.groupOnPrototype. rewrite Hrb, Hrp. reflexivity. }
  exists (Grid.positionedTechnologies
            (fold_left (Grid.placeQuadrant config rand) (JsObject.entries grouped)
                       (Grid.mkState [] [] 1 k))),
         (Grid.draws
            (fold_left (Grid.placeQuadrant config rand) (JsObject.entries grouped)
                       (Grid.mkState [] [] 1 k))).
  split.
  - unfold Grid.calculateTechnologyPositions. now rewrite Hg, Hreads.
  - unfold Grid.calculateTechnologyPositions.
    rewrite (group_app technologies [p] heap [] grouped heap Hg).
    cbn [Grid.group]. rewrite Hone. now rewrite Hreads'.
Qed.

Lemma grid_proto_category_leaves_level_witness :
  exists out k',
    Grid.calculateTechnologyPositions [tech_kubernetes] four_rings Grid.pristine
                                      constant_half 0
    = Grid.Returns (out, k', Grid.pristine)
    /\ Grid.calculateTechnologyPositions ([tech_kubernetes] ++ [proto_item]) four_rings
                                         Grid.pristine constant_half 0
       = Grid.Returns (out, k', adopt_left_behind).
Proof.
  apply (grid_proto_category_leaves_level [tech_kubernetes] proto_item four_rings
           Grid.pristine constant_half 0).
  - intros t [<-|[]]; repeat split; reflexivity.
  - intros t [<-|[]]. discriminate.
  - reflexivity.
  - split; reflexivity.
Defined.

(** ** The category key *)

Lemma lower_char_space (c : ascii) :
  JsString.is_space (JsString.lower_char c) = JsString.is_space c.
Proof. destruct c as [[] [] [] [] [] [] [] []]; reflexivity. Qed.

Lemma lower_char_amp (c : ascii) :
  Ascii.eqb (JsString.lower_char c) "&" = Ascii.eqb c "&".
Proof. destruct c as [[] [] [] [] [] [] [] []]; reflexivity. Qed.

Lemma amp_not_space (c : ascii) : Ascii.eqb c "&" = true -> JsString.is_space c = false.
Proof. intros H. apply Ascii.eqb_eq in H. now subst c. Qed.

Lemma count_amp_cons (c : ascii) (l : list ascii) :
  count_occ ascii_dec (c :: l) "&"%char
  = ((if Ascii.eqb c "&" then 1 else 0) + count_occ ascii_dec l "&"%char)%nat.
Proof.
  simpl. destruct (ascii_dec c "&") as [->|Hne].
  - reflexivity.
  - apply Ascii.eqb_neq in Hne. now rewrite Hne.
Qed.

Lemma toLowerCase_length (s : string) :
  String.length (JsString.toLowerCase s) = String.length s.
Proof. induction s as [|c s IH]; simpl; congruence. Qed.

Lemma toLowerCase_counts (s : string) :
  ampersands (JsString.toLowerCase s) = ampersands s
  /\ spaces (JsString.toLowerCase s) = spaces s.
Proof.
  unfold ampersands, spaces. induction s as [|c s [IHa IHs]]; [now split|].
  cbn [JsString.toLowerCase JsString.split]. rewrite !count_amp_cons, lower_char_amp.
  cbn [filter]. rewrite lower_char_space. split; [congruence|].
  destruct (JsString.is_space c); simpl; congruence.
Qed.

Lemma stripSpaces_counts (s : string) :
  ampersands (JsString.stripSpaces s) = ampersands s
  /\ spaces (JsString.stripSpaces s) = 0%nat
  /\ (String.length (JsString.stripSpaces s) + spaces s)%nat = String.length s.
Proof.
  unfold ampersands, spaces. induction s as [|c s (IHa & IHs & IHl)]; [now repeat split|].
  cbn [JsString.stripSpaces JsString.split filter String.length].
  rewrite count_amp_cons.
  destruct (JsString.is_space c) eqn:Hsp.
  - destruct (Ascii.eqb c "&") eqn:Hamp.
    + apply amp_not_space in Hamp. congruence.
    + cbn [List.length]. repeat split; [exact IHa|exact IHs|lia].
  - cbn [JsString.split filter String.length]. rewrite count_amp_cons, Hsp.
    repeat split; [congruence|exact IHs|lia].
Qed.

Lemma dropFirstAmp_counts (s : string) :
  ampersands (JsString.dropFirstAmp s) = Nat.pred (ampersands s)
  /\ (spaces s = 0 -> spaces (JsString.dropFirstAmp s) = 0)%nat
  /\ (String.length (JsString.dropFirstAmp s) + Nat.min 1 (ampersands s))%nat
     = String.length s.
Proof.
  unfold ampersands, spaces. induction s as [|c s (IHa & IHs & IHl)]; [now repeat split|].
  cbn [JsString.dropFirstAmp JsString.split filter String.length].
  rewrite count_amp_cons.
  destruct (Ascii.eqb c "&") eqn:Hamp.
  - rewrite (amp_not_space c Hamp). repeat split; simpl; try tauto. lia.
  - cbn [JsString.split filter String.length]. rewrite count_amp_cons, Hamp.
    repeat split.
    + exact IHa.
    + destruct (JsString.is_space c); simpl; [discriminate|exact IHs].
    + simpl in *. lia.
Qed.

(** X16. The category key
    [quadrant.toLowerCase().replace(/\s+/g, "").replace("&", "")] holds no
    white space, and one ampersand fewer than the category when the
    category holds any: the second [replace] takes a string, not a global
    pattern, so only the first ampersand is deleted.  The key is shorter
    than the category by the number of white-space code units and by one
    for that ampersand. *)
Theorem normalizeKey_counts (q : string) :
  spaces (JsString.normalizeKey q) = 0%nat
  /\ ampersands (JsString.normalizeKey q) = Nat.pred (ampersands q)
  /\ (String.length (JsString.normalizeKey q) + spaces q + Nat.min 1 (ampersands q))%nat
     = String.length q.
Proof.
  unfold JsString.normalizeKey.
  destruct (toLowerCase_counts q) as [Hla Hls].
  destruct (stripSpaces_counts (JsString.toLowerCase q)) as (Hsa & Hss & Hsl).
  destruct (dropFirstAmp_counts (JsString.stripSpaces (JsString.toLowerCase q)))
    as (Hda & Hds & Hdl).
  rewrite Hsa, Hla in Hda, Hdl. rewrite Hls, toLowerCase_length in Hsl.
  repeat split; [now apply Hds|exact Hda|lia].
Qed.
